(** * python-pods: a shallow embedding of [pythonpods.py]

    The client launches a pod (a child process), reads its describe reply,
    registers the pod in a process-wide table, exposes its namespaces as
    Python modules and demultiplexes the replies the pod sends to the
    waiters registered in [chans].

    Conventions of the embedding.
    - Python dictionaries used as maps are [gmap]s; dictionaries that are
      iterated ([ns_vars.items()]) are association lists in insertion order.
    - The pod dictionary is a shared mutable object: it lives in a heap of
      pod objects and is passed around by address ([loc]).  The futures and
      handlers of the pod live in its [chans], where the source keeps them
      for good.
    - Byte strings read from the wire are well-formed UTF-8, so
      [bytes_to_string] is the identity on [string].
    - Envelopes are typed as the wire protocol types them: a key that is
      absent is [None].
    - Functions run in the monad [M]: a call returns, raises, or stays
      suspended on a future; the two polling loops of [run_pod] take fuel.
    - The reader thread of a pod is the function [processor]; it runs when
      it is called: by the scheduler, or by a caller that waits on a future.
    - What lies outside the repository is a parameter: the payload codecs,
      the resolver, [subprocess.Popen], [str.strip] and [int]; the child is
      the record [Child] of what the client can observe of it.
    - A module object is its attribute dictionary; [setattr] on it raises
      for the two names a module does not let one set, [__dict__] and
      [__class__], and a var bound to inline code is a plain string there.
    - Diagnostic [print] calls are not part of the model; writes to the
      pod's [out] and [err] sinks and calls of user callables are recorded
      in the world's trace. *)

From stdpp Require Import gmap strings list fin_maps.
From Stdlib Require Import ZArith Ascii String.

Set Warnings "-register-all".
Open Scope string_scope.
Open Scope list_scope.

(** ** Python values carried by payloads *)

Inductive PyVal :=
| PNone
| PBool (b : bool)
| PInt (z : Z)
| PStr (s : string)
| PList (l : list PyVal)
| PDict (d : list (string * PyVal)).

(** Truth value of a payload, as [bool(x)] computes it. *)
Definition truthy (v : PyVal) : bool :=
  match v with
  | PNone => false
  | PBool b => b
  | PInt z => negb (Z.eqb z 0)
  | PStr s => negb (String.eqb s "")
  | PList l => match l with [] => false | _ => true end
  | PDict d => match d with [] => false | _ => true end
  end.

(** Truth value of a string ([if s:]) and of an optional string
    ([if x:] where [x] is [None] or a string). *)
Definition str_truthy (s : string) : bool := negb (String.eqb s "").

Definition opt_truthy (o : option string) : bool :=
  match o with Some s => str_truthy s | None => false end.

(** [str.replace(old, new)] for one-character [old] and [new], the only
    form the source uses. *)
Fixpoint replace_char (old new : ascii) (s : string) : string :=
  match s with
  | EmptyString => EmptyString
  | String c s' =>
      String (if Ascii.eqb c old then new else c) (replace_char old new s')
  end.

Definition newline : string := String (ascii_of_nat 10) EmptyString.

(** [s.endswith(suffix)] *)
Definition endswith (s suffix : string) : bool :=
  let n := String.length s in
  let k := String.length suffix in
  (k <=? n)%nat && String.eqb (substring (n - k) k s) suffix.

(** ** Exceptions *)

Inductive PyExc :=
| PodError (message : string) (data : PyVal)
| InvalidStateError
| DecodeError (s : string)
| EncodeError
| ValueError (message : string)
| BrokenPipeError
| OSError
| AttributeError
| TypeError
| KeyError (k : string).

(** [PodError.__init__]: [self.data = data or {}] *)
Definition mk_PodError (message : string) (data : PyVal) : PyExc :=
  PodError message (if truthy data then data else PDict []).

(** ** Helpers on envelopes *)

Definition bytes_to_string (data : string) : string := data.

Definition bytes_to_boolean (data : string) : bool := String.eqb data "true".

(** [get_string(m, k)] and [get_maybe_string(m, k)] on a key looked up as
    [m.get(k)]; the argument is the result of the lookup. *)
Definition get_string (v : option string) : option string :=
  bytes_to_string <$> v.

Definition get_maybe_string (v : option string) : option string :=
  match v with Some x => Some (bytes_to_string x) | None => None end.

Definition get_maybe_boolean (v : option string) : option bool :=
  match v with Some x => Some (bytes_to_boolean x) | None => None end.

(** ** Vars, namespaces and modules *)

Definition loc := nat.

(** A var advertised by a pod is bound either to its inline code or to a
    closure made by [create_invoker], which captures the pod, the qualified
    name and the two flags. *)
Inductive Var :=
| VCode (code : string)
| VInvoker (pod : loc) (ns_name_str var_name : string)
           (is_async : bool) (arg_meta : option bool).

#[global] Instance Var_eq_dec : EqDecision Var.
Proof. solve_decision. Defined.

(** Wire form of a var: [{name, async?, code?, meta?, arg-meta?}] *)
Record VarDesc := {
  vd_name : string;
  vd_async : option string;
  vd_code : option string;
  vd_meta : option string;
  vd_arg_meta : option string
}.

(** Wire form of a namespace: [{name, defer?, vars}]; [nd_vars = None]
    when the key is absent. *)
Record NsDesc := {
  nd_name : string;
  nd_vars : option (list VarDesc);
  nd_defer : option string
}.

(** An insertion-ordered dictionary with string keys. *)
Definition odict (V : Type) := list (string * V).

Fixpoint odict_set {V} (k : string) (v : V) (d : odict V) : odict V :=
  match d with
  | [] => [(k, v)]
  | (k', v') :: d' =>
      if String.eqb k' k then (k, v) :: d' else (k', v') :: odict_set k v d'
  end.

Fixpoint odict_get {V} (k : string) (d : odict V) : option V :=
  match d with
  | [] => None
  | (k', v') :: d' => if String.eqb k' k then Some v' else odict_get k d'
  end.

(** The namespace dictionary [{"name", "vars", "defer"}]; the one built by
    the processor from a load-ns reply has no ["defer"] key. *)
Record Namespace := {
  ns_name : string;
  ns_vars : odict Var;
  ns_defer : option bool
}.

(** [namespace.get("defer", False)] *)
Definition ns_get_defer (n : Namespace) : bool := default false (ns_defer n).

(** The value of a module attribute: [None], a [str], or a closure made
    by [create_invoker].  A var bound to its inline code is that [str]. *)
Inductive Attr :=
| ANone
| AStr (s : string)
| AFun (pod : loc) (ns_name_str var_name : string)
       (is_async : bool) (arg_meta : option bool).

#[global] Instance Attr_eq_dec : EqDecision Attr.
Proof. solve_decision. Defined.

(** The object a var of a namespace dictionary is. *)
Definition var_object (v : Var) : Attr :=
  match v with
  | VCode code => AStr code
  | VInvoker pod ns_name_str var_name is_async arg_meta =>
      AFun pod ns_name_str var_name is_async arg_meta
  end.

(** A module object is its attribute dictionary. *)
Abbreviation Module := (gmap string Attr).

(** What [setattr(module, name, value)] raises on a module object when
    [value] is a string or a function: [__dict__] is read-only, and
    [__class__] takes a class only. *)
Definition setattr_error (name : string) : option PyExc :=
  if String.eqb name "__dict__" then Some AttributeError
  else if String.eqb name "__class__" then Some TypeError
  else None.

Definition namespace_to_module_name (ns_name : string) : string :=
  replace_char "-" "_" (replace_char "." "_" ns_name).

(** [bencode_to_vars]: the dictionary of a namespace's vars, in the order
    of [vars_list]; a repeated name keeps its first position and takes the
    last binding, as [result[name] = ...] does.  [var_meta] is computed and
    never used in the source, so it does not appear. *)
Definition bencode_to_var (pod : loc) (ns_name_str : string) (var : VarDesc) : Var :=
  let name := vd_name var in
  let async_flag := get_maybe_string (vd_async var) in
  let is_async :=
    if opt_truthy async_flag then bool_decide (async_flag = Some "true") else false in
  let code := get_maybe_string (vd_code var) in
  let arg_meta := get_maybe_boolean (vd_arg_meta var) in
  match code with
  | Some c => if str_truthy c then VCode c
              else VInvoker pod ns_name_str name is_async arg_meta
  | None => VInvoker pod ns_name_str name is_async arg_meta
  end.

Definition bencode_to_vars (pod : loc) (ns_name_str : string)
    (vars_list : list VarDesc) : odict Var :=
  foldl (fun result var =>
           odict_set (vd_name var) (bencode_to_var pod ns_name_str var) result)
        [] vars_list.

(** [bencode_to_namespace] *)
Definition bencode_to_namespace (pod : loc) (namespace : NsDesc) : Namespace :=
  let name_str := nd_name namespace in
  let vars_list := default [] (nd_vars namespace) in
  let defer_str := get_maybe_string (nd_defer namespace) in
  let defer :=
    if opt_truthy defer_str then bool_decide (defer_str = Some "true") else false in
  {| ns_name := name_str;
     ns_vars := bencode_to_vars pod name_str vars_list;
     ns_defer := Some defer |}.

(** ** Waiters *)

(** Result of a future: a decoded payload, or the namespace dictionary the
    processor builds from a load-ns reply. *)
Inductive Result :=
| RVal (v : PyVal)
| RNs (n : Namespace).

(** [concurrent.futures.Future]: [set_result] and [set_exception] raise
    [InvalidStateError] on a future that is already done (Python 3.8 and
    later). *)
Inductive Future :=
| Pending
| Finished (result : Result)
| Failed (exception : PyExc).

Definition future_done (f : Future) : bool :=
  match f with Pending => false | _ => true end.

(** A user callable, identified by a tag; calling it is recorded in the
    trace. *)
Definition Callback := nat.

(** The object stored in [chans]: a [Future], or the caller's handlers
    dictionary with keys ["success"], ["error"], ["done"]. *)
Inductive Waiter :=
| WFuture (f : Future)
| WHandlers (h : gmap string Callback).

(** ** Envelopes *)

(** A request written to the pod. *)
Record Message := {
  m_op : string;
  m_id : string;
  m_var : option string;
  m_args : option string;
  m_ns : option string
}.

(** A reply read by the processor; [r_status = None] when the key is
    absent.  A load-ns reply carries [vars] and [name]; [r_name] is read
    only when [r_vars] is present. *)
Record Reply := {
  r_id : option string;
  r_value : option string;
  r_status : option (list string);
  r_ex_message : option string;
  r_ex_data : option string;
  r_vars : option (list VarDesc);
  r_name : string;
  r_out : option string;
  r_err : option string
}.

(** The describe reply. *)
Record Describe := {
  d_format : option string;
  d_ops : option (list string);
  d_readers : option (list (string * string));
  d_namespaces : option (list NsDesc)
}.

(** ** Processes, pods and the world *)

Inductive ProcStatus := Running | Exited | Terminated.

(** What the child does, as far as the client can observe it: the replies
    it emits when it reads a request, whether it exits within the five
    seconds [destroy_pod] waits after a shutdown request, its describe
    reply ([None]: end of stream), in socket mode the content of its port
    file at the k-th poll ([None]: no such file) and whether the k-th
    connection attempt is accepted, and the number of 10 ms polls after
    which it has exited of its own accord ([None]: it keeps running). *)
Record Child := {
  respond : Message -> list Reply;
  exits_on_shutdown : bool;
  describe_reply : option Describe;
  port_file_at : nat -> option string;
  accepts_at : nat -> bool;
  exits_after : option nat
}.

Record Process := {
  pid : nat;
  status : ProcStatus;
  child : Child
}.

Inductive ThreadState := TRunning | TFinished.

Inductive Sink := SysStdout | SysStderr.

(** The pod dictionary built by [load_pod].  [stdin] is the log of the
    requests written to the pod, [stdout] the envelopes the pod has emitted
    and the processor has not read yet. *)
Record Pod := {
  process : Process;
  pod_spec : list string;
  stdin : list Message;
  stdout : list Reply;
  chans : gmap string Waiter;
  format : string;
  ops : gset string;
  out : Sink;
  err : Sink;
  remove_ns : option Callback;
  readers : gmap string (Callback * string);
  pod_id : string;
  namespaces : option (list Namespace);
  processor_thread : option ThreadState
}.

Inductive Event :=
| EWrite (sink : Sink) (s : string)
| EFlush (sink : Sink)
| ECall (f : Callback) (args : list PyVal).

(** The interpreter state: the heap of pod objects, the module globals
    [pods] and [loaded_namespaces], [sys.modules], the trace of observable
    effects, and the source of [uuid.uuid4()] with the number of draws made. *)
Record World := {
  heap : gmap loc Pod;
  pods : gmap string loc;
  loaded_namespaces : gmap string (gmap string Namespace);
  sys_modules : gmap string Module;
  trace : list Event;
  uuid4 : nat -> string;
  drawn : nat
}.

Definition with_heap (h : gmap loc Pod) (w : World) : World :=
  {| heap := h; pods := pods w; loaded_namespaces := loaded_namespaces w;
     sys_modules := sys_modules w; trace := trace w; uuid4 := uuid4 w;
     drawn := drawn w |}.

Definition with_pods (r : gmap string loc) (w : World) : World :=
  {| heap := heap w; pods := r; loaded_namespaces := loaded_namespaces w;
     sys_modules := sys_modules w; trace := trace w; uuid4 := uuid4 w;
     drawn := drawn w |}.

Definition with_loaded_namespaces (n : gmap string (gmap string Namespace))
    (w : World) : World :=
  {| heap := heap w; pods := pods w; loaded_namespaces := n;
     sys_modules := sys_modules w; trace := trace w; uuid4 := uuid4 w;
     drawn := drawn w |}.

Definition with_sys_modules (m : gmap string Module) (w : World) : World :=
  {| heap := heap w; pods := pods w; loaded_namespaces := loaded_namespaces w;
     sys_modules := m; trace := trace w; uuid4 := uuid4 w; drawn := drawn w |}.

Definition with_trace (t : list Event) (w : World) : World :=
  {| heap := heap w; pods := pods w; loaded_namespaces := loaded_namespaces w;
     sys_modules := sys_modules w; trace := t; uuid4 := uuid4 w;
     drawn := drawn w |}.

Definition with_drawn (n : nat) (w : World) : World :=
  {| heap := heap w; pods := pods w; loaded_namespaces := loaded_namespaces w;
     sys_modules := sys_modules w; trace := trace w; uuid4 := uuid4 w;
     drawn := n |}.

Definition with_process (x : Process) (p : Pod) : Pod :=
  {| process := x; pod_spec := pod_spec p; stdin := stdin p; stdout := stdout p;
     chans := chans p; format := format p; ops := ops p; out := out p;
     err := err p; remove_ns := remove_ns p; readers := readers p;
     pod_id := pod_id p; namespaces := namespaces p;
     processor_thread := processor_thread p |}.

Definition with_stdin (x : list Message) (p : Pod) : Pod :=
  {| process := process p; pod_spec := pod_spec p; stdin := x; stdout := stdout p;
     chans := chans p; format := format p; ops := ops p; out := out p;
     err := err p; remove_ns := remove_ns p; readers := readers p;
     pod_id := pod_id p; namespaces := namespaces p;
     processor_thread := processor_thread p |}.

Definition with_stdout (x : list Reply) (p : Pod) : Pod :=
  {| process := process p; pod_spec := pod_spec p; stdin := stdin p; stdout := x;
     chans := chans p; format := format p; ops := ops p; out := out p;
     err := err p; remove_ns := remove_ns p; readers := readers p;
     pod_id := pod_id p; namespaces := namespaces p;
     processor_thread := processor_thread p |}.

Definition with_chans (x : gmap string Waiter) (p : Pod) : Pod :=
  {| process := process p; pod_spec := pod_spec p; stdin := stdin p;
     stdout := stdout p; chans := x; format := format p; ops := ops p;
     out := out p; err := err p; remove_ns := remove_ns p; readers := readers p;
     pod_id := pod_id p; namespaces := namespaces p;
     processor_thread := processor_thread p |}.

Definition with_namespaces (x : option (list Namespace)) (p : Pod) : Pod :=
  {| process := process p; pod_spec := pod_spec p; stdin := stdin p;
     stdout := stdout p; chans := chans p; format := format p; ops := ops p;
     out := out p; err := err p; remove_ns := remove_ns p; readers := readers p;
     pod_id := pod_id p; namespaces := x;
     processor_thread := processor_thread p |}.

Definition with_processor_thread (x : option ThreadState) (p : Pod) : Pod :=
  {| process := process p; pod_spec := pod_spec p; stdin := stdin p;
     stdout := stdout p; chans := chans p; format := format p; ops := ops p;
     out := out p; err := err p; remove_ns := remove_ns p; readers := readers p;
     pod_id := pod_id p; namespaces := namespaces p;
     processor_thread := x |}.

(** ** The monad of the embedding: state, exceptions, suspension *)

(** A call returns, raises, never resumes ([Blocked]: it waits on a future
    that is still pending), or exhausts the fuel given to a polling loop. *)
Inductive Res (A : Type) :=
| Ok (a : A) (w : World)
| Exn (e : PyExc) (w : World)
| Blocked (w : World)
| OutOfFuel.
Arguments Ok {A} a w.
Arguments Exn {A} e w.
Arguments Blocked {A} w.
Arguments OutOfFuel {A}.

Definition M (A : Type) := World -> Res A.

Definition ret {A} (a : A) : M A := fun w => Ok a w.

Definition raise {A} (e : PyExc) : M A := fun w => Exn e w.

Definition bind {A B} (k : A -> M B) (m : M A) : M B :=
  fun w =>
    match m w with
    | Ok a w' => k a w'
    | Exn e w' => Exn e w'
    | Blocked w' => Blocked w'
    | OutOfFuel => OutOfFuel
    end.

#[global] Instance M_ret : MRet M := @ret.
#[global] Instance M_bind : MBind M := @bind.

(** [try: m except: h] (a bare [except] or [except Exception]) *)
Definition try_except {A} (m : M A) (h : PyExc -> M A) : M A :=
  fun w =>
    match m w with
    | Exn e w' => h e w'
    | r => r
    end.

Definition suspend {A} : M A := fun w => Blocked w.

Definition get_world : M World := fun w => Ok w w.

Definition modify (f : World -> World) : M unit := fun w => Ok tt (f w).

Definition emit (e : Event) : M unit :=
  modify (fun w => with_trace (trace w ++ [e]) w).

(** Dereference a pod object. *)
Definition get_pod (l : loc) : M Pod :=
  fun w =>
    match heap w !! l with
    | Some p => Ok p w
    | None => Exn AttributeError w
    end.

Definition update_pod (l : loc) (f : Pod -> Pod) : M unit :=
  modify (fun w => with_heap (alter f l (heap w)) w).

(** [next_id()]: [str(uuid.uuid4())] *)
Definition next_id : M string :=
  fun w => Ok (uuid4 w (drawn w)) (with_drawn (S (drawn w)) w).

(** ** Exposing namespaces as modules *)

(** [types.ModuleType(name)] *)
Definition ModuleType (name : string) : Module :=
  {[ "__name__" := AStr name; "__doc__" := ANone; "__package__" := ANone;
     "__loader__" := ANone; "__spec__" := ANone ]}.

(** [setattr(module, name, value)]; the module object is not shared before
    it is registered, so the new attribute dictionary is returned. *)
Definition setattr (module : Module) (name : string) (value : Attr) : M Module :=
  match setattr_error name with
  | Some e => raise e
  | None => mret (<[name := value]> module)
  end.

(** The loop over [ns_vars.items()]. *)
Fixpoint expose_vars (module : Module) (items : list (string * Var)) : M Module :=
  match items with
  | [] => mret module
  | (func_name, func) :: rest =>
      module ← setattr module func_name (var_object func);
      let python_name := replace_char "-" "_" func_name in
      module ← (if negb (String.eqb python_name func_name)
                then setattr module python_name (var_object func)
                else mret module);
      expose_vars module rest
  end.

(** The module object with its metadata, before the loop over the vars;
    none of the three names makes [setattr] raise. *)
Definition new_module (pod_id ns_name : string) : Module :=
  let module_name := namespace_to_module_name ns_name in
  let module := ModuleType module_name in
  let module := <["__doc__" := AStr (String.append "Pod namespace: " ns_name)]> module in
  let module := <["__pod_namespace__" := AStr ns_name]> module in
  <["__pod_id__" := AStr pod_id]> module.

Definition expose_namespace_as_module (pod : loc) (namespace : Namespace) : M Module :=
  p ← get_pod pod;
  let ns_name := ns_name namespace in
  let ns_vars := ns_vars namespace in
  let pod_id := pod_id p in
  let module_name := namespace_to_module_name ns_name in
  module ← expose_vars (new_module pod_id ns_name) ns_vars;
  modify (fun w => with_sys_modules (<[module_name := module]> (sys_modules w)) w);;
  modify (fun w =>
            let tracked := default ∅ (loaded_namespaces w !! pod_id) in
            with_loaded_namespaces
              (<[pod_id := <[ns_name := namespace]> tracked]> (loaded_namespaces w)) w);;
  mret module.

(** The loop of [expose_non_deferred_namespaces] over the namespaces that
    remain. *)
Fixpoint expose_each (pod : loc) (nss : list Namespace) : M (list Module) :=
  match nss with
  | [] => mret []
  | namespace :: rest =>
      if negb (ns_get_defer namespace)
      then module ← expose_namespace_as_module pod namespace;
           modules ← expose_each pod rest;
           mret (module :: modules)
      else expose_each pod rest
  end.

Definition expose_non_deferred_namespaces (pod : loc) : M (list Module) :=
  p ← get_pod pod;
  match namespaces p with
  | Some nss => expose_each pod nss
  | None => raise (KeyError "namespaces")
  end.

(** [unregister_pod_modules]: a module belongs to the pod when it has the
    attribute [__pod_id__] and that attribute equals [pod_id]. *)
Definition module_of_pod (pod_id : string) (module : Module) : bool :=
  bool_decide (module !! "__pod_id__" = Some (AStr pod_id)).

Definition unregister_pod_modules (pod_id : string) : M unit :=
  modify (fun w =>
            with_sys_modules
              (filter (fun kv => module_of_pod pod_id kv.2 = false) (sys_modules w)) w);;
  modify (fun w => with_loaded_namespaces (delete pod_id (loaded_namespaces w)) w).

(** ** Requests, futures and the processor *)

Section Pods.

(** The payload codecs are libraries outside the repository: [edn.from_edn]
    and [json.loads] ([None]: the reader raises), [edn.to_edn] and
    [json.dumps] ([None]: the writer raises), [str] on the argument list. *)
Variable from_edn : string -> option PyVal.
Variable json_loads : string -> option PyVal.
Variable to_edn : PyVal -> option string.
Variable json_dumps : PyVal -> option string.
Variable py_str : PyVal -> string.

(** [read_fn] as [processor] selects it from the pod's format. *)
Definition read_fn (format_type : string) (s : string) : option PyVal :=
  if String.eqb format_type "edn" then from_edn s
  else if String.eqb format_type "json" then json_loads s
  else Some (PStr s).

(** [write_fn] as [invoke] selects it. *)
Definition write_fn (format_type : string) (args : PyVal) : option string :=
  if String.eqb format_type "edn" then to_edn args
  else if String.eqb format_type "json" then json_dumps args
  else Some (py_str args).

(** [chan.set_result(r)] and [chan.set_exception(e)] on the future stored
    in [chans] under [msg_id]. *)
Definition settle (pod : loc) (msg_id : string) (outcome : Future) : M unit :=
  p ← get_pod pod;
  match chans p !! msg_id with
  | Some (WFuture Pending) =>
      update_pod pod (fun p => with_chans (<[msg_id := WFuture outcome]> (chans p)) p)
  | Some (WFuture _) => raise InvalidStateError
  | _ => raise AttributeError
  end.

Definition set_result (pod : loc) (msg_id : string) (r : Result) : M unit :=
  settle pod msg_id (Finished r).

Definition set_exception (pod : loc) (msg_id : string) (e : PyExc) : M unit :=
  settle pod msg_id (Failed e).

(** [stream.write(s); stream.flush()] on a sink. *)
Definition forward (sink : Sink) (msg : option string) : M unit :=
  match msg with
  | Some s =>
      if str_truthy s then emit (EWrite sink s);; emit (EFlush sink) else mret tt
  | None => mret tt
  end.

(** Call a handler when the dictionary has one under [key]. *)
Definition call_handler (h : gmap string Callback) (key : string)
    (args : list PyVal) : M unit :=
  match h !! key with
  | Some f => emit (ECall f args)
  | None => mret tt
  end.

(** The pieces of the loop body of [processor], in the order of the
    source.  [decode_value] is the [try] around [read_fn(value_str)]: the
    decoded value and the exception caught, if any. *)
Definition decode_value (format_type : string) (value_entry : option string)
    : PyVal * option PyExc :=
  match value_entry with
  | Some ve =>
      match read_fn format_type (bytes_to_string ve) with
      | Some v => (v, None)
      | None => (PNone, Some (DecodeError (bytes_to_string ve)))
      end
  | None => (PNone, None)
  end.

(** [status = set(bytes_to_string(s) for s in reply.get("status", []))] *)
Definition reply_status (reply : Reply) : list string :=
  bytes_to_string <$> default [] (r_status reply).

(** [error = exception or "error" in status] *)
Definition reply_error (format_type : string) (reply : Reply) : bool :=
  bool_decide (is_Some (decode_value format_type (r_value reply)).2)
  || bool_decide ("error" ∈ reply_status reply).

(** [done = error or exception or "done" in status] *)
Definition reply_done (format_type : string) (reply : Reply) : bool :=
  reply_error format_type reply
  || bool_decide (is_Some (decode_value format_type (r_value reply)).2)
  || bool_decide ("done" ∈ reply_status reply).

Definition reply_ex_message (format_type : string) (reply : Reply) : string :=
  if reply_error format_type reply
  then match get_maybe_string (r_ex_message reply) with
       | Some m => if str_truthy m then m else ""
       | None => ""
       end
  else "".

Definition reply_ex_data (format_type : string) (reply : Reply) : PyVal :=
  if reply_error format_type reply
  then match get_maybe_string (r_ex_data reply) with
       | Some ex_data_str =>
           if str_truthy ex_data_str
           then default (PDict []) (read_fn format_type ex_data_str)
           else PDict []
       | None => PDict []
       end
  else PDict [].

(** The namespace built when ["vars"] is in the reply. *)
Definition reply_namespace (pod : loc) (reply : Reply) : option Namespace :=
  match r_vars reply with
  | Some vars_list =>
      let name_str := bytes_to_string (r_name reply) in
      Some {| ns_name := name_str;
              ns_vars := bencode_to_vars pod name_str vars_list;
              ns_defer := None |}
  | None => None
  end.

(** [chan = chans.get(msg_id)], with the id it was found under. *)
Definition reply_chan (p : Pod) (reply : Reply) : option (string * Waiter) :=
  get_string (r_id reply) ≫= fun i => (fun c => (i, c)) <$> chans p !! i.

(** "Handle the main response" *)
Definition handle_response (pod : loc) (format_type : string) (reply : Reply)
    (msg_id : string) (chan : Waiter) : M unit :=
  let value := (decode_value format_type (r_value reply)).1 in
  let error := reply_error format_type reply in
  let ex_message := reply_ex_message format_type reply in
  let ex_data := reply_ex_data format_type reply in
  let namespace := reply_namespace pod reply in
  if bool_decide (is_Some (r_value reply)) || error || bool_decide (is_Some namespace)
  then match chan with
       | WFuture _ =>
           if error then set_exception pod msg_id (mk_PodError ex_message ex_data)
           else match value, namespace with
                | PNone, Some ns => set_result pod msg_id (RNs ns)
                | PNone, None => mret tt
                | v, _ => set_result pod msg_id (RVal v)
                end
       | WHandlers h =>
           if negb error
           then call_handler h "success" [value]
           else call_handler h "error"
                  [PDict [("ex-message", PStr ex_message); ("ex-data", ex_data)]]
       end
  else mret tt.

(** [if done and not error: ...] *)
Definition handle_done (pod : loc) (format_type : string) (reply : Reply)
    (msg_id : string) (chan : Waiter) : M unit :=
  if reply_done format_type reply && negb (reply_error format_type reply)
  then match chan with
       | WFuture _ =>
           p ← get_pod pod;
           match chans p !! msg_id with
           | Some (WFuture f) =>
               if negb (future_done f) then set_result pod msg_id (RVal PNone)
               else mret tt
           | _ => mret tt
           end
       | WHandlers h => call_handler h "done" []
       end
  else mret tt.

(** The body of the [while True] loop of [processor], after an envelope
    has been read: an envelope with no waiter is skipped ([continue]);
    otherwise [out] and [err] are forwarded and the waiter is served. *)
Definition processor_body (pod : loc) (reply : Reply) : M unit :=
  p ← get_pod pod;
  let format_type := format p in
  match reply_chan p reply with
  | None => mret tt
  | Some (msg_id, chan) =>
      forward (out p) (get_maybe_string (r_out reply));;
      forward (err p) (get_maybe_string (r_err reply));;
      handle_response pod format_type reply msg_id chan;;
      handle_done pod format_type reply msg_id chan
  end.

(** [write_message] on the pod's [stdin]: the request is encoded, written
    and flushed; the pod's replies to it become readable on [stdout].
    Writing to a pod that no longer runs raises. *)
Definition write_message (pod : loc) (message : Message) : M unit :=
  p ← get_pod pod;
  match status (process p) with
  | Running =>
      update_pod pod (fun p =>
        with_stdout (stdout p ++ respond (child (process p)) message)
          (with_stdin (stdin p ++ [message]) p))
  | _ => raise BrokenPipeError
  end.

(** The [while True] loop over the envelopes that can be read; each
    [read_message] consumes one. *)
Fixpoint processor_loop (pod : loc) (input : list Reply) : M unit :=
  match input with
  | [] => mret tt
  | reply :: rest =>
      update_pod pod (with_stdout rest);;
      processor_body pod reply;;
      processor_loop pod rest
  end.

Definition finish_thread (pod : loc) : M unit :=
  update_pod pod (with_processor_thread (Some TFinished)).

(** [processor], the target of the pod's reader thread, run for as long as
    the pod's output lasts: it handles the envelopes emitted so far, returns
    at end of stream (the pod no longer runs) and otherwise stays in
    [read_message].  An exception raised in the loop is caught outside it,
    which ends the thread.  A thread that has ended (or was not started)
    reads nothing. *)
Definition processor (pod : loc) : M unit :=
  p ← get_pod pod;
  match processor_thread p with
  | Some TRunning =>
      try_except
        (processor_loop pod (stdout p);;
         p' ← get_pod pod;
         match status (process p') with
         | Running => mret tt
         | _ => finish_thread pod
         end)
        (fun e => finish_thread pod)
  | _ => mret tt
  end.

(** [chan.result()]: the caller waits while the reader thread runs; it
    returns the result, raises the exception, or stays suspended on a future
    that is still pending. *)
Definition chan_result (pod : loc) (msg_id : string) : M Result :=
  processor pod;;
  p ← get_pod pod;
  match chans p !! msg_id with
  | Some (WFuture (Finished r)) => mret r
  | Some (WFuture (Failed e)) => raise e
  | _ => suspend
  end.

(** [invoke]; [handlers] is [opts.get("handlers")].  The result of a
    future is never an exception object, so the [isinstance] test before
    [return] is always false. *)
Definition invoke (pod : loc) (pod_var : string) (args : PyVal)
    (handlers : option (gmap string Callback)) : M (option Result) :=
  p ← get_pod pod;
  let format_type := format p in
  msg_id ← next_id;
  let use_handlers :=
    match handlers with Some h => negb (bool_decide (h = ∅)) | None => false end in
  let chan :=
    match handlers with
    | Some h => if use_handlers then WHandlers h else WFuture Pending
    | None => WFuture Pending
    end in
  update_pod pod (fun p => with_chans (<[msg_id := chan]> (chans p)) p);;
  match write_fn format_type args with
  | None => raise EncodeError
  | Some encoded =>
      write_message pod
        {| m_op := "invoke"; m_id := msg_id; m_var := Some pod_var;
           m_args := Some encoded; m_ns := None |};;
      if use_handlers then mret None
      else result ← chan_result pod msg_id; mret (Some result)
  end.

(** ** Destroying a pod *)

(** The argument of [destroy]: a pod id, a pod object, or any other
    dictionary with string values. *)
Inductive PodRef :=
| ById (pod_id : string)
| ByPod (pod : loc)
| ByDict (d : gmap string string)
| ByNone.

Inductive PyObj := OStr (s : string) | OOther.

(** The keys [load_pod] puts in the pod dictionary: those of the literal,
    then ["namespaces"] and ["processor_thread"] once assigned. *)
Definition pod_literal_keys : list string :=
  ["process"; "pod_spec"; "stdin"; "stdout"; "chans"; "format"; "ops"; "out";
   "err"; "remove_ns"; "readers"; "pod_id"].

(** [pod.get(k)]: strings are held under ["format"] and ["pod_id"]. *)
Definition pod_get (p : Pod) (k : string) : option PyObj :=
  if String.eqb k "pod_id" then Some (OStr (pod_id p))
  else if String.eqb k "format" then Some (OStr (format p))
  else if bool_decide (k ∈ pod_literal_keys) then Some OOther
  else if String.eqb k "namespaces" then (fun _ => OOther) <$> namespaces p
  else if String.eqb k "processor_thread" then (fun _ => OOther) <$> processor_thread p
  else None.

(** [get_pod_id_from_spec]; the result is [None] when it is Python's [None]
    or an object that is not a string. *)
Definition get_pod_id_from_spec (x : PodRef) : M (option string) :=
  match x with
  | ById pod_id => mret (Some pod_id)
  | ByPod l =>
      p ← get_pod l;
      mret (match pod_get p "pod/id" with Some (OStr s) => Some s | _ => None end)
  | ByDict d => mret (d !! "pod/id")
  | ByNone => mret None
  end.

(** [lookup_pod]: [pods.get(pod_id)]; the keys of [pods] are strings. *)
Definition lookup_pod (pod_id : option string) : M (option loc) :=
  w ← get_world;
  mret (pod_id ≫= fun k => pods w !! k).

(** [process.terminate()]: no effect on a process that has ended. *)
Definition terminate (pod : loc) : M unit :=
  update_pod pod (fun p =>
    match status (process p) with
    | Running =>
        with_process {| pid := pid (process p); status := Terminated;
                        child := child (process p) |} p
    | _ => p
    end).

(** [process.wait(timeout=5)] after a shutdown request; [ValueError] stands
    for [subprocess.TimeoutExpired]. *)
Definition process_wait (pod : loc) : M unit :=
  p ← get_pod pod;
  match status (process p) with
  | Running =>
      if exits_on_shutdown (child (process p))
      then update_pod pod
             (with_process {| pid := pid (process p); status := Exited;
                              child := child (process p) |})
      else raise (ValueError "timed out")
  | _ => mret tt
  end.

Definition destroy_pod (pod : loc) : M unit :=
  p ← get_pod pod;
  if bool_decide ("shutdown" ∈ ops p)
  then try_except
         (msg_id ← next_id;
          write_message pod
            {| m_op := "shutdown"; m_id := msg_id; m_var := None;
               m_args := None; m_ns := None |};;
          process_wait pod)
         (fun _ => terminate pod)
  else terminate pod.

(** The loop calling [remove_ns_fn] on each namespace name. *)
Fixpoint remove_each (f : Callback) (nss : list Namespace) : M unit :=
  match nss with
  | [] => mret tt
  | namespace :: rest => emit (ECall f [PStr (ns_name namespace)]);; remove_each f rest
  end.

Definition destroy (pod_id_or_pod : PodRef) : M unit :=
  pod_id ← get_pod_id_from_spec pod_id_or_pod;
  pod ← lookup_pod pod_id;
  match pod, pod_id with
  | Some l, Some id =>
      unregister_pod_modules id;;
      destroy_pod l;;
      p ← get_pod l;
      match remove_ns p with
      | Some remove_ns_fn => remove_each remove_ns_fn (default [] (namespaces p))
      | None => mret tt
      end
  | _, _ => mret tt
  end;;
  match pod_id with
  | Some id => modify (fun w => with_pods (delete id (pods w)) w)
  | None => mret tt
  end.

Definition unload_pod (pod_id_or_pod : PodRef) : M unit := destroy pod_id_or_pod.

(** ** Launching a pod *)

(** Options of [load_pod]; a key that is absent is [None]. *)
Record Opts := {
  o_version : option string;
  o_path : option string;
  o_force : option bool;
  o_transport : option string;
  o_metadata : option Describe;
  o_remove_ns : option Callback;
  o_resolve : option Callback;
  o_download_only : option bool
}.

(** [{**opts, **extra_opts}] *)
Definition merge_opts (opts extra : Opts) : Opts :=
  {| o_version := o_version extra ∪ o_version opts;
     o_path := o_path extra ∪ o_path opts;
     o_force := o_force extra ∪ o_force opts;
     o_transport := o_transport extra ∪ o_transport opts;
     o_metadata := o_metadata extra ∪ o_metadata opts;
     o_remove_ns := o_remove_ns extra ∪ o_remove_ns opts;
     o_resolve := o_resolve extra ∪ o_resolve opts;
     o_download_only := o_download_only extra ∪ o_download_only opts |}.

Definition opts_empty (o : Opts) : bool :=
  match o_version o, o_path o, o_force o, o_transport o, o_metadata o,
        o_remove_ns o, o_resolve o, o_download_only o with
  | None, None, None, None, None, None, None, None => true
  | _, _, _, _, _, _, _, _ => false
  end.

(** What the resolver returns: [{"executable": ..., "options": ...}] *)
Record Resolved := {
  executable : string;
  options : option Opts
}.

(** The pod spec given to [load_pod]: a string or a sequence of strings. *)
Inductive Spec :=
| SpecStr (s : string)
| SpecList (l : list string).

Fixpoint str_contains (c : ascii) (s : string) : bool :=
  match s with
  | EmptyString => false
  | String c' s' => Ascii.eqb c' c || str_contains c s'
  end.

(** The resolver ([resolver.resolve], [None]: nothing resolved), the
    process launcher ([subprocess.Popen] on the argv and the transport mode;
    [None]: the launch fails), and the builtins [str.strip] and [int]. *)
Variable resolve : string -> string -> bool -> option Resolved.
Variable popen : list string -> bool -> option (nat * Child).
Variable py_strip : string -> string.
Variable py_int : string -> option Z.

Definition resolve_pod (pod_spec : Spec) (opts : Opts) : M (list string * Opts) :=
  let version := o_version opts in
  let path := o_path opts in
  let force := default false (o_force opts) in
  let is_qualified_symbol :=
    match pod_spec with SpecStr s => str_contains "/" s | SpecList _ => false end in
  (if is_qualified_symbol
   then if negb (opt_truthy version) && negb (opt_truthy path)
        then raise (ValueError "Version or path must be provided")
        else if opt_truthy version && opt_truthy path
        then raise (ValueError "You must provide either version or path, not both")
        else mret tt
   else mret tt);;
  let resolved :=
    match pod_spec, version with
    | SpecStr s, Some v =>
        if is_qualified_symbol && str_truthy v then resolve s v force else None
    | _, _ => None
    end in
  let opts :=
    match resolved with
    | Some r =>
        match options r with
        | Some extra_opts => if opts_empty extra_opts then opts else merge_opts opts extra_opts
        | None => opts
        end
    | None => opts
    end in
  let final_pod_spec :=
    match resolved with
    | Some r => [executable r]
    | None =>
        match path with
        | Some pth => if str_truthy pth then [pth]
                      else match pod_spec with SpecStr s => [s] | SpecList l => l end
        | None => match pod_spec with SpecStr s => [s] | SpecList l => l end
        end
    end in
  mret (final_pod_spec, opts).

(** One pass of the loop of [read_port] on the port file as it is found
    ([None]: the file does not exist): the port, when the content parses. *)
Definition poll_port (file : option string) : option Z :=
  match file with
  | Some text =>
      let content := py_strip text in
      if endswith content newline || str_truthy content
      then py_int (py_strip content)
      else None
  | None => None
  end.

(** [read_port]: poll the port file, 10 ms apart, until its content parses
    as an integer; [k] counts the polls made so far.  Nothing else is
    consulted between two polls. *)
Fixpoint read_port (fuel : nat) (file_at : nat -> option string) (k : nat)
    : M (Z * nat) :=
  match fuel with
  | 0 => fun _ => OutOfFuel
  | S fuel' =>
      match poll_port (file_at k) with
      | Some port => mret (port, S k)
      | None => read_port fuel' file_at (S k)
      end
  end.

(** The connection loop of [run_pod]: retry while the connection is
    refused. *)
Fixpoint connect (fuel : nat) (accepts : nat -> bool) (k : nat) : M nat :=
  match fuel with
  | 0 => fun _ => OutOfFuel
  | S fuel' => if accepts k then mret (S k) else connect fuel' accepts (S k)
  end.

(** What [run_pod] returns; the two streams are those of the process (or
    of the socket) and start empty. *)
Record RunningPod := {
  rp_process : Process;
  rp_socket : option Z
}.

(** State of the child after [k] polls. *)
Definition status_after (c : Child) (k : nat) : ProcStatus :=
  match exits_after c with
  | Some n => if (n <=? k)%nat then Exited else Running
  | None => Running
  end.

Definition run_pod (fuel : nat) (pod_spec : list string) (opts : Opts) : M RunningPod :=
  let transport := o_transport opts in
  let is_socket := bool_decide (transport = Some "socket") in
  match popen pod_spec is_socket with
  | None => raise OSError
  | Some (pid, c) =>
      if is_socket
      then '(socket_port, k) ← read_port fuel (port_file_at c) 0;
           k' ← connect fuel (accepts_at c) 0;
           mret {| rp_process := {| pid := pid; status := status_after c (k + k');
                                    child := c |};
                   rp_socket := Some socket_port |}
      else mret {| rp_process := {| pid := pid; status := status_after c 0; child := c |};
                   rp_socket := None |}
  end.

(** ** The describe handshake and [load_pod] *)

(** [describe_pod]: write the describe request, read one reply ([None] at
    end of stream).  The result carries the request as written. *)
Definition describe_pod (running_pod : RunningPod) : M (Message * option Describe) :=
  msg_id ← next_id;
  let message :=
    {| m_op := "describe"; m_id := msg_id; m_var := None; m_args := None;
       m_ns := None |} in
  match status (rp_process running_pod) with
  | Running => mret (message, describe_reply (child (rp_process running_pod)))
  | _ => raise BrokenPipeError
  end.

Definition describe_to_ops (describe_reply : Describe) : gset string :=
  match d_ops describe_reply with
  | Some ops_keys => list_to_set ops_keys
  | None => ∅
  end.

(** [read_readers]; [resolve_fn(val)] is kept as the pair of the callable
    and its argument. *)
Definition read_readers (reply : Describe) (resolve_fn : Callback)
    : gmap string (Callback * string) :=
  match d_readers reply with
  | Some readers_dict =>
      foldl (fun result kv => <[bytes_to_string kv.1 := (resolve_fn, bytes_to_string kv.2)]> result)
            ∅ readers_dict
  | None => ∅
  end.

Record Metadata := {
  md_format : string;
  md_ops : gset string;
  md_readers : gmap string (Callback * string)
}.

Definition describe_to_metadata (describe_reply : Describe)
    (resolve_fn : option Callback) : Metadata :=
  let format_str :=
    match d_format describe_reply with
    | Some format_bytes =>
        if str_truthy format_bytes then bytes_to_string format_bytes else "edn"
    | None => "edn"
    end in
  let format_type := format_str in
  let ops := describe_to_ops describe_reply in
  let readers :=
    match resolve_fn with
    | Some f => if String.eqb format_type "edn" then read_readers describe_reply f else ∅
    | None => ∅
    end in
  {| md_format := format_type; md_ops := ops; md_readers := readers |}.

(** An empty describe dictionary is falsy. *)
Definition describe_truthy (d : Describe) : bool :=
  match d_format d, d_ops d, d_readers d, d_namespaces d with
  | None, None, None, None => false
  | _, _, _, _ => true
  end.

(** Allocate a pod object. *)
Definition alloc_pod (p : Pod) : M loc :=
  fun w => let l := fresh (dom (heap w)) in Ok l (with_heap (<[l := p]> (heap w)) w).

(** [load_pod]; the exit hook registered with [atexit] runs when the
    interpreter exits and is not part of the model. *)
Definition load_pod (fuel : nat) (pod_spec : Spec) (opts : Opts) : M loc :=
  resolved ← resolve_pod pod_spec opts;
  let final_pod_spec := resolved.1 in
  let final_opts := resolved.2 in
  let remove_ns := o_remove_ns final_opts in
  let resolve_fn := o_resolve final_opts in
  running_pod ← run_pod fuel final_pod_spec final_opts;
  let process := rp_process running_pod in
  described ←
    match o_metadata final_opts with
    | Some reply =>
        if describe_truthy reply then mret ([], Some reply)
        else r ← describe_pod running_pod; mret ([r.1], r.2)
    | None => r ← describe_pod running_pod; mret ([r.1], r.2)
    end;
  match described.2 with
  | None => raise AttributeError
  | Some reply =>
      let metadata := describe_to_metadata reply resolve_fn in
      let format_type := md_format metadata in
      let ops := md_ops metadata in
      let readers := md_readers metadata in
      let pod_namespaces_raw := default [] (d_namespaces reply) in
      let pod_id : option string :=
        match pod_namespaces_raw with
        | first_ns :: _ => get_string (Some (nd_name first_ns))
        | [] => None
        end in
      pod_id ← (match pod_id with
                | Some i => if str_truthy i then mret i else next_id
                | None => next_id
                end);
      pod ← alloc_pod
        {| process := process; pod_spec := final_pod_spec; stdin := described.1;
           stdout := []; chans := ∅; format := format_type; ops := ops;
           out := SysStdout; err := SysStderr; remove_ns := remove_ns;
           readers := readers; pod_id := pod_id; namespaces := None;
           processor_thread := None |};
      let pod_namespaces := bencode_to_namespace pod <$> pod_namespaces_raw in
      update_pod pod (with_namespaces (Some pod_namespaces));;
      update_pod pod (with_processor_thread (Some TRunning));;
      modify (fun w => with_pods (<[pod_id := pod]> (pods w)) w);;
      expose_non_deferred_namespaces pod;;
      mret pod
  end.

(** ** Loading a deferred namespace *)

Definition load_ns_impl (pod : loc) (namespace : string) : M Result :=
  msg_id ← next_id;
  update_pod pod (fun p => with_chans (<[msg_id := WFuture Pending]> (chans p)) p);;
  write_message pod
    {| m_op := "load-ns"; m_id := msg_id; m_var := None; m_args := None;
       m_ns := Some namespace |};;
  chan_result pod msg_id.

(** [namespace.update(result)] for the dictionary the processor builds
    from a load-ns reply: it has the keys ["name"] and ["vars"]. *)
Definition ns_update (namespace result : Namespace) : Namespace :=
  {| ns_name := ns_name result; ns_vars := ns_vars result;
     ns_defer := ns_defer namespace |}.

(** Whether a decoded payload is a dictionary with a ["vars"] key. *)
Definition payload_has_vars (v : PyVal) : bool :=
  match v with
  | PDict d => bool_decide (is_Some (odict_get "vars" d))
  | _ => false
  end.

(** The test of the loop of [load_ns] on one namespace. *)
Definition ns_to_load (w : World) (pod_id namespace_name : string)
    (namespace : Namespace) : bool :=
  String.eqb (ns_name namespace) namespace_name
  && ns_get_defer namespace
  && negb (bool_decide (is_Some (loaded_namespaces w !! pod_id ≫= fun t => t !! namespace_name))).

(** The loop of [load_ns] over [pod["namespaces"]], from index [i]: the
    first namespace that passes the test is updated in place and exposed.
    A payload result that is a dictionary with a ["vars"] key would store
    payload values in the namespace; it lies outside the typed model, which
    raises there. *)
Fixpoint load_ns_loop (pod : loc) (pod_id namespace_name : string) (result : Result)
    (i : nat) (nss : list Namespace) : M unit :=
  match nss with
  | [] => mret tt
  | namespace :: rest =>
      w ← get_world;
      if ns_to_load w pod_id namespace_name namespace
      then match result with
           | RNs r =>
               let namespace := ns_update namespace r in
               update_pod pod (fun p =>
                 with_namespaces (Some (<[i := namespace]> (default [] (namespaces p)))) p);;
               expose_namespace_as_module pod namespace;;
               mret tt
           | RVal v =>
               if payload_has_vars v then raise AttributeError
               else expose_namespace_as_module pod namespace;; mret tt
           end
      else load_ns_loop pod pod_id namespace_name result (S i) rest
  end.

Definition load_ns (pod : loc) (namespace_name : string) : M Result :=
  result ← load_ns_impl pod namespace_name;
  p ← get_pod pod;
  let pod_id := pod_id p in
  match namespaces p with
  | Some nss => load_ns_loop pod pod_id namespace_name result 0 nss
  | None => raise (KeyError "namespaces")
  end;;
  mret result.

(** [invoke_public] *)
Definition invoke_public (pod_id_or_pod : PodRef) (fn_sym : string) (args : PyVal)
    (handlers : option (gmap string Callback)) : M (option Result) :=
  pod_id ← get_pod_id_from_spec pod_id_or_pod;
  pod ← lookup_pod pod_id;
  match pod with
  | Some l => invoke l fn_sym args handlers
  | None =>
      raise (ValueError (String.append "Pod "
                           (String.append (default "None" pod_id) " not found")))
  end.

(** ** Loading a namespace on demand *)

(** The search of [load_and_expose_namespace] for the first namespace with
    the name asked for that is deferred: its index in [pod["namespaces"]]
    (the namespace is a shared dictionary, found again under this index
    after [load_ns] has updated it in place). *)
Fixpoint find_deferred (namespace_name : string) (i : nat) (nss : list Namespace)
    : option nat :=
  match nss with
  | [] => None
  | namespace :: rest =>
      if String.eqb (ns_name namespace) namespace_name && ns_get_defer namespace
      then Some i
      else find_deferred namespace_name (S i) rest
  end.

(** Whether a decoded payload is a dictionary with a ["name"] key. *)
Definition payload_has_name (v : PyVal) : bool :=
  match v with
  | PDict d => bool_decide (is_Some (odict_get "name" d))
  | _ => false
  end.

(** [load_and_expose_namespace].  As in [load_ns], a payload result that
    is a dictionary with a ["name"] key would store payload values in the
    namespace; it lies outside the typed model, which raises there. *)
Definition load_and_expose_namespace (pod_id namespace_name : string) : M Namespace :=
  pod ← lookup_pod (Some pod_id);
  match pod with
  | None =>
      raise (ValueError (String.append "Pod " (String.append pod_id " not found")))
  | Some l =>
      w ← get_world;
      match loaded_namespaces w !! pod_id ≫= fun t => t !! namespace_name with
      | Some loaded => mret loaded
      | None =>
          p ← get_pod l;
          match namespaces p with
          | None => raise (KeyError "namespaces")
          | Some nss =>
              match find_deferred namespace_name 0 nss with
              | None =>
                  raise (ValueError
                           (String.append "Deferred namespace "
                              (String.append namespace_name
                                 (String.append " not found in pod " pod_id))))
              | Some i =>
                  result ← load_ns l namespace_name;
                  p' ← get_pod l;
                  match default [] (namespaces p') !! i with
                  | None => raise AttributeError
                  | Some deferred_namespace =>
                      match result with
                      | RNs r =>
                          let deferred_namespace := ns_update deferred_namespace r in
                          update_pod l (fun p =>
                            with_namespaces
                              (Some (<[i := deferred_namespace]> (default [] (namespaces p)))) p);;
                          expose_namespace_as_module l deferred_namespace;;
                          mret deferred_namespace
                      | RVal v =>
                          if payload_has_name v then raise AttributeError
                          else expose_namespace_as_module l deferred_namespace;;
                               mret deferred_namespace
                      end
                  end
              end
          end
      end
  end.


End Pods.

(** ** [edn.py]: plain values from parsed EDN *)

Module Edn.

(** The objects [transform_dict] meets: what the [edn_format] parser
    returns (immutable dictionaries and lists, symbols, keywords, and
    objects of other classes, some of them containers), and the plain
    dictionaries, lists and strings [transform_dict] builds. *)
Inductive obj :=
| ImmutableDict (items : list (obj * obj))
| ImmutableList (items : list obj)
| PyList (items : list obj)
| Symbol (name : string)
| Keyword (name : string)
| PyDict (items : list (obj * obj))
| PyStr (s : string)
| OtherContainer (class : string) (items : list obj)
| Atom (repr : string).

(** [transform_dict]; the [print(d)] at its head is diagnostic. *)
Fixpoint transform_dict (d : obj) : obj :=
  match d with
  | ImmutableDict items =>
      PyDict ((fix each (l : list (obj * obj)) : list (obj * obj) :=
                 match l with
                 | [] => []
                 | (k, v) :: l' => (k, transform_dict v) :: each l'
                 end) items)
  | ImmutableList items | PyList items =>
      PyList ((fix each (l : list obj) : list obj :=
                 match l with
                 | [] => []
                 | item :: l' => transform_dict item :: each l'
                 end) items)
  | Symbol name => PyStr name
  | Keyword name => PyStr name
  | _ => d
  end.

End Edn.

(** ** Notions used in the statements *)

(** The world a call leaves behind, when it ends or suspends. *)
Definition final_world {A} (r : Res A) : option World :=
  match r with
  | Ok _ w | Exn _ w | Blocked w => Some w
  | OutOfFuel => None
  end.

(** [after r P]: [r] is not a loop cut short, and [P] holds of the world
    it leaves behind. *)
Definition after {A} (r : Res A) (P : World -> Prop) : Prop :=
  match final_world r with Some w => P w | None => False end.

(** [preserves R m]: however [m] ends, the worlds before and after are
    related by [R]. *)
Definition preserves {A} (R : relation World) (m : M A) : Prop :=
  forall w, after (m w) (R w).

(** The events [forward] appends for one field. *)
Definition forwarded (sink : Sink) (msg : option string) : list Event :=
  match msg with
  | Some s => if str_truthy s then [EWrite sink s; EFlush sink] else []
  | None => []
  end.

(** A value envelope for [id]: the id and a value, no status. *)
Definition value_envelope (id v : string) : Reply :=
  {| r_id := Some id; r_value := Some v; r_status := None; r_ex_message := None;
     r_ex_data := None; r_vars := None; r_name := ""; r_out := None;
     r_err := None |}.

(** The done envelope for [id]: status [done], no value. *)
Definition done_envelope (id : string) : Reply :=
  {| r_id := Some id; r_value := None; r_status := Some ["done"];
     r_ex_message := None; r_ex_data := None; r_vars := None; r_name := "";
     r_out := None; r_err := None |}.

(** The final envelope of a call that returns: the id, a value and the
    status [done]. *)
Definition value_done_envelope (id v : string) : Reply :=
  {| r_id := Some id; r_value := Some v; r_status := Some ["done"];
     r_ex_message := None; r_ex_data := None; r_vars := None; r_name := "";
     r_out := None; r_err := None |}.

(** The request [invoke] writes. *)
Definition invoke_request (id pod_var encoded : string) : Message :=
  {| m_op := "invoke"; m_id := id; m_var := Some pod_var; m_args := Some encoded;
     m_ns := None |}.

(** The waiter [invoke] registers: the handlers when the caller gave a
    dictionary that is not empty, a new future otherwise. *)
Definition invoke_waiter (handlers : option (gmap string Callback)) : Waiter :=
  match handlers with
  | Some h => if bool_decide (h = ∅) then WFuture Pending else WHandlers h
  | None => WFuture Pending
  end.

(** The pod at [pod] is still there and its waiters under the ids that
    [touch] leaves out are as they were. *)
Definition waiters_kept (pod : loc) (touch : string -> Prop) (w w' : World) : Prop :=
  forall p, heap w !! pod = Some p ->
    exists p', heap w' !! pod = Some p'
               /\ forall j, ~ touch j -> chans p' !! j = chans p !! j.

(** Nothing has changed but the trace and, in the pod at [pod], the
    waiters, the unread envelopes and the state of the reader thread. *)
Definition reader_frame (pod : loc) (w w' : World) : Prop :=
  (forall l, l <> pod -> heap w' !! l = heap w !! l)
  /\ pods w' = pods w /\ sys_modules w' = sys_modules w
  /\ loaded_namespaces w' = loaded_namespaces w /\ drawn w' = drawn w
  /\ forall p, heap w !! pod = Some p ->
       exists p', heap w' !! pod = Some p'
                  /\ stdin p' = stdin p /\ process p' = process p
                  /\ namespaces p' = namespaces p /\ format p' = format p
                  /\ ops p' = ops p /\ pod_id p' = pod_id p.

(** The call of the handler under [key], when the dictionary has one. *)
Definition handler_call (h : gmap string Callback) (key : string)
    (args : list PyVal) : list Event :=
  match h !! key with Some f => [ECall f args] | None => [] end.

Definition trace_extends (w w' : World) : Prop :=
  exists rest, trace w' = trace w ++ rest.

(** A waiter changes in one way only: a pending future settles. *)
Definition waiter_le (a b : Waiter) : Prop :=
  a = b \/ (a = WFuture Pending /\ exists f, b = WFuture f).

Definition settled (a : Waiter) : Prop :=
  match a with WFuture f => future_done f = true | WHandlers _ => False end.

(** The registered ids are the same and each waiter has changed by
    [waiter_le] at most. *)
Definition chans_evolve (c c' : gmap string Waiter) : Prop :=
  forall i, option_Forall2 waiter_le (c !! i) (c' !! i).

Definition pods_evolve (w w' : World) : Prop :=
  forall l p, heap w !! l = Some p ->
    exists p', heap w' !! l = Some p' /\ chans_evolve (chans p) (chans p').

(** The worlds agree on everything but [sys.modules] and
    [loaded_namespaces]. *)
Definition same_but_modules (w w' : World) : Prop :=
  heap w' = heap w /\ pods w' = pods w /\ trace w' = trace w
  /\ uuid4 w' = uuid4 w /\ drawn w' = drawn w.

(** [sys.modules] and [loaded_namespaces] are as they were, and so are the
    id and the namespaces of every pod. *)
Definition modules_untouched (w w' : World) : Prop :=
  loaded_namespaces w' = loaded_namespaces w
  /\ sys_modules w' = sys_modules w
  /\ forall l p, heap w !! l = Some p ->
       exists p', heap w' !! l = Some p'
                  /\ namespaces p' = namespaces p /\ pod_id p' = pod_id p.


(** What the loop over the vars of a namespace leaves when no [setattr]
    raises: one iteration, and the module [expose_namespace_as_module]
    registers. *)
Definition bind_func (module : Module) (item : string * Var) : Module :=
  <[replace_char "-" "_" item.1 := var_object item.2]>
    (<[item.1 := var_object item.2]> module).

Definition namespace_module (pod_id : string) (namespace : Namespace) : Module :=
  foldl bind_func (new_module pod_id (ns_name namespace)) (ns_vars namespace).

(** The exception the loop over the vars raises: that of the first
    [setattr] that fails, on a var's name or on its snake-case alias. *)
Definition func_error (func_name : string) : option PyExc :=
  match setattr_error func_name with
  | Some e => Some e
  | None => setattr_error (replace_char "-" "_" func_name)
  end.

Fixpoint vars_error (items : list (string * Var)) : option PyExc :=
  match items with
  | [] => None
  | (func_name, _) :: rest =>
      match func_error func_name with
      | Some e => Some e
      | None => vars_error rest
      end
  end.

(** The course of [expose_non_deferred_namespaces] over a list of
    namespaces: the namespaces it has exposed, and the exception that
    stopped it, if any. *)
Fixpoint exposure (nss : list Namespace) : list Namespace * option PyExc :=
  match nss with
  | [] => ([], None)
  | namespace :: rest =>
      if ns_get_defer namespace then exposure rest
      else match vars_error (ns_vars namespace) with
           | Some e => ([], Some e)
           | None => (namespace :: (exposure rest).1, (exposure rest).2)
           end
  end.

(** The vars of a list that bind the attribute [x]: under their own name
    or under their snake-case alias. *)
Definition binds (x : string) (item : string * Var) : Prop :=
  x = item.1 \/ x = replace_char "-" "_" item.1.

#[global] Instance binds_dec x item : Decision (binds x item).
Proof. unfold binds. apply _. Defined.

(** The namespaces of a list that are not deferred, and [sys.modules]
    after a module has been registered for each namespace of a list in
    turn. *)
Definition non_deferred (nss : list Namespace) : list Namespace :=
  filter (fun ns => ns_get_defer ns = false) nss.

Definition register_modules (pod_id : string) (nss : list Namespace)
    (sm : gmap string Module) : gmap string Module :=
  foldl (fun sm ns =>
           <[namespace_to_module_name (ns_name ns) := namespace_module pod_id ns]> sm)
        sm nss.

(** ** Concrete instances used by the examples *)

Module Fixture.

(** A decimal reader standing for [int] and for the payload readers. *)
Definition digit (c : ascii) : option Z :=
  let n := nat_of_ascii c in
  if (48 <=? n)%nat && (n <=? 57)%nat then Some (Z.of_nat (n - 48)) else None.

Fixpoint digits (acc : Z) (s : string) : option Z :=
  match s with
  | EmptyString => Some acc
  | String c s' =>
      match digit c with
      | Some d => digits (10 * acc + d)%Z s'
      | None => None
      end
  end.

Definition int_of (s : string) : option Z :=
  match s with EmptyString => None | _ => digits 0 s end.

Definition loads (s : string) : option PyVal :=
  if String.eqb s "null" then Some PNone else PInt <$> int_of s.

Definition dumps (v : PyVal) : option string :=
  match v with
  | PList [PInt 5] => Some "[5]"
  | PNone => Some "null"
  | _ => None
  end.

Definition str (v : PyVal) : string := "args".

Definition strip (s : string) : string := s.

Definition no_resolver (name version : string) (force : bool) : option Resolved := None.

Definition uuid (n : nat) : string :=
  String.append "uuid-" (String (ascii_of_nat (48 + n)) EmptyString).

Definition value_done_reply (id v : string) : Reply :=
  {| r_id := Some id; r_value := Some v; r_status := Some ["done"];
     r_ex_message := None; r_ex_data := None; r_vars := None; r_name := "";
     r_out := None; r_err := None |}.

Definition var_desc (name : string) : VarDesc :=
  {| vd_name := name; vd_async := None; vd_code := None; vd_meta := None;
     vd_arg_meta := None |}.

(** The test pod: one namespace [pod.test-pod] with [add-one] and
    [deep-merge], and a deferred namespace [ns.k] served by load-ns. *)
Definition test_describe : Describe :=
  {| d_format := Some "json";
     d_ops := Some ["shutdown"; "load-ns"];
     d_readers := None;
     d_namespaces :=
       Some [ {| nd_name := "pod.test-pod";
                 nd_vars := Some [var_desc "add-one"; var_desc "deep-merge"];
                 nd_defer := None |};
              {| nd_name := "ns.k"; nd_vars := None; nd_defer := Some "true" |} ] |}.

Definition test_respond (m : Message) : list Reply :=
  if String.eqb (m_op m) "invoke" then [value_done_reply (m_id m) "6"]
  else if String.eqb (m_op m) "load-ns"
  then [ {| r_id := Some (m_id m); r_value := None; r_status := Some ["done"];
            r_ex_message := None; r_ex_data := None;
            r_vars := Some [var_desc "do-it"]; r_name := default "" (m_ns m);
            r_out := None; r_err := None |} ]
  else [].

Definition test_child : Child :=
  {| respond := test_respond; exits_on_shutdown := true;
     describe_reply := Some test_describe;
     port_file_at := fun k => if (k <? 2)%nat then None else Some "4711";
     accepts_at := fun k => (1 <=? k)%nat;
     exits_after := None |}.

Definition test_popen (argv : list string) (socket : bool) : option (nat * Child) :=
  Some (100, test_child).

Definition no_opts : Opts :=
  {| o_version := None; o_path := None; o_force := None; o_transport := None;
     o_metadata := None; o_remove_ns := None; o_resolve := None;
     o_download_only := None |}.

Definition socket_opts : Opts :=
  {| o_version := None; o_path := None; o_force := None;
     o_transport := Some "socket"; o_metadata := None; o_remove_ns := None;
     o_resolve := None; o_download_only := None |}.

Definition world0 : World :=
  {| heap := ∅; pods := ∅; loaded_namespaces := ∅; sys_modules := ∅;
     trace := []; uuid4 := uuid; drawn := 0 |}.

Definition test_spec : Spec := SpecList ["clojure"; "-M:test-pod"].

(** A loaded pod with the given waiters and unread envelopes. *)
Definition pod_with (c : gmap string Waiter) (unread : list Reply) : Pod :=
  {| process := {| pid := 100; status := Running; child := test_child |};
     pod_spec := ["clojure"; "-M:test-pod"]; stdin := []; stdout := unread;
     chans := c; format := "json"; ops := {["shutdown"]}; out := SysStdout;
     err := SysStderr; remove_ns := None; readers := ∅; pod_id := "pod.test-pod";
     namespaces := Some []; processor_thread := Some TRunning |}.

Definition world_with (c : gmap string Waiter) (unread : list Reply) : World :=
  {| heap := {[0 := pod_with c unread]}; pods := {["pod.test-pod" := 0]};
     loaded_namespaces := ∅; sys_modules := ∅; trace := []; uuid4 := uuid;
     drawn := 0 |}.

(** An envelope for an id nobody waits on, with output attached. *)
Definition stray_reply : Reply :=
  {| r_id := Some "nobody"; r_value := None; r_status := Some ["done"];
     r_ex_message := None; r_ex_data := None; r_vars := None; r_name := "";
     r_out := Some "hello"; r_err := Some "oops" |}.

(** An envelope whose status is [error] and that carries no message. *)
Definition error_reply (id : string) : Reply :=
  {| r_id := Some id; r_value := None; r_status := Some ["error"];
     r_ex_message := None; r_ex_data := None; r_vars := None; r_name := "";
     r_out := None; r_err := None |}.

(** A pod whose first namespace has the empty name. *)
Definition nameless_describe : Describe :=
  {| d_format := Some "json"; d_ops := Some ["shutdown"]; d_readers := None;
     d_namespaces :=
       Some [ {| nd_name := ""; nd_vars := Some [var_desc "f"]; nd_defer := None |} ] |}.

Definition nameless_popen (argv : list string) (socket : bool) : option (nat * Child) :=
  Some (101,
        {| respond := fun _ => []; exits_on_shutdown := true;
           describe_reply := Some nameless_describe;
           port_file_at := fun _ => None; accepts_at := fun _ => false;
           exits_after := None |}).

(** A pod with one namespace in which two vars, [a-b] and [a_b], have
    the same snake-case form. *)
Definition clash_describe : Describe :=
  {| d_format := Some "json"; d_ops := Some ["shutdown"]; d_readers := None;
     d_namespaces :=
       Some [ {| nd_name := "n"; nd_vars := Some [var_desc "a-b"; var_desc "a_b"];
                 nd_defer := None |} ] |}.


(** A child that exits at once and never writes its port file. *)
Definition dead_child : Child :=
  {| respond := fun _ => []; exits_on_shutdown := false; describe_reply := None;
     port_file_at := fun _ => None; accepts_at := fun _ => false;
     exits_after := Some 0 |}.

Definition dead_popen (argv : list string) (socket : bool) : option (nat * Child) :=
  Some (102, dead_child).

(** The world after [load_pod] on the test pod, and after it on the
    nameless pod. *)
Definition loaded_world (popen : list string -> bool -> option (nat * Child)) : World :=
  match load_pod no_resolver popen strip int_of 10 test_spec no_opts world0 with
  | Ok _ w => w
  | _ => world0
  end.

Definition handlers3 : gmap string Callback :=
  {["success" := 1; "error" := 2; "done" := 3]}.

(** The pod object of the loaded test pod and its namespaces. *)
Definition loaded_pod : Pod :=
  default (pod_with ∅ []) (heap (loaded_world test_popen) !! 0).

Definition loaded_nss : list Namespace := default [] (namespaces loaded_pod).

(** A loaded pod whose child answers every request with an error
    envelope. *)
Definition failing_child : Child :=
  {| respond := fun m => [error_reply (m_id m)]; exits_on_shutdown := true;
     describe_reply := Some test_describe; port_file_at := fun _ => None;
     accepts_at := fun _ => false; exits_after := None |}.

Definition failing_pod : Pod :=
  with_process {| pid := 104; status := Running; child := failing_child |}
               (pod_with ∅ []).

Definition world_of (p : Pod) : World :=
  {| heap := {[0 := p]}; pods := {["pod.test-pod" := 0]};
     loaded_namespaces := ∅; sys_modules := ∅; trace := []; uuid4 := uuid;
     drawn := 0 |}.

(** A loaded pod whose reader thread has ended. *)
Definition ended_pod : Pod := with_processor_thread (Some TFinished) (pod_with ∅ []).

(** A loaded pod with a [remove_ns] hook and two namespaces. *)
Definition plain_ns (name : string) : Namespace :=
  {| ns_name := name; ns_vars := []; ns_defer := None |}.

Definition hooked_pod : Pod :=
  {| process := {| pid := 100; status := Running; child := test_child |};
     pod_spec := ["clojure"; "-M:test-pod"]; stdin := []; stdout := [];
     chans := ∅; format := "json"; ops := {["shutdown"]}; out := SysStdout;
     err := SysStderr; remove_ns := Some 7; readers := ∅; pod_id := "pod.test-pod";
     namespaces := Some [plain_ns "pod.test-pod"; plain_ns "pod.extra"];
     processor_thread := Some TRunning |}.

(** Options that pass a describe reply as [metadata], and the world after
    [load_pod] on the test pod with them. *)
Definition metadata_opts : Opts :=
  {| o_version := None; o_path := None; o_force := None; o_transport := None;
     o_metadata := Some clash_describe; o_remove_ns := None; o_resolve := None;
     o_download_only := None |}.

Definition metadata_world : World :=
  match load_pod no_resolver test_popen strip int_of 10 test_spec metadata_opts world0 with
  | Ok _ w => w
  | _ => world0
  end.



(** A pod one of whose vars is named [__dict__]. *)
Definition dunder_describe : Describe :=
  {| d_format := Some "json"; d_ops := Some ["shutdown"]; d_readers := None;
     d_namespaces :=
       Some [ {| nd_name := "first"; nd_vars := Some [var_desc "f"]; nd_defer := None |};
              {| nd_name := "second"; nd_vars := Some [var_desc "g"; var_desc "__dict__"];
                 nd_defer := None |} ] |}.

Definition dunder_popen (argv : list string) (socket : bool) : option (nat * Child) :=
  Some (105,
        {| respond := fun _ => []; exits_on_shutdown := true;
           describe_reply := Some dunder_describe;
           port_file_at := fun _ => None; accepts_at := fun _ => false;
           exits_after := None |}).

(** The world a failed [load_pod] leaves. *)
Definition failed_world (popen : list string -> bool -> option (nat * Child)) : World :=
  match load_pod no_resolver popen strip int_of 10 test_spec no_opts world0 with
  | Exn _ w => w
  | _ => world0
  end.

(** The world after a namespace has been exposed for the test pod. *)
Definition exposed_world : World :=
  match expose_namespace_as_module 0 (plain_ns "ns.a") (world_with ∅ []) with
  | Ok _ w => w
  | _ => world0
  end.

End Fixture.

(** * Properties *)

Section Properties.

Variable from_edn : string -> option PyVal.
Variable json_loads : string -> option PyVal.
Variable to_edn : PyVal -> option string.
Variable json_dumps : PyVal -> option string.
Variable py_str : PyVal -> string.
Variable resolve : string -> string -> bool -> option Resolved.
Variable popen : list string -> bool -> option (nat * Child).
Variable py_strip : string -> string.
Variable py_int : string -> option Z.

(** ** The monad *)

Lemma bind_unfold {A B} (m : M A) (k : A -> M B) w :
  (m ≫= k) w = match m w with
               | Ok a w' => k a w'
               | Exn e w' => Exn e w'
               | Blocked w' => Blocked w'
               | OutOfFuel => OutOfFuel
               end.
Proof. reflexivity. Qed.

Lemma bind_Ok_inv {A B} (m : M A) (k : A -> M B) w b w' :
  (m ≫= k) w = Ok b w' -> exists a w1, m w = Ok a w1 /\ k a w1 = Ok b w'.
Proof. rewrite bind_unfold. destruct (m w); try discriminate. eauto. Qed.

Lemma get_pod_Some l p w : heap w !! l = Some p -> get_pod l w = Ok p w.
Proof. intros H. unfold get_pod. by rewrite H. Qed.

Lemma world_eta w : with_trace (trace w) w = w.
Proof. by destruct w. Qed.

Lemma preserves_ret {A} R `{!Reflexive R} (a : A) : preserves R (mret a).
Proof. intros w. unfold after. simpl. reflexivity. Qed.

Lemma preserves_raise {A} R `{!Reflexive R} e : preserves R (@raise A e).
Proof. intros w. unfold after. simpl. reflexivity. Qed.

Lemma preserves_bind {A B} R `{!Transitive R} (m : M A) (k : A -> M B) :
  preserves R m -> (forall a, preserves R (k a)) -> preserves R (m ≫= k).
Proof.
  intros Hm Hk w. rewrite bind_unfold. specialize (Hm w).
  destruct (m w) as [a w1|e w1|w1|]; try exact Hm.
  specialize (Hk a w1). unfold after in *. simpl in Hm.
  destruct (final_world (k a w1)); [|done]. by etrans.
Qed.

Lemma preserves_try_except {A} R `{!Transitive R} (m : M A) h :
  preserves R m -> (forall e, preserves R (h e)) -> preserves R (try_except m h).
Proof.
  intros Hm Hh w. unfold try_except. specialize (Hm w).
  destruct (m w) as [a w1|e w1|w1|]; try exact Hm.
  specialize (Hh e w1). unfold after in *. simpl in Hm.
  destruct (final_world (h e w1)); [|done]. by etrans.
Qed.

Lemma preserves_get_pod R `{!Reflexive R} l : preserves R (get_pod l).
Proof.
  intros w. unfold get_pod, after. destruct (heap w !! l); simpl; reflexivity.
Qed.

#[local] Instance trace_extends_refl : Reflexive trace_extends.
Proof. intros w. exists []. by rewrite app_nil_r. Qed.

#[local] Instance trace_extends_trans : Transitive trace_extends.
Proof.
  intros w1 w2 w3 [r1 H1] [r2 H2]. exists (r1 ++ r2).
  by rewrite H2, H1, app_assoc.
Qed.

#[local] Instance waiter_le_refl : Reflexive waiter_le.
Proof. intros a. by left. Qed.

#[local] Instance waiter_le_trans : Transitive waiter_le.
Proof.
  intros a b c [Hab|[Ha [f Hb]]] [Hbc|[Hb' [g Hc]]]; subst; unfold waiter_le; eauto.
Qed.

#[local] Instance chans_evolve_refl : Reflexive chans_evolve.
Proof. intros c i. destruct (c !! i); constructor. reflexivity. Qed.

#[local] Instance chans_evolve_trans : Transitive chans_evolve.
Proof.
  intros c1 c2 c3 H1 H2 i. specialize (H1 i). specialize (H2 i).
  destruct H1; inversion H2; subst; constructor. by etrans.
Qed.

#[local] Instance pods_evolve_refl : Reflexive pods_evolve.
Proof. intros w l p H. exists p. split; [done|reflexivity]. Qed.

#[local] Instance pods_evolve_trans : Transitive pods_evolve.
Proof.
  intros w1 w2 w3 H1 H2 l p Hp.
  destruct (H1 l p Hp) as (p2 & Hp2 & E1).
  destruct (H2 l p2 Hp2) as (p3 & Hp3 & E2).
  exists p3. split; [done|by etrans].
Qed.

(** ** What the processor can change *)

Lemma pods_evolve_heap w w' : heap w' = heap w -> pods_evolve w w'.
Proof. intros E l p H. exists p. rewrite E. split; [done|reflexivity]. Qed.

Lemma trace_extends_trace w w' : trace w' = trace w -> trace_extends w w'.
Proof. intros E. exists []. by rewrite app_nil_r. Qed.

Lemma emit_evolve e : preserves pods_evolve (emit e).
Proof. intros w. by apply pods_evolve_heap. Qed.

Lemma emit_extends e : preserves trace_extends (emit e).
Proof. intros w. by exists [e]. Qed.

Lemma update_pod_extends l f : preserves trace_extends (update_pod l f).
Proof. intros w. by apply trace_extends_trace. Qed.

Lemma update_pod_evolve l f :
  (forall p, chans (f p) = chans p) -> preserves pods_evolve (update_pod l f).
Proof.
  intros Hf w l' p Hp. unfold update_pod, modify. simpl.
  destruct (decide (l = l')) as [->|Hne].
  - exists (f p). rewrite lookup_alter_eq, Hp. simpl. split; [done|].
    rewrite Hf. reflexivity.
  - exists p. rewrite lookup_alter_ne by done. split; [done|reflexivity].
Qed.

Lemma forward_evolve sink msg : preserves pods_evolve (forward sink msg).
Proof.
  intros w. unfold forward. destruct msg as [s|]; [|by apply pods_evolve_heap].
  destruct (str_truthy s); by apply pods_evolve_heap.
Qed.

Lemma forward_spec sink msg w :
  forward sink msg w = Ok tt (with_trace (trace w ++ forwarded sink msg) w).
Proof.
  unfold forward, forwarded. destruct msg as [s|].
  - destruct (str_truthy s).
    + unfold emit, modify. rewrite bind_unfold. simpl. by rewrite <- app_assoc.
    + by rewrite app_nil_r, world_eta.
  - by rewrite app_nil_r, world_eta.
Qed.

Lemma call_handler_evolve h key args : preserves pods_evolve (call_handler h key args).
Proof.
  intros w. unfold call_handler. destruct (h !! key); by apply pods_evolve_heap.
Qed.

Lemma call_handler_extends h key args :
  preserves trace_extends (call_handler h key args).
Proof.
  intros w. unfold call_handler. destruct (h !! key); [apply emit_extends|].
  unfold after; simpl; reflexivity.
Qed.

Lemma settle_extends pod i o : preserves trace_extends (settle pod i o).
Proof.
  intros w. unfold settle. rewrite bind_unfold. unfold get_pod.
  destruct (heap w !! pod) as [p|]; [|unfold after; simpl; reflexivity].
  destruct (chans p !! i) as [[[]|]|]; try (unfold after; simpl; reflexivity).
  apply update_pod_extends.
Qed.

Lemma settle_evolve pod i o : preserves pods_evolve (settle pod i o).
Proof.
  intros w. unfold settle. rewrite bind_unfold. unfold get_pod.
  destruct (heap w !! pod) as [p|] eqn:Hp; [|unfold after; simpl; reflexivity].
  destruct (chans p !! i) as [[[]|]|] eqn:Hc; try (unfold after; simpl; reflexivity).
  unfold after, update_pod, modify. simpl. intros l q Hq. simpl.
  destruct (decide (pod = l)) as [<-|Hne].
  - rewrite lookup_alter_eq, Hq. simpl. eexists. split; [done|]. simpl.
    assert (q = p) as -> by congruence.
    intros j. destruct (decide (i = j)) as [<-|Hj].
    + rewrite lookup_insert_eq, Hc. constructor. right. eauto.
    + rewrite lookup_insert_ne by done. destruct (chans p !! j); constructor. reflexivity.
  - rewrite lookup_alter_ne by done. exists q. split; [done|reflexivity].
Qed.

Lemma handle_response_evolve pod fmt reply i chan :
  preserves pods_evolve (handle_response from_edn json_loads pod fmt reply i chan).
Proof.
  unfold handle_response. cbv zeta.
  destruct (_ || _ || _); [|apply preserves_ret; apply _].
  destruct chan as [f|h].
  - destruct (reply_error _ _ _ _); [apply settle_evolve|].
    destruct (decode_value _ _ _ _).1; try apply settle_evolve.
    destruct (reply_namespace _ _); [apply settle_evolve|].
    apply preserves_ret; apply _.
  - destruct (negb _); apply call_handler_evolve.
Qed.

Lemma handle_response_extends pod fmt reply i chan :
  preserves trace_extends (handle_response from_edn json_loads pod fmt reply i chan).
Proof.
  unfold handle_response. cbv zeta.
  destruct (_ || _ || _); [|apply preserves_ret; apply _].
  destruct chan as [f|h].
  - destruct (reply_error _ _ _ _); [apply settle_extends|].
    destruct (decode_value _ _ _ _).1; try apply settle_extends.
    destruct (reply_namespace _ _); [apply settle_extends|].
    apply preserves_ret; apply _.
  - destruct (negb _); apply call_handler_extends.
Qed.

Lemma handle_done_evolve pod fmt reply i chan :
  preserves pods_evolve (handle_done from_edn json_loads pod fmt reply i chan).
Proof.
  unfold handle_done.
  destruct (_ && _); [|apply preserves_ret; apply _].
  destruct chan as [f|h]; [|apply call_handler_evolve].
  apply preserves_bind; [apply _|apply preserves_get_pod; apply _|].
  intros p. destruct (chans p !! i) as [[f'|]|]; try (apply preserves_ret; apply _).
  destruct (negb _); [apply settle_evolve|apply preserves_ret; apply _].
Qed.

Lemma handle_done_extends pod fmt reply i chan :
  preserves trace_extends (handle_done from_edn json_loads pod fmt reply i chan).
Proof.
  unfold handle_done.
  destruct (_ && _); [|apply preserves_ret; apply _].
  destruct chan as [f|h]; [|apply call_handler_extends].
  apply preserves_bind; [apply _|apply preserves_get_pod; apply _|].
  intros p. destruct (chans p !! i) as [[f'|]|]; try (apply preserves_ret; apply _).
  destruct (negb _); [apply settle_extends|apply preserves_ret; apply _].
Qed.

Lemma processor_body_evolve pod reply :
  preserves pods_evolve (processor_body from_edn json_loads pod reply).
Proof.
  unfold processor_body.
  apply preserves_bind; [apply _|apply preserves_get_pod; apply _|].
  intros p. destruct (reply_chan p reply) as [[i chan]|]; [|apply preserves_ret; apply _].
  repeat (apply preserves_bind; [apply _| |intros _]).
  - apply forward_evolve.
  - apply forward_evolve.
  - apply handle_response_evolve.
  - apply handle_done_evolve.
Qed.

Lemma processor_loop_evolve pod input :
  preserves pods_evolve (processor_loop from_edn json_loads pod input).
Proof.
  induction input as [|reply rest IH]; simpl; [apply preserves_ret; apply _|].
  repeat (apply preserves_bind; [apply _| |intros _]).
  - by apply update_pod_evolve.
  - apply processor_body_evolve.
  - apply IH.
Qed.

Lemma finish_thread_evolve pod : preserves pods_evolve (finish_thread pod).
Proof. by apply update_pod_evolve. Qed.

Lemma processor_evolve pod : preserves pods_evolve (processor from_edn json_loads pod).
Proof.
  unfold processor.
  apply preserves_bind; [apply _|apply preserves_get_pod; apply _|].
  intros p. destruct (processor_thread p) as [[]|]; try (apply preserves_ret; apply _).
  apply preserves_try_except; [apply _| |intros _; apply finish_thread_evolve].
  apply preserves_bind; [apply _|apply processor_loop_evolve|intros _].
  apply preserves_bind; [apply _|apply preserves_get_pod; apply _|].
  intros p'. destruct (status (process p')); try apply finish_thread_evolve.
  apply preserves_ret; apply _.
Qed.

(** ** Envelopes without a waiter *)

Lemma reply_chan_None p reply :
  r_id reply = None \/ (exists i, r_id reply = Some i /\ chans p !! i = None) ->
  reply_chan p reply = None.
Proof.
  unfold reply_chan, get_string, bytes_to_string.
  intros [->|(i & -> & Hi)]; simpl; [done|]. by rewrite Hi.
Qed.

Lemma reply_chan_Some p reply i chan :
  r_id reply = Some i -> chans p !! i = Some chan ->
  reply_chan p reply = Some (i, chan).
Proof.
  unfold reply_chan, get_string, bytes_to_string. intros -> Hi. simpl. by rewrite Hi.
Qed.

Lemma processor_body_served pod p reply i chan w :
  heap w !! pod = Some p ->
  reply_chan p reply = Some (i, chan) ->
  processor_body from_edn json_loads pod reply w =
    (handle_response from_edn json_loads pod (format p) reply i chan;;
     handle_done from_edn json_loads pod (format p) reply i chan)
      (with_trace (trace w ++ forwarded (out p) (r_out reply)
                     ++ forwarded (err p) (r_err reply)) w).
Proof.
  intros Hp Hc. unfold processor_body.
  rewrite bind_unfold, (get_pod_Some _ _ _ Hp), Hc.
  rewrite bind_unfold, forward_spec. rewrite bind_unfold, forward_spec.
  simpl. unfold get_maybe_string, bytes_to_string.
  replace (match r_out reply with Some x => Some x | None => None end)
    with (r_out reply) by by destruct (r_out reply).
  replace (match r_err reply with Some x => Some x | None => None end)
    with (r_err reply) by by destruct (r_err reply).
  by rewrite <- app_assoc.
Qed.

(** C4, as amended: an envelope whose id is absent or not registered in
    [chans] is dropped whole -- the world, trace included, is unchanged, so
    nothing is delivered and neither [out] nor [err] is forwarded; when the
    id is registered, the [out] and [err] strings are forwarded first, each
    write followed by a flush, before the waiter is served. *)
Theorem unregistered_envelope_dropped_whole pod p reply w :
  heap w !! pod = Some p ->
  (r_id reply = None \/ (exists i, r_id reply = Some i /\ chans p !! i = None) ->
   processor_body from_edn json_loads pod reply w = Ok tt w)
  /\ (forall i chan, r_id reply = Some i -> chans p !! i = Some chan ->
      exists w' rest,
        final_world (processor_body from_edn json_loads pod reply w) = Some w'
        /\ trace w' = trace w ++ forwarded (out p) (r_out reply)
                         ++ forwarded (err p) (r_err reply) ++ rest).
Proof.
  intros Hp. split.
  - intros H. unfold processor_body.
    by rewrite bind_unfold, (get_pod_Some _ _ _ Hp), (reply_chan_None _ _ H).
  - intros i chan Hi Hc.
    rewrite (processor_body_served _ _ _ _ _ _ Hp (reply_chan_Some _ _ _ _ Hi Hc)).
    set (w1 := with_trace _ w).
    assert (preserves trace_extends
              (handle_response from_edn json_loads pod (format p) reply i chan;;
               handle_done from_edn json_loads pod (format p) reply i chan)) as H.
    { apply preserves_bind; [apply _|apply handle_response_extends|].
      intros _. apply handle_done_extends. }
    specialize (H w1). unfold after in H.
    destruct (final_world _) as [w'|] eqn:E; [|done].
    destruct H as [rest Hrest]. exists w', rest. split; [done|].
    rewrite Hrest. unfold w1. simpl. by rewrite <- !app_assoc.
Qed.

(** ** Futures settle once and stay registered *)

Lemma settle_pending pod p i o w :
  heap w !! pod = Some p ->
  chans p !! i = Some (WFuture Pending) ->
  settle pod i o w =
    Ok tt (with_heap (<[pod := with_chans (<[i := WFuture o]> (chans p)) p]> (heap w)) w).
Proof.
  intros Hp Hc. unfold settle. rewrite bind_unfold, (get_pod_Some _ _ _ Hp), Hc.
  unfold update_pod, modify. do 2 f_equal.
  apply map_eq. intros l. destruct (decide (pod = l)) as [<-|Hne].
  - by rewrite lookup_alter_eq, lookup_insert_eq, Hp.
  - by rewrite lookup_alter_ne, lookup_insert_ne.
Qed.

Lemma settle_settled pod p i f o w :
  heap w !! pod = Some p ->
  chans p !! i = Some (WFuture f) ->
  future_done f = true ->
  settle pod i o w = Exn InvalidStateError w.
Proof.
  intros Hp Hc Hf. unfold settle. rewrite bind_unfold, (get_pod_Some _ _ _ Hp), Hc.
  by destruct f.
Qed.

(** The two steps that serve a waiter settle a pending future when the
    reply is terminal. *)
Lemma serve_terminal pod p i reply w :
  heap w !! pod = Some p ->
  chans p !! i = Some (WFuture Pending) ->
  reply_done from_edn json_loads (format p) reply = true ->
  exists f,
    future_done f = true /\
    (handle_response from_edn json_loads pod (format p) reply i (WFuture Pending);;
     handle_done from_edn json_loads pod (format p) reply i (WFuture Pending)) w =
    Ok tt (with_heap (<[pod := with_chans (<[i := WFuture f]> (chans p)) p]> (heap w)) w).
Proof.
  intros Hp Hc Hd.
  set (w2 := fun f =>
         with_heap (<[pod := with_chans (<[i := WFuture f]> (chans p)) p]> (heap w)) w).
  assert (forall f, heap (w2 f) !! pod
                    = Some (with_chans (<[i := WFuture f]> (chans p)) p)) as Hw2.
  { intros f. unfold w2. simpl. by rewrite lookup_insert_eq. }
  assert (forall f, future_done f = true ->
            handle_done from_edn json_loads pod (format p) reply i (WFuture Pending) (w2 f)
            = Ok tt (w2 f)) as Hdone2.
  { intros f Hf. unfold handle_done. destruct (_ && _); [|done].
    rewrite bind_unfold, (get_pod_Some _ _ _ (Hw2 f)). simpl.
    rewrite lookup_insert_eq. by rewrite Hf. }
  assert (reply_error from_edn json_loads (format p) reply = false ->
          handle_done from_edn json_loads pod (format p) reply i (WFuture Pending) w
          = Ok tt (w2 (Finished (RVal PNone)))) as Hdone1.
  { intros He. unfold handle_done. rewrite Hd, He. simpl.
    rewrite bind_unfold, (get_pod_Some _ _ _ Hp), Hc. simpl.
    unfold set_result. by rewrite (settle_pending _ _ _ _ _ Hp Hc). }
  rewrite bind_unfold. unfold handle_response. cbv zeta.
  destruct (reply_error from_edn json_loads (format p) reply) eqn:He.
  - rewrite orb_true_r. simpl. unfold set_exception.
    rewrite (settle_pending _ _ _ _ _ Hp Hc).
    eexists. split; [|by apply Hdone2]. done.
  - rewrite orb_false_r.
    destruct (bool_decide _ || bool_decide _) eqn:Hany.
    + destruct (decode_value from_edn json_loads (format p) (r_value reply)).1 eqn:Hv;
        [destruct (reply_namespace pod reply) eqn:Hn|..];
        try (unfold set_result; rewrite (settle_pending _ _ _ _ _ Hp Hc);
             eexists; split; [|by apply Hdone2]; done).
      simpl. eexists. split; [|by apply Hdone1]. done.
    + simpl. eexists. split; [|by apply Hdone1]. done.
Qed.

Lemma settled_stays w w' pod p i f :
  pods_evolve w w' ->
  heap w !! pod = Some p ->
  chans p !! i = Some (WFuture f) ->
  future_done f = true ->
  exists p', heap w' !! pod = Some p' /\ chans p' !! i = Some (WFuture f).
Proof.
  intros Hev Hp Hc Hf. destruct (Hev _ _ Hp) as (p' & Hp' & Hch).
  exists p'. split; [done|]. specialize (Hch i). rewrite Hc in Hch.
  inversion Hch as [a b Hle Ha Hb|]; subst.
  destruct Hle as [<-|[E _]]; [done|]. inversion E; subst. done.
Qed.

(** C1, as amended: when the processor reads the terminal reply (status
    done or error, or a value that does not decode) for the id of a future
    that is still pending, the future settles there, with a value or an
    error; whatever envelopes follow, that outcome is never replaced and
    the id is never removed from [chans]: it stays registered with the
    settled future. *)
Theorem terminal_reply_settles_and_id_stays pod p i reply w :
  heap w !! pod = Some p ->
  r_id reply = Some i ->
  chans p !! i = Some (WFuture Pending) ->
  reply_done from_edn json_loads (format p) reply = true ->
  exists w' p' f,
    processor_body from_edn json_loads pod reply w = Ok tt w'
    /\ heap w' !! pod = Some p'
    /\ chans p' !! i = Some (WFuture f)
    /\ future_done f = true
    /\ forall input,
         after (processor_loop from_edn json_loads pod input w')
               (fun w'' => exists p'', heap w'' !! pod = Some p''
                                       /\ chans p'' !! i = Some (WFuture f)).
Proof.
  intros Hp Hi Hc Hd.
  rewrite (processor_body_served _ _ _ _ _ _ Hp (reply_chan_Some _ _ _ _ Hi Hc)).
  set (w1 := with_trace _ w).
  destruct (serve_terminal pod p i reply w1 Hp Hc Hd) as (f & Hf & E).
  rewrite E. eexists _, _, f. split; [done|].
  split; [simpl; by rewrite lookup_insert_eq|].
  split; [simpl; by rewrite lookup_insert_eq|].
  split; [done|].
  intros input. pose proof (processor_loop_evolve pod input) as Hev.
  specialize (Hev (with_heap (<[pod:=with_chans (<[i:=WFuture f]> (chans p)) p]> (heap w1)) w1)).
  unfold after in *. destruct (final_world _) as [w''|]; [|done].
  eapply settled_stays; [exact Hev| | |exact Hf].
  - simpl. by rewrite lookup_insert_eq.
  - simpl. by rewrite lookup_insert_eq.
Qed.

(** ** Callback waiters *)

Lemma call_handler_spec h key args w :
  call_handler h key args w = Ok tt (with_trace (trace w ++ handler_call h key args) w).
Proof.
  unfold call_handler, handler_call. destruct (h !! key); [done|].
  by rewrite app_nil_r, world_eta.
Qed.

(** A value envelope that decodes, for a callback waiter: one call of the
    success handler with the decoded value. *)
Lemma value_envelope_calls_success pod p i h s v w :
  heap w !! pod = Some p ->
  chans p !! i = Some (WHandlers h) ->
  read_fn from_edn json_loads (format p) s = Some v ->
  processor_body from_edn json_loads pod (value_envelope i s) w =
    Ok tt (with_trace (trace w ++ handler_call h "success" [v]) w).
Proof.
  intros Hp Hc Hr.
  rewrite (processor_body_served _ _ _ _ _ _ Hp
             (reply_chan_Some _ (value_envelope i s) _ _ eq_refl Hc)).
  simpl. rewrite app_nil_r. rewrite bind_unfold.
  unfold handle_response, handle_done, reply_done, reply_error, reply_status,
    decode_value, bytes_to_string. simpl. rewrite Hr. simpl.
  rewrite call_handler_spec. simpl. by rewrite world_eta.
Qed.

(** The done envelope, for a callback waiter: one call of the done
    handler. *)
Lemma done_envelope_calls_done pod p i h w :
  heap w !! pod = Some p ->
  chans p !! i = Some (WHandlers h) ->
  processor_body from_edn json_loads pod (done_envelope i) w =
    Ok tt (with_trace (trace w ++ handler_call h "done" []) w).
Proof.
  intros Hp Hc.
  rewrite (processor_body_served _ _ _ _ _ _ Hp
             (reply_chan_Some _ (done_envelope i) _ _ eq_refl Hc)).
  simpl. rewrite app_nil_r. rewrite bind_unfold.
  unfold handle_response, handle_done, reply_done, reply_error, reply_status,
    decode_value, bytes_to_string. simpl.
  rewrite call_handler_spec. simpl. by rewrite world_eta.
Qed.

Lemma update_stdout_lookup pod p rest w :
  heap w !! pod = Some p ->
  exists w1, update_pod pod (with_stdout rest) w = Ok tt w1
             /\ heap w1 !! pod = Some (with_stdout rest p)
             /\ trace w1 = trace w.
Proof.
  intros Hp. eexists. split; [reflexivity|]. simpl.
  by rewrite lookup_alter_eq, Hp.
Qed.

Lemma processor_loop_cons pod reply rest :
  processor_loop from_edn json_loads pod (reply :: rest) =
    (update_pod pod (with_stdout rest);;
     processor_body from_edn json_loads pod reply;;
     processor_loop from_edn json_loads pod rest).
Proof. reflexivity. Qed.

(** The streaming half of C2 that the code keeps: N value envelopes that
    decode, then the done envelope, give a callback waiter N calls of its
    success handler, in arrival order, and then one call of its done
    handler. *)
Lemma callback_waiter_stream pod i h cs cd (vs : list string) :
  h !! "success" = Some cs ->
  h !! "done" = Some cd ->
  forall w p,
    heap w !! pod = Some p ->
    chans p !! i = Some (WHandlers h) ->
    Forall (fun s => is_Some (read_fn from_edn json_loads (format p) s)) vs ->
    exists w',
      processor_loop from_edn json_loads pod
        ((value_envelope i <$> vs) ++ [done_envelope i]) w = Ok tt w'
      /\ trace w' =
           trace w
           ++ ((fun s => ECall cs [default PNone (read_fn from_edn json_loads (format p) s)])
                 <$> vs)
           ++ [ECall cd []].
Proof.
  intros Hs Hd. induction vs as [|s vs IH]; intros w p Hp Hc Hvs.
  - rewrite fmap_nil, app_nil_l, processor_loop_cons.
    destruct (update_stdout_lookup pod p [] w Hp) as (w1 & E1 & Hp1 & Ht1).
    rewrite bind_unfold, E1. rewrite bind_unfold.
    rewrite (done_envelope_calls_done pod _ i h w1 Hp1 Hc).
    eexists. split; [reflexivity|]. simpl.
    unfold handler_call. by rewrite Hd, Ht1.
  - inversion Hvs as [|? ? [v Hv] Hrest]; subst.
    rewrite fmap_cons, <- app_comm_cons, processor_loop_cons.
    destruct (update_stdout_lookup pod p
                ((value_envelope i <$> vs) ++ [done_envelope i]) w Hp)
      as (w1 & E1 & Hp1 & Ht1).
    rewrite bind_unfold, E1. rewrite bind_unfold.
    rewrite (value_envelope_calls_success pod _ i h s v w1 Hp1 Hc Hv).
    destruct (IH (with_trace (trace w1 ++ handler_call h "success" [v]) w1)
                (with_stdout ((value_envelope i <$> vs) ++ [done_envelope i]) p))
      as (w' & E & Ht); [done|done|done|].
    exists w'. split; [exact E|]. rewrite Ht. simpl.
    unfold handler_call. rewrite Hs, Ht1, Hv. simpl. by rewrite <- app_assoc.
Qed.

(** ** Decode failures *)

Lemma decode_failure_is_error fmt reply ve :
  r_value reply = Some ve ->
  read_fn from_edn json_loads fmt ve = None ->
  reply_error from_edn json_loads fmt reply = true.
Proof.
  intros Hv Hr. unfold reply_error, decode_value, bytes_to_string.
  by rewrite Hv, Hr.
Qed.

(** C6, as amended: when the value of an envelope does not decode and the
    waiter registered under its id is a pending future or a handlers
    dictionary, the processor delivers an error built from the envelope's
    own [ex-message] and [ex-data] fields (empty when absent) -- a
    [PodError] for a future, a call of the error handler for handlers; the
    decode exception itself is not passed on -- and the loop goes on with
    the envelopes that follow. *)
Theorem decode_failure_fails_waiter_and_loop_goes_on pod p i chan reply ve rest w :
  heap w !! pod = Some p ->
  r_id reply = Some i ->
  chans p !! i = Some chan ->
  r_value reply = Some ve ->
  read_fn from_edn json_loads (format p) ve = None ->
  ~ settled chan ->
  exists w' p',
    processor_loop from_edn json_loads pod (reply :: rest) w =
      processor_loop from_edn json_loads pod rest w'
    /\ heap w' !! pod = Some p'
    /\ chans p' !! i =
         Some (match chan with
               | WFuture _ =>
                   WFuture (Failed (mk_PodError
                     (reply_ex_message from_edn json_loads (format p) reply)
                     (reply_ex_data from_edn json_loads (format p) reply)))
               | WHandlers _ => chan
               end)
    /\ trace w' =
         trace w ++ forwarded (out p) (r_out reply) ++ forwarded (err p) (r_err reply)
         ++ match chan with
            | WFuture _ => []
            | WHandlers h =>
                handler_call h "error"
                  [PDict [("ex-message",
                           PStr (reply_ex_message from_edn json_loads (format p) reply));
                          ("ex-data", reply_ex_data from_edn json_loads (format p) reply)]]
            end.
Proof.
  intros Hp Hi Hc Hv Hr Hns.
  pose proof (decode_failure_is_error (format p) reply ve Hv Hr) as He.
  rewrite processor_loop_cons.
  destruct (update_stdout_lookup pod p rest w Hp) as (w1 & E1 & Hp1 & Ht1).
  rewrite bind_unfold, E1. rewrite bind_unfold.
  rewrite (processor_body_served _ _ _ _ _ _ Hp1 (reply_chan_Some _ _ _ _ Hi Hc)).
  simpl. set (w2 := with_trace _ w1).
  assert (heap w2 !! pod = Some (with_stdout rest p)) as Hp2 by exact Hp1.
  rewrite bind_unfold. unfold handle_response, handle_done. cbv zeta.
  rewrite He, Hv. simpl. rewrite andb_false_r.
  destruct chan as [f|h].
  - destruct f; [|exfalso; by apply Hns..].
    unfold set_exception. rewrite (settle_pending _ _ _ _ _ Hp2 Hc).
    eexists _, _. split; [reflexivity|]. simpl.
    rewrite lookup_insert_eq. split; [reflexivity|]. simpl.
    rewrite lookup_insert_eq. split; [reflexivity|].
    by rewrite Ht1, app_nil_r.
  - rewrite call_handler_spec. eexists _, _. split; [reflexivity|].
    split; [exact Hp1|]. split; [exact Hc|]. simpl.
    by rewrite Ht1, <- !app_assoc.
Qed.

(** ** A second settlement of a future *)

(** On a future that is already settled, an envelope that resolves (a
    value that decodes to something other than [None]) makes [set_result]
    raise; the exception leaves the loop body. *)
Lemma resolve_on_settled_future_raises pod p i f reply ve v w :
  heap w !! pod = Some p ->
  r_id reply = Some i ->
  chans p !! i = Some (WFuture f) ->
  future_done f = true ->
  r_value reply = Some ve ->
  read_fn from_edn json_loads (format p) ve = Some v ->
  v <> PNone ->
  reply_error from_edn json_loads (format p) reply = false ->
  exists w', processor_body from_edn json_loads pod reply w = Exn InvalidStateError w'
             /\ heap w' = heap w.
Proof.
  intros Hp Hi Hc Hf Hv Hr Hn He.
  rewrite (processor_body_served _ _ _ _ _ _ Hp (reply_chan_Some _ _ _ _ Hi Hc)).
  set (w1 := with_trace _ w). rewrite bind_unfold.
  unfold handle_response. cbv zeta. rewrite He, Hv. simpl.
  unfold decode_value, bytes_to_string. rewrite Hr. simpl.
  unfold set_result.
  assert (settle pod i (Finished (RVal v)) w1 = Exn InvalidStateError w1) as E
    by (by apply (settle_settled pod p i f)).
  exists w1. split; [|done]. destruct v; try done; by rewrite E.
Qed.

(** Likewise for an envelope that fails (status error, or a value that
    does not decode). *)
Lemma fail_on_settled_future_raises pod p i f reply w :
  heap w !! pod = Some p ->
  r_id reply = Some i ->
  chans p !! i = Some (WFuture f) ->
  future_done f = true ->
  reply_error from_edn json_loads (format p) reply = true ->
  exists w', processor_body from_edn json_loads pod reply w = Exn InvalidStateError w'
             /\ heap w' = heap w.
Proof.
  intros Hp Hi Hc Hf He.
  rewrite (processor_body_served _ _ _ _ _ _ Hp (reply_chan_Some _ _ _ _ Hi Hc)).
  set (w1 := with_trace _ w). rewrite bind_unfold.
  unfold handle_response. cbv zeta. rewrite He, orb_true_r. simpl.
  unfold set_exception.
  rewrite (settle_settled pod p i f _ w1 Hp Hc Hf). by exists w1.
Qed.

(** The done envelope on a settled future changes nothing: the guard
    [if not chan.done()] skips [set_result]. *)
Lemma done_on_settled_future_is_noop pod p i f w :
  heap w !! pod = Some p ->
  chans p !! i = Some (WFuture f) ->
  future_done f = true ->
  processor_body from_edn json_loads pod (done_envelope i) w = Ok tt w.
Proof.
  intros Hp Hc Hf.
  rewrite (processor_body_served _ _ _ _ _ _ Hp
             (reply_chan_Some _ (done_envelope i) _ _ eq_refl Hc)).
  simpl. rewrite app_nil_r, world_eta. rewrite bind_unfold.
  unfold handle_response, handle_done, reply_done, reply_error, reply_status,
    decode_value, bytes_to_string. simpl.
  rewrite bind_unfold, (get_pod_Some _ _ _ Hp), Hc. by rewrite Hf.
Qed.

(** The done envelope on a pending future settles it with [None]. *)
Lemma done_on_pending_future_gives_none pod p i w :
  heap w !! pod = Some p ->
  chans p !! i = Some (WFuture Pending) ->
  processor_body from_edn json_loads pod (done_envelope i) w =
    Ok tt (with_heap
             (<[pod := with_chans (<[i := WFuture (Finished (RVal PNone))]> (chans p)) p]>
                (heap w)) w).
Proof.
  intros Hp Hc.
  rewrite (processor_body_served _ _ _ _ _ _ Hp
             (reply_chan_Some _ (done_envelope i) _ _ eq_refl Hc)).
  simpl. rewrite app_nil_r, world_eta. rewrite bind_unfold.
  unfold handle_response, handle_done, reply_done, reply_error, reply_status,
    decode_value, bytes_to_string. simpl.
  rewrite bind_unfold, (get_pod_Some _ _ _ Hp), Hc. simpl.
  unfold set_result. by rewrite (settle_pending _ _ _ _ _ Hp Hc).
Qed.

(** An exception in the loop body ends the reader thread: the envelopes
    that follow stay unread. *)
Lemma processor_stops_on_exception pod p reply rest e w w1 :
  heap w !! pod = Some p ->
  processor_thread p = Some TRunning ->
  stdout p = reply :: rest ->
  processor_body from_edn json_loads pod reply
    (with_heap (alter (with_stdout rest) pod (heap w)) w) = Exn e w1 ->
  processor from_edn json_loads pod w = finish_thread pod w1.
Proof.
  intros Hp Ht Hs Hb. unfold processor.
  rewrite bind_unfold, (get_pod_Some _ _ _ Hp), Ht, Hs.
  unfold try_except. rewrite bind_unfold, processor_loop_cons.
  rewrite bind_unfold. unfold update_pod at 1, modify at 1.
  rewrite bind_unfold, Hb. reflexivity.
Qed.

(** ** Destroying a pod *)

Lemma update_pod_spec l p f w :
  heap w !! l = Some p ->
  update_pod l f w = Ok tt (with_heap (<[l := f p]> (heap w)) w).
Proof.
  intros Hp. unfold update_pod, modify. by rewrite (alter_alt_Some _ _ _ _ Hp).
Qed.

(** What [destroy_pod] changes: the pod object (its process has ended, its
    streams may have moved) and the number of ids drawn; the waiters are as
    they were. *)
Lemma destroy_pod_spec l p w :
  heap w !! l = Some p ->
  exists p' n,
    destroy_pod l w = Ok tt (with_heap (<[l := p']> (heap w)) (with_drawn n w))
    /\ chans p' = chans p
    /\ namespaces p' = namespaces p
    /\ remove_ns p' = remove_ns p
    /\ pod_id p' = pod_id p
    /\ processor_thread p' = processor_thread p
    /\ status (process p') <> Running.
Proof.
  intros Hp.
  assert (forall q w0, heap w0 !! l = Some q ->
            terminate l w0 =
              Ok tt (with_heap (<[l := match status (process q) with
                                       | Running =>
                                           with_process
                                             {| pid := pid (process q);
                                                status := Terminated;
                                                child := child (process q) |} q
                                       | _ => q
                                       end]> (heap w0)) w0)) as Hterm.
  { intros q w0 Hq. unfold terminate. by rewrite (update_pod_spec _ _ _ _ Hq). }
  unfold destroy_pod. rewrite bind_unfold, (get_pod_Some _ _ _ Hp).
  destruct (bool_decide ("shutdown" ∈ ops p)).
  - unfold try_except. rewrite bind_unfold. unfold next_id at 1.
    set (w1 := with_drawn (S (drawn w)) w).
    assert (heap w1 !! l = Some p) as Hp1 by exact Hp.
    rewrite bind_unfold. unfold write_message.
    rewrite bind_unfold, (get_pod_Some _ _ _ Hp1).
    destruct (status (process p)) eqn:Hst.
    + rewrite (update_pod_spec _ _ _ _ Hp1).
      set (q := with_stdout _ (with_stdin _ p)).
      set (w2 := with_heap _ w1).
      assert (heap w2 !! l = Some q) as Hq by (unfold w2; simpl; by rewrite lookup_insert_eq).
      unfold process_wait. rewrite bind_unfold, (get_pod_Some _ _ _ Hq).
      assert (status (process q) = Running) as Hsq by exact Hst. rewrite Hsq.
      destruct (exits_on_shutdown (child (process q))).
      * rewrite (update_pod_spec _ _ _ _ Hq).
        eexists _, (S (drawn w)). split.
        { unfold w2. simpl. rewrite insert_insert_eq. reflexivity. }
        simpl. repeat split; done.
      * unfold raise. rewrite (Hterm q w2 Hq), Hsq.
        eexists _, (S (drawn w)). split.
        { unfold w2. simpl. rewrite insert_insert_eq. reflexivity. }
        simpl. repeat split; done.
    + unfold raise. rewrite (Hterm p w1 Hp1), Hst.
      exists p, (S (drawn w)). split; [reflexivity|].
      repeat split; try done. by rewrite Hst.
    + unfold raise. rewrite (Hterm p w1 Hp1), Hst.
      exists p, (S (drawn w)). split; [reflexivity|].
      repeat split; try done. by rewrite Hst.
  - rewrite (Hterm p w Hp). eexists _, (drawn w). split.
    { reflexivity. }
    destruct (status (process p)) eqn:Hst; simpl; repeat split; try done;
      by rewrite Hst.
Qed.

Lemma remove_each_spec f nss w :
  remove_each f nss w =
    Ok tt (with_trace (trace w ++ ((fun n => ECall f [PStr (ns_name n)]) <$> nss)) w).
Proof.
  revert w. induction nss as [|n nss IH]; intros w; simpl.
  - by rewrite app_nil_r, world_eta.
  - rewrite bind_unfold. unfold emit, modify. rewrite IH. simpl.
    by rewrite <- app_assoc.
Qed.

(** [destroy] given a pod id that is registered. *)
Lemma destroy_by_id_spec i l p w :
  pods w !! i = Some l ->
  heap w !! l = Some p ->
  exists p' w',
    destroy (ById i) w = Ok tt w'
    /\ pods w' = delete i (pods w)
    /\ heap w' = <[l := p']> (heap w)
    /\ chans p' = chans p
    /\ processor_thread p' = processor_thread p
    /\ status (process p') <> Running.
Proof.
  intros Hi Hp. unfold destroy.
  rewrite bind_unfold. simpl. rewrite bind_unfold. unfold lookup_pod at 1.
  rewrite bind_unfold. simpl. rewrite Hi.
  rewrite bind_unfold. rewrite bind_unfold. unfold unregister_pod_modules at 1.
  rewrite bind_unfold. unfold modify at 1 2.
  set (w0 := with_loaded_namespaces _ _).
  assert (heap w0 !! l = Some p) as Hp0 by exact Hp.
  destruct (destroy_pod_spec l p w0 Hp0) as (p' & n & E & Hc & Hn & Hr & Hid & Ht & Hs).
  rewrite bind_unfold, E. set (w1 := with_heap _ _).
  assert (heap w1 !! l = Some p') as Hp1 by (unfold w1; simpl; by rewrite lookup_insert_eq).
  rewrite bind_unfold, (get_pod_Some _ _ _ Hp1).
  destruct (remove_ns p') as [f|].
  - rewrite remove_each_spec. unfold modify. eexists p', _. split; [reflexivity|].
    simpl. done.
  - unfold modify. eexists p', _. split; [reflexivity|]. simpl. done.
Qed.

(** [destroy] given something that yields no registered id changes
    nothing. *)
Lemma destroy_unregistered_noop i w :
  pods w !! i = None -> destroy (ById i) w = Ok tt w.
Proof.
  intros Hi. unfold destroy.
  rewrite bind_unfold. simpl. rewrite bind_unfold. unfold lookup_pod at 1.
  rewrite bind_unfold. simpl. rewrite Hi. simpl.
  rewrite bind_unfold. simpl.
  unfold modify. rewrite (delete_id _ _ Hi). by destruct w.
Qed.

(** [pod.get("pod/id")] finds nothing: no key of the pod dictionary is
    spelled that way. *)
Lemma pod_has_no_pod_slash_id p : pod_get p "pod/id" = None.
Proof. reflexivity. Qed.


(** When the pod's output is exhausted, the reader thread returns at end of
    stream and touches no waiter. *)
Lemma processor_at_eof l p w :
  heap w !! l = Some p ->
  stdout p = [] ->
  status (process p) <> Running ->
  exists p',
    processor from_edn json_loads l w = Ok tt (with_heap (<[l := p']> (heap w)) w)
    /\ chans p' = chans p
    /\ (processor_thread p = Some TRunning -> processor_thread p' = Some TFinished).
Proof.
  intros Hp Hs Hst. unfold processor.
  rewrite bind_unfold, (get_pod_Some _ _ _ Hp).
  destruct (processor_thread p) as [[]|] eqn:Ht.
  - unfold try_except. rewrite Hs. simpl. rewrite bind_unfold. simpl.
    rewrite bind_unfold, (get_pod_Some _ _ _ Hp).
    unfold finish_thread.
    destruct (status (process p)) eqn:Hst'; [done| |].
    + rewrite (update_pod_spec _ _ _ _ Hp). eexists. split; [reflexivity|]. done.
    + rewrite (update_pod_spec _ _ _ _ Hp). eexists. split; [reflexivity|]. done.
  - exists p. split; [|split; [done|intros; done]].
    simpl. rewrite insert_id by done. by destruct w.
  - exists p. split; [|split; [done|intros; done]].
    simpl. rewrite insert_id by done. by destruct w.
Qed.

(** C3, as amended: after [destroy] on the id of a registered pod the pod
    is out of the registry, so [lookup_pod] finds nothing, its process no
    longer runs, and a second [destroy] changes nothing; but the waiters in
    the pod's [chans] are exactly as they were -- a pending one stays
    pending, no error is delivered to it -- also once the reader thread has
    met the end of the stream. *)
Theorem destroy_unregisters_pod_and_leaves_waiters i l p w :
  pods w !! i = Some l ->
  heap w !! l = Some p ->
  exists w' p',
    destroy (ById i) w = Ok tt w'
    /\ lookup_pod (Some i) w' = Ok None w'
    /\ heap w' !! l = Some p'
    /\ chans p' = chans p
    /\ status (process p') <> Running
    /\ destroy (ById i) w' = Ok tt w'
    /\ (stdout p' = [] ->
        exists w'' p'',
          processor from_edn json_loads l w' = Ok tt w''
          /\ heap w'' !! l = Some p''
          /\ chans p'' = chans p).
Proof.
  intros Hi Hp.
  destruct (destroy_by_id_spec i l p w Hi Hp)
    as (p' & w' & E & Hpods & Hheap & Hc & Ht & Hs).
  assert (pods w' !! i = None) as Hnone by (rewrite Hpods; apply lookup_delete_eq).
  assert (heap w' !! l = Some p') as Hp' by (rewrite Hheap; apply lookup_insert_eq).
  exists w', p'. split; [exact E|].
  split. { unfold lookup_pod. rewrite bind_unfold. simpl. by rewrite Hnone. }
  split; [exact Hp'|]. split; [exact Hc|]. split; [exact Hs|].
  split; [by apply destroy_unregistered_noop|].
  intros Hout.
  destruct (processor_at_eof l p' w' Hp' Hout Hs) as (p'' & E' & Hc' & _).
  eexists _, p''. split; [exact E'|]. simpl.
  split; [by rewrite lookup_insert_eq|]. by rewrite Hc'.
Qed.

(** ** Exposing namespaces *)

#[local] Instance same_but_modules_refl : Reflexive same_but_modules.
Proof. intros w. by repeat split. Qed.

#[local] Instance same_but_modules_trans : Transitive same_but_modules.
Proof.
  intros w1 w2 w3 (?&?&?&?&?) (?&?&?&?&?). repeat split; congruence.
Qed.

Lemma setattr_spec (m : Module) name value w :
  setattr m name value w =
    match setattr_error name with
    | Some e => Exn e w
    | None => Ok (<[name := value]> m) w
    end.
Proof. unfold setattr. by destruct (setattr_error name). Qed.

(** The loop over the vars raises what the first failing [setattr] raises,
    and otherwise returns the module with every var bound. *)
Lemma expose_vars_spec items :
  forall (m : Module) w,
    expose_vars m items w =
      match vars_error items with
      | Some e => Exn e w
      | None => Ok (foldl bind_func m items) w
      end.
Proof.
  induction items as [|[k g] rest IH]; intros m w; [reflexivity|].
  cbn [expose_vars vars_error foldl]. unfold func_error.
  rewrite bind_unfold, setattr_spec.
  destruct (setattr_error k) as [e|] eqn:Ek; [reflexivity|].
  rewrite bind_unfold.
  destruct (String.eqb (replace_char "-" "_" k) k) eqn:Ea; cbn [negb].
  - apply String.eqb_eq in Ea. rewrite Ea, Ek.
    change (expose_vars (<[k := var_object g]> m) rest w =
            match vars_error rest with
            | Some e => Exn e w
            | None => Ok (foldl bind_func (bind_func m (k, g)) rest) w
            end).
    rewrite IH. unfold bind_func. cbn [fst snd]. rewrite Ea, insert_insert_eq.
    reflexivity.
  - rewrite setattr_spec.
    destruct (setattr_error (replace_char "-" "_" k)); [reflexivity|].
    rewrite IH. reflexivity.
Qed.

Lemma expose_namespace_as_module_spec pod p namespace w :
  heap w !! pod = Some p ->
  vars_error (ns_vars namespace) = None ->
  exists w',
    expose_namespace_as_module pod namespace w
      = Ok (namespace_module (pod_id p) namespace) w'
    /\ sys_modules w' =
         <[namespace_to_module_name (ns_name namespace)
             := namespace_module (pod_id p) namespace]> (sys_modules w)
    /\ (exists t, loaded_namespaces w' !! pod_id p = Some t
                  /\ t !! ns_name namespace = Some namespace)
    /\ same_but_modules w w'.
Proof.
  intros Hp Hok. unfold expose_namespace_as_module.
  rewrite bind_unfold, (get_pod_Some _ _ _ Hp). cbv zeta.
  rewrite bind_unfold, expose_vars_spec, Hok.
  eexists. split; [reflexivity|]. simpl. split; [reflexivity|].
  split; [|by repeat split].
  eexists. rewrite lookup_insert_eq. split; [reflexivity|]. by rewrite lookup_insert_eq.
Qed.

(** When a [setattr] raises, nothing has been registered or tracked. *)
Lemma expose_namespace_as_module_raises pod p namespace e w :
  heap w !! pod = Some p ->
  vars_error (ns_vars namespace) = Some e ->
  expose_namespace_as_module pod namespace w = Exn e w.
Proof.
  intros Hp Herr. unfold expose_namespace_as_module.
  rewrite bind_unfold, (get_pod_Some _ _ _ Hp). cbv zeta.
  by rewrite bind_unfold, expose_vars_spec, Herr.
Qed.

Lemma expose_namespace_as_module_Ok pod p namespace m w w' :
  heap w !! pod = Some p ->
  expose_namespace_as_module pod namespace w = Ok m w' ->
  vars_error (ns_vars namespace) = None.
Proof.
  intros Hp H. destruct (vars_error (ns_vars namespace)) as [e|] eqn:E; [|done].
  by rewrite (expose_namespace_as_module_raises _ _ _ _ _ Hp E) in H.
Qed.

Lemma expose_namespace_as_module_inv pod p namespace m w w' :
  heap w !! pod = Some p ->
  expose_namespace_as_module pod namespace w = Ok m w' ->
  vars_error (ns_vars namespace) = None
  /\ m = namespace_module (pod_id p) namespace
  /\ sys_modules w' =
       <[namespace_to_module_name (ns_name namespace)
           := namespace_module (pod_id p) namespace]> (sys_modules w)
  /\ (exists t, loaded_namespaces w' !! pod_id p = Some t
                /\ t !! ns_name namespace = Some namespace)
  /\ same_but_modules w w'.
Proof.
  intros Hp H. pose proof (expose_namespace_as_module_Ok _ _ _ _ _ _ Hp H) as Hok.
  destruct (expose_namespace_as_module_spec pod p namespace w Hp Hok)
    as (w1 & E & Hsm & Ht & Hsame).
  rewrite E in H. inversion H; subst. done.
Qed.

Lemma non_deferred_cons ns nss :
  non_deferred (ns :: nss) =
    if ns_get_defer ns then non_deferred nss else ns :: non_deferred nss.
Proof.
  unfold non_deferred. rewrite filter_cons.
  destruct (ns_get_defer ns); [by rewrite decide_False|by rewrite decide_True].
Qed.

(** When no [setattr] raises, every namespace that is not deferred is
    exposed. *)
Lemma exposure_all nss :
  (exposure nss).2 = None -> (exposure nss).1 = non_deferred nss.
Proof.
  induction nss as [|ns nss IH]; [done|]. rewrite non_deferred_cons. cbn [exposure].
  destruct (ns_get_defer ns); [exact IH|].
  destruct (vars_error (ns_vars ns)); [done|]. cbn [fst snd]. intros H. by rewrite IH.
Qed.

(** [expose_non_deferred_namespaces] registers a module for each namespace
    that is not deferred, in the order of the list, until a [setattr]
    raises; it returns the modules when none does. *)
Lemma expose_each_spec pod p nss :
  forall w,
    heap w !! pod = Some p ->
    exists w',
      expose_each pod nss w
        = match (exposure nss).2 with
          | None => Ok (namespace_module (pod_id p) <$> (exposure nss).1) w'
          | Some e => Exn e w'
          end
      /\ sys_modules w' = register_modules (pod_id p) (exposure nss).1 (sys_modules w)
      /\ same_but_modules w w'.
Proof.
  induction nss as [|ns nss IH]; intros w Hp.
  - exists w. split; [reflexivity|]. split; [reflexivity|]. reflexivity.
  - cbn [expose_each exposure].
    destruct (ns_get_defer ns) eqn:Hd; cbn [negb].
    + apply IH, Hp.
    + destruct (vars_error (ns_vars ns)) as [e|] eqn:Herr.
      * exists w. rewrite bind_unfold, (expose_namespace_as_module_raises _ _ _ _ _ Hp Herr).
        split; [reflexivity|]. split; [reflexivity|]. reflexivity.
      * destruct (expose_namespace_as_module_spec pod p ns w Hp Herr)
          as (w1 & E1 & Hsm1 & _ & Hsame1).
        rewrite bind_unfold, E1.
        assert (heap w1 !! pod = Some p) as Hp1
          by (destruct Hsame1 as (-> & _); exact Hp).
        destruct (IH w1 Hp1) as (w' & E & Hsm & Hsame).
        rewrite bind_unfold, E. exists w'. cbn [fst snd].
        split; [by destruct (exposure nss).2|].
        split; [|by etrans]. simpl. rewrite Hsm, Hsm1. reflexivity.
Qed.

(** ** Loading a pod *)

Lemma resolve_pod_world pod_spec opts w r w1 :
  resolve_pod resolve pod_spec opts w = Ok r w1 -> w1 = w.
Proof.
  unfold resolve_pod. intros H. apply bind_Ok_inv in H as (a & w2 & H1 & H2).
  assert (w2 = w) as ->.
  { repeat match type of H1 with
           | (if ?c then _ else _) _ = _ => destruct c
           end; by inversion H1. }
  by inversion H2.
Qed.

Lemma read_port_world fuel file_at k w r w1 :
  read_port py_strip py_int fuel file_at k w = Ok r w1 -> w1 = w.
Proof.
  revert k. induction fuel as [|fuel IH]; intros k; simpl; [done|].
  destruct (poll_port _ _ _); [by inversion 1|apply IH].
Qed.

Lemma connect_world fuel accepts k w r w1 :
  connect fuel accepts k w = Ok r w1 -> w1 = w.
Proof.
  revert k. induction fuel as [|fuel IH]; intros k; simpl; [done|].
  destruct (accepts k); [by inversion 1|apply IH].
Qed.

Lemma run_pod_world fuel pod_spec opts w r w1 :
  run_pod popen py_strip py_int fuel pod_spec opts w = Ok r w1 ->
  w1 = w
  /\ exists pid c,
       popen pod_spec (bool_decide (o_transport opts = Some "socket")) = Some (pid, c)
       /\ child (rp_process r) = c.
Proof.
  unfold run_pod. destruct (popen _ _) as [[pid c]|]; [|done].
  destruct (bool_decide _).
  - intros H. apply bind_Ok_inv in H as ([port k] & w2 & H1 & H2).
    apply read_port_world in H1 as ->.
    apply bind_Ok_inv in H2 as (k' & w3 & H2 & H3).
    apply connect_world in H2 as ->. inversion H3; subst. split; [done|].
    by exists pid, c.
  - inversion 1; subst. split; [done|]. by exists pid, c.
Qed.



(** ** Waiting for the port file *)

Lemma read_port_without_port fuel file_at w :
  (forall k, poll_port py_strip py_int (file_at k) = None) ->
  forall k, read_port py_strip py_int fuel file_at k w = OutOfFuel.
Proof.
  intros Hnone. induction fuel as [|fuel IH]; intros k; simpl; [done|].
  by rewrite Hnone.
Qed.

(** [read_port] returns as soon as a poll finds a port: with the first
    success at poll [k0], any fuel above [k0] is enough. *)
Lemma read_port_returns_first_port file_at k0 port w :
  (forall k, k < k0 -> poll_port py_strip py_int (file_at k) = None) ->
  poll_port py_strip py_int (file_at k0) = Some port ->
  forall fuel, k0 < fuel ->
    read_port py_strip py_int fuel file_at 0 w = Ok (port, S k0) w.
Proof.
  intros Hbefore Hat.
  assert (forall fuel k, k <= k0 -> k0 - k < fuel ->
            read_port py_strip py_int fuel file_at k w = Ok (port, S k0) w) as H.
  { induction fuel as [|fuel IH]; intros k Hk Hf; [lia|]. simpl.
    destruct (decide (k = k0)) as [->|Hne].
    - by rewrite Hat.
    - rewrite Hbefore by lia. apply IH; lia. }
  intros fuel Hf. apply H; lia.
Qed.

Lemma load_pod_polls_for_ever fuel pod_spec opts final_pod_spec final_opts pid c w :
  resolve_pod resolve pod_spec opts w = Ok (final_pod_spec, final_opts) w ->
  o_transport final_opts = Some "socket" ->
  popen final_pod_spec true = Some (pid, c) ->
  (forall k, poll_port py_strip py_int (port_file_at c k) = None) ->
  load_pod resolve popen py_strip py_int fuel pod_spec opts w = OutOfFuel.
Proof.
  intros Hres Hsock Hpopen Hnone. unfold load_pod.
  rewrite bind_unfold, Hres. simpl. rewrite bind_unfold.
  unfold run_pod. rewrite Hsock, bool_decide_eq_true_2 by done. rewrite Hpopen.
  rewrite bind_unfold. by rewrite (read_port_without_port fuel _ w Hnone 0).
Qed.

(** C5, as amended: in socket mode [load_pod] polls the port file until it
    holds an integer and consults nothing else; when the child never writes
    a port number -- in particular when it has exited before doing so --
    [load_pod] neither returns nor raises: whatever the number of polls, it
    is still waiting.  No handshake error is raised and the child is not
    reaped. *)
Theorem socket_load_waits_for_port_for_ever fuel pod_spec opts final_pod_spec
    final_opts pid c w :
  resolve_pod resolve pod_spec opts w = Ok (final_pod_spec, final_opts) w ->
  o_transport final_opts = Some "socket" ->
  popen final_pod_spec true = Some (pid, c) ->
  (forall k, poll_port py_strip py_int (port_file_at c k) = None) ->
  load_pod resolve popen py_strip py_int fuel pod_spec opts w = OutOfFuel
  /\ final_world (load_pod resolve popen py_strip py_int fuel pod_spec opts w) = None.
Proof.
  intros Hres Hsock Hpopen Hnone.
  rewrite (load_pod_polls_for_ever _ _ _ _ _ _ _ _ Hres Hsock Hpopen Hnone). done.
Qed.

(** ** Module names and module attributes *)



Lemma replace_char_idem old new s :
  old <> new ->
  replace_char old new (replace_char old new s) = replace_char old new s.
Proof.
  intros Hne. induction s as [|c s IH]; simpl; [done|]. rewrite IH. f_equal.
  destruct (Ascii.eqb c old) eqn:E; [|by rewrite E].
  destruct (Ascii.eqb new old) eqn:E'; [|done].
  apply Ascii.eqb_eq in E'. congruence.
Qed.


Lemma bind_func_lookup (m : Module) k g x :
  bind_func m (k, g) !! x =
    if decide (x = k \/ x = replace_char "-" "_" k) then Some (var_object g) else m !! x.
Proof.
  unfold bind_func. cbn [fst snd].
  destruct (decide (x = replace_char "-" "_" k)) as [->|Hne].
  - rewrite lookup_insert_eq. by rewrite decide_True by auto.
  - rewrite lookup_insert_ne by done.
    destruct (decide (x = k)) as [->|Hne'].
    + rewrite lookup_insert_eq. by rewrite decide_True by auto.
    + rewrite lookup_insert_ne by done.
      rewrite decide_False by (intros [?|?]; congruence). done.
Qed.

(** The loop binds a name as the last var that binds it says -- under its
    own name or under its snake-case alias -- and leaves every other
    attribute as it was. *)
Lemma foldl_bind_func_lookup (m0 : Module) (vars : odict Var) x :
  foldl bind_func m0 vars !! x =
    match last (filter (binds x) vars) with
    | Some item => Some (var_object item.2)
    | None => m0 !! x
    end.
Proof.
  revert vars. unfold odict. intros vars.
  induction vars as [|[k g] vars IH] using rev_ind; [done|].
  rewrite foldl_app. cbn [foldl]. rewrite bind_func_lookup, filter_app, filter_cons.
  change (filter (binds x) []) with (@nil (string * Var)).
  destruct (decide (binds x (k, g))) as [Hb|Hb].
  - rewrite decide_True by exact Hb. by rewrite last_snoc.
  - rewrite decide_False by exact Hb. by rewrite app_nil_r.
Qed.


(** ** What serving requests leaves alone *)

#[local] Instance modules_untouched_refl : Reflexive modules_untouched.
Proof. intros w. split; [done|]. split; [done|]. intros l p H. by exists p. Qed.

#[local] Instance modules_untouched_trans : Transitive modules_untouched.
Proof.
  intros w1 w2 w3 (El1 & Es1 & H1) (El2 & Es2 & H2).
  split; [congruence|]. split; [congruence|]. intros l p Hp.
  destruct (H1 l p Hp) as (p2 & Hp2 & En2 & Ei2).
  destruct (H2 l p2 Hp2) as (p3 & Hp3 & En3 & Ei3).
  exists p3. split; [done|]. split; congruence.
Qed.

Lemma modules_untouched_heap w w' :
  heap w' = heap w -> loaded_namespaces w' = loaded_namespaces w ->
  sys_modules w' = sys_modules w -> modules_untouched w w'.
Proof.
  intros Eh El Es. split; [done|]. split; [done|]. intros l p H.
  exists p. by rewrite Eh.
Qed.

Lemma emit_untouched e : preserves modules_untouched (emit e).
Proof. intros w. by apply modules_untouched_heap. Qed.

Lemma next_id_untouched : preserves modules_untouched next_id.
Proof. intros w. by apply modules_untouched_heap. Qed.

Lemma update_pod_untouched l f :
  (forall p, namespaces (f p) = namespaces p /\ pod_id (f p) = pod_id p) ->
  preserves modules_untouched (update_pod l f).
Proof.
  intros Hf w. unfold after, update_pod, modify. simpl.
  split; [done|]. split; [done|]. intros l' p Hp. simpl.
  destruct (decide (l = l')) as [->|Hne].
  - exists (f p). rewrite lookup_alter_eq, Hp. split; [done|]. apply Hf.
  - exists p. by rewrite lookup_alter_ne.
Qed.

Ltac preserve :=
  repeat first
    [ apply preserves_ret; apply _
    | apply preserves_raise; apply _
    | apply preserves_get_pod; apply _
    | apply emit_untouched
    | apply next_id_untouched
    | apply update_pod_untouched; intros ?; by destruct_and?
    | apply preserves_bind; [apply _| |intros ?]
    | apply preserves_try_except; [apply _| |intros ?]
    | match goal with
      | |- preserves _ (match ?x with _ => _ end) => destruct x
      end ].

Lemma settle_untouched pod i o : preserves modules_untouched (settle pod i o).
Proof. unfold settle. preserve. Qed.

Lemma processor_body_untouched pod reply :
  preserves modules_untouched (processor_body from_edn json_loads pod reply).
Proof.
  assert (forall i o, preserves modules_untouched (settle pod i o)) as Hs
    by apply settle_untouched.
  unfold processor_body, forward, handle_response, handle_done, call_handler,
    set_exception, set_result.
  preserve; apply Hs.
Qed.

Lemma processor_loop_untouched pod input :
  preserves modules_untouched (processor_loop from_edn json_loads pod input).
Proof.
  induction input as [|reply rest IH]; cbn [processor_loop]; [preserve|].
  apply preserves_bind; [apply _|preserve|intros _].
  apply preserves_bind; [apply _|apply processor_body_untouched|intros _]. apply IH.
Qed.

Lemma processor_untouched pod :
  preserves modules_untouched (processor from_edn json_loads pod).
Proof.
  pose proof processor_loop_untouched as Hl.
  unfold processor, finish_thread.
  apply preserves_bind; [apply _|preserve|intros p].
  destruct (processor_thread p) as [[]|]; [|preserve..].
  apply preserves_try_except; [apply _| |intros ?; preserve].
  apply preserves_bind; [apply _|apply Hl|intros _]. preserve.
Qed.

Lemma write_message_untouched pod message :
  preserves modules_untouched (write_message pod message).
Proof. unfold write_message. preserve. Qed.

Lemma load_ns_impl_untouched pod namespace :
  preserves modules_untouched (load_ns_impl from_edn json_loads pod namespace).
Proof.
  pose proof processor_untouched as Hp. pose proof write_message_untouched as Hw.
  unfold load_ns_impl, chan_result.
  apply preserves_bind; [apply _|preserve|intros i].
  apply preserves_bind; [apply _|preserve|intros _].
  apply preserves_bind; [apply _|apply Hw|intros _].
  apply preserves_bind; [apply _|apply Hp|intros _].
  apply preserves_bind; [apply _|preserve|intros p].
  destruct (chans p !! i) as [[[]|]|]; try (preserve; fail);
    intros w; unfold after, suspend; simpl; reflexivity.
Qed.

(** ** Loading a deferred namespace *)






(** ** Requests *)

Lemma write_message_evolve pod message :
  preserves pods_evolve (write_message pod message).
Proof.
  unfold write_message.
  apply preserves_bind; [apply _|apply preserves_get_pod; apply _|intros p].
  destruct (status (process p)); try (apply preserves_raise; apply _).
  by apply update_pod_evolve.
Qed.

Lemma chan_result_evolve pod i :
  preserves pods_evolve (chan_result from_edn json_loads pod i).
Proof.
  unfold chan_result.
  apply preserves_bind; [apply _|apply processor_evolve|intros _].
  apply preserves_bind; [apply _|apply preserves_get_pod; apply _|intros p].
  destruct (chans p !! i) as [[[]|]|];
    try (apply preserves_ret; apply _); try (apply preserves_raise; apply _);
    intros w; unfold after, suspend; simpl; reflexivity.
Qed.

(** [invoke] registers its waiter under the id it draws, and however the
    call ends the id is still registered. *)
Lemma invoke_registers_waiter pod p pod_var args handlers w :
  heap w !! pod = Some p ->
  after (invoke from_edn json_loads to_edn json_dumps py_str pod pod_var args handlers w)
        (fun w' => exists p', heap w' !! pod = Some p'
                              /\ is_Some (chans p' !! uuid4 w (drawn w))).
Proof.
  intros Hp. unfold invoke.
  rewrite bind_unfold, (get_pod_Some _ _ _ Hp). rewrite bind_unfold. unfold next_id at 1.
  set (i := uuid4 w (drawn w)). set (w1 := with_drawn _ w).
  assert (heap w1 !! pod = Some p) as Hp1 by exact Hp.
  rewrite bind_unfold, (update_pod_spec _ _ _ _ Hp1).
  set (chan := match handlers return Waiter with
               | Some h => _
               | None => WFuture Pending
               end).
  set (w2 := with_heap _ w1).
  assert (heap w2 !! pod = Some (with_chans (<[i := chan]> (chans p)) p)) as Hp2
    by (unfold w2; simpl; by rewrite lookup_insert_eq).
  assert (forall w', pods_evolve w2 w' ->
            exists p', heap w' !! pod = Some p' /\ is_Some (chans p' !! i)) as Hkeep.
  { intros w' Hev. destruct (Hev _ _ Hp2) as (p' & Hp' & Hch).
    exists p'. split; [done|]. specialize (Hch i). simpl in Hch.
    rewrite lookup_insert_eq in Hch. inversion Hch; subst. eauto. }
  assert (forall A (m : M A), preserves pods_evolve m ->
            after (m w2) (fun w' => exists p', heap w' !! pod = Some p'
                                               /\ is_Some (chans p' !! i))) as Hafter.
  { intros A m Hm. specialize (Hm w2). unfold after in *.
    destruct (final_world (m w2)); [by apply Hkeep|done]. }
  destruct (write_fn to_edn json_dumps py_str (format p) args) as [encoded|].
  - apply Hafter. apply preserves_bind; [apply _|apply write_message_evolve|intros _].
    destruct (match handlers with Some h => _ | None => false end).
    + apply preserves_ret; apply _.
    + apply preserves_bind; [apply _|apply chan_result_evolve|intros r].
      apply preserves_ret; apply _.
  - apply Hafter. apply preserves_raise; apply _.
Qed.

(** Once the pod runs and a describe reply is at hand -- the one passed as
    [metadata], or the one the running child sends -- [load_pod] creates the
    pod object, registers it and exposes its namespaces; it returns the pod
    unless a [setattr] raises during the exposure, and then the pod stays
    registered. *)
Lemma load_pod_after_handshake fuel spec opts final_pod_spec final_opts
    running_pod reply w :
  resolve_pod resolve spec opts w = Ok (final_pod_spec, final_opts) w ->
  run_pod popen py_strip py_int fuel final_pod_spec final_opts w = Ok running_pod w ->
  (o_metadata final_opts = Some reply /\ describe_truthy reply = true)
  \/ ((forall r, o_metadata final_opts = Some r -> describe_truthy r = false)
      /\ status (rp_process running_pod) = Running
      /\ describe_reply (child (rp_process running_pod)) = Some reply) ->
  exists l w' p,
    load_pod resolve popen py_strip py_int fuel spec opts w
    = match (exposure (bencode_to_namespace l <$> default [] (d_namespaces reply))).2 with
      | None => Ok l w'
      | Some e => Exn e w'
      end
    /\ heap w !! l = None
    /\ heap w' !! l = Some p
    /\ (forall l', l' <> l -> heap w' !! l' = heap w !! l')
    /\ pods w' = <[pod_id p := l]> (pods w)
    /\ processor_thread p = Some TRunning
    /\ namespaces p = Some (bencode_to_namespace l <$> default [] (d_namespaces reply))
    /\ sys_modules w' =
         register_modules (pod_id p)
           (exposure (bencode_to_namespace l <$> default [] (d_namespaces reply))).1
           (sys_modules w)
    /\ trace w' = trace w
    /\ match default [] (d_namespaces reply) with
       | first_ns :: _ =>
           if str_truthy (nd_name first_ns) then pod_id p = nd_name first_ns
           else exists n, drawn w <= n /\ drawn w' = S n /\ pod_id p = uuid4 w n
       | [] => exists n, drawn w <= n /\ drawn w' = S n /\ pod_id p = uuid4 w n
       end.
Proof.
  intros Hres Hrun Hrep. unfold load_pod.
  rewrite bind_unfold, Hres. cbn [fst snd]. rewrite bind_unfold, Hrun.
  rewrite bind_unfold.
  assert (exists msgs w1,
            match o_metadata final_opts with
            | Some reply0 =>
                if describe_truthy reply0 then mret ([], Some reply0)
                else r ← describe_pod running_pod; mret ([r.1], r.2)
            | None => r ← describe_pod running_pod; mret ([r.1], r.2)
            end w = Ok (msgs, Some reply) w1
            /\ heap w1 = heap w /\ pods w1 = pods w /\ sys_modules w1 = sys_modules w
            /\ trace w1 = trace w /\ uuid4 w1 = uuid4 w /\ drawn w <= drawn w1)
    as (msgs & w1 & -> & Hh1 & Hr1 & Hs1 & Ht1 & Hu1 & Hd1).
  { assert (status (rp_process running_pod) = Running ->
            describe_reply (child (rp_process running_pod)) = Some reply ->
            exists msgs w1,
              (r ← describe_pod running_pod; mret ([r.1], r.2)) w
              = Ok (msgs, Some reply) w1
              /\ heap w1 = heap w /\ pods w1 = pods w /\ sys_modules w1 = sys_modules w
              /\ trace w1 = trace w /\ uuid4 w1 = uuid4 w /\ drawn w <= drawn w1)
      as Hdesc.
    { intros Hst Hd. rewrite bind_unfold. unfold describe_pod.
      rewrite bind_unfold. unfold next_id at 1. rewrite Hst, Hd. simpl.
      eexists _, _. split; [reflexivity|]. simpl. repeat split; lia. }
    destruct Hrep as [[Hm Ht]|(Hm & Hst & Hd)].
    - rewrite Hm, Ht. simpl. eexists _, _. split; [reflexivity|]. repeat split; lia.
    - destruct (o_metadata final_opts) as [r|]; [|by apply Hdesc].
      rewrite (Hm r eq_refl). by apply Hdesc. }
  cbn [fst snd]. rewrite bind_unfold.
  set (get_id := match _ with Some _ => _ | None => next_id end).
  assert (exists i w2,
            get_id w1 = Ok i w2
            /\ heap w2 = heap w /\ pods w2 = pods w /\ sys_modules w2 = sys_modules w
            /\ trace w2 = trace w /\ uuid4 w2 = uuid4 w
            /\ match default [] (d_namespaces reply) with
               | first_ns :: _ =>
                   if str_truthy (nd_name first_ns) then i = nd_name first_ns
                   else exists n, drawn w <= n /\ drawn w2 = S n /\ i = uuid4 w n
               | [] => exists n, drawn w <= n /\ drawn w2 = S n /\ i = uuid4 w n
               end)
    as (i & w2 & -> & Hh2 & Hr2 & Hs2 & Ht2 & Hu2 & Hid).
  { assert (exists i w2,
              next_id w1 = Ok i w2
              /\ heap w2 = heap w /\ pods w2 = pods w /\ sys_modules w2 = sys_modules w
              /\ trace w2 = trace w /\ uuid4 w2 = uuid4 w
              /\ exists n, drawn w <= n /\ drawn w2 = S n /\ i = uuid4 w n) as Hnext.
    { unfold next_id. eexists _, _. split; [reflexivity|]. simpl.
      repeat split; try done. exists (drawn w1). by rewrite Hu1. }
    unfold get_id.
    destruct (default [] (d_namespaces reply)) as [|first_ns rest]; [exact Hnext|].
    simpl. unfold bytes_to_string.
    destruct (str_truthy (nd_name first_ns)); [|exact Hnext].
    eexists _, _. split; [reflexivity|]. done. }
  rewrite bind_unfold. unfold alloc_pod at 1.
  rewrite bind_unfold. unfold update_pod at 1, modify at 1.
  rewrite bind_unfold. unfold update_pod at 1, modify at 1.
  rewrite bind_unfold. unfold modify at 1.
  set (l := fresh (dom (heap w2))). set (w6 := with_pods _ _).
  set (nss := bencode_to_namespace l <$> default [] (d_namespaces reply)).
  assert (exists p1, heap w6 !! l = Some p1 /\ namespaces p1 = Some nss
                     /\ pod_id p1 = i /\ processor_thread p1 = Some TRunning)
    as (p1 & Hp1 & Hn1 & Hi1 & Hth1).
  { eexists. unfold w6. simpl.
    rewrite lookup_alter_eq, lookup_alter_eq, lookup_insert_eq. simpl.
    repeat split; reflexivity. }
  rewrite bind_unfold. unfold expose_non_deferred_namespaces.
  rewrite bind_unfold, (get_pod_Some _ _ _ Hp1), Hn1.
  destruct (expose_each_spec l p1 nss w6 Hp1)
    as (w7 & E & Hsm7 & Hh7 & Hr7 & Ht7 & Hu7 & Hd7).
  rewrite E. exists l, w7, p1. fold nss.
  split; [by destruct (exposure nss).2|].
  split. { rewrite <- Hh2. apply not_elem_of_dom. apply is_fresh. }
  split; [by rewrite Hh7|].
  split.
  { intros l' Hl'. rewrite Hh7. unfold w6. simpl.
    rewrite !lookup_alter_ne, lookup_insert_ne by done. by rewrite Hh2. }
  split. { rewrite Hr7, Hi1. unfold w6. simpl. by rewrite Hr2. }
  split; [exact Hth1|]. split; [exact Hn1|].
  split. { rewrite Hsm7. unfold w6. simpl. by rewrite Hs2. }
  split. { rewrite Ht7. unfold w6. simpl. exact Ht2. }
  rewrite Hd7, Hi1. unfold w6. simpl.
  destruct (default [] (d_namespaces reply)) as [|first_ns rest]; [exact Hid|].
  destruct (str_truthy (nd_name first_ns)); exact Hid.
Qed.

(** C8, as amended: once the pod runs and its describe reply is at hand
    (the one passed as [metadata], or else the one the child sends),
    [load_pod] creates and registers a pod whose id is the name of the first
    namespace of the reply when the reply advertises at least one namespace
    and that name is not empty; when no namespace is advertised, or the
    first one's name is empty, the id is a fresh one, the last [next_id]
    draws during the call.  [load_pod] returns that pod, unless a [setattr]
    raises while the namespaces are exposed: the exception then leaves
    [load_pod] with the pod registered under that id. *)
Theorem load_pod_pod_id fuel pod_spec opts final_pod_spec final_opts running_pod
    reply w :
  resolve_pod resolve pod_spec opts w = Ok (final_pod_spec, final_opts) w ->
  run_pod popen py_strip py_int fuel final_pod_spec final_opts w = Ok running_pod w ->
  (o_metadata final_opts = Some reply /\ describe_truthy reply = true)
  \/ ((forall r, o_metadata final_opts = Some r -> describe_truthy r = false)
      /\ status (rp_process running_pod) = Running
      /\ describe_reply (child (rp_process running_pod)) = Some reply) ->
  exists l w' p,
    match (exposure (bencode_to_namespace l <$> default [] (d_namespaces reply))).2 with
    | None => load_pod resolve popen py_strip py_int fuel pod_spec opts w = Ok l w'
    | Some e => load_pod resolve popen py_strip py_int fuel pod_spec opts w = Exn e w'
    end
    /\ heap w' !! l = Some p
    /\ pods w' !! pod_id p = Some l
    /\ match default [] (d_namespaces reply) with
       | first_ns :: _ =>
           if str_truthy (nd_name first_ns) then pod_id p = nd_name first_ns
           else exists n, drawn w <= n /\ drawn w' = S n /\ pod_id p = uuid4 w n
       | [] => exists n, drawn w <= n /\ drawn w' = S n /\ pod_id p = uuid4 w n
       end.
Proof.
  intros Hres Hrun Hrep.
  destruct (load_pod_after_handshake _ _ _ _ _ _ _ _ Hres Hrun Hrep)
    as (l & w' & p & H & _ & Hp & _ & Hreg & _ & _ & _ & _ & Hid).
  exists l, w', p.
  split; [by destruct (exposure _).2|].
  split; [exact Hp|]. split; [|exact Hid].
  rewrite Hreg. apply lookup_insert_eq.
Qed.

(** ** Var tables *)

Lemma odict_get_set {V} (k k0 : string) (v : V) (d : odict V) :
  odict_get k0 (odict_set k v d) = if String.eqb k k0 then Some v else odict_get k0 d.
Proof.
  induction d as [|[k' v'] d IH]; simpl; [done|].
  destruct (String.eqb k' k) eqn:E; simpl.
  - apply String.eqb_eq in E as ->. by destruct (String.eqb k k0).
  - rewrite IH. destruct (String.eqb k k0) eqn:E0; [|done].
    apply String.eqb_eq in E0 as ->. by rewrite E.
Qed.

Lemma odict_set_keys {V} (k : string) (v : V) (d : odict V) :
  NoDup d.*1 -> NoDup (odict_set k v d).*1
  /\ forall x, x ∈ (odict_set k v d).*1 <-> x = k \/ x ∈ d.*1.
Proof.
  induction d as [|[k' v'] d IH]; simpl; intros Hnd.
  - split; [apply NoDup_singleton|]. intros x. rewrite list_elem_of_singleton.
    split; [by left|]. intros [->|H]; [done|]. by apply elem_of_nil in H.
  - apply NoDup_cons in Hnd as [Hk' Hnd]. destruct (IH Hnd) as [IH1 IH2].
    destruct (String.eqb k' k) eqn:E; simpl.
    + apply String.eqb_eq in E as ->. split; [by apply NoDup_cons|].
      intros x. rewrite !elem_of_cons.
      split; [intros [?|?]; auto|intros [?|[?|?]]; auto].
    + apply String.eqb_neq in E. split.
      * apply NoDup_cons. split; [|done]. rewrite IH2. intros [->|H]; done.
      * intros x. rewrite !elem_of_cons, IH2.
        split; [intros [?|[?|?]]; auto|intros [?|[?|?]]; auto].
Qed.

(** X1.  In the table [bencode_to_vars] builds, every name occurs once,
    and a name is bound as its last descriptor in the list says; a name
    with no descriptor is not bound. *)
Theorem bencode_to_vars_last_descriptor_wins pod ns_name_str vars_list name :
  NoDup (bencode_to_vars pod ns_name_str vars_list).*1
  /\ odict_get name (bencode_to_vars pod ns_name_str vars_list)
     = bencode_to_var pod ns_name_str
         <$> last (filter (fun var => vd_name var = name) vars_list).
Proof.
  unfold bencode_to_vars.
  induction vars_list as [|var vars_list IH] using rev_ind.
  - split; [apply NoDup_nil_2|done].
  - destruct IH as [IH1 IH2]. rewrite foldl_app. cbn [foldl]. split.
    + by apply odict_set_keys.
    + rewrite odict_get_set, filter_app, filter_cons, filter_nil.
      destruct (String.eqb (vd_name var) name) eqn:E.
      * apply String.eqb_eq in E. rewrite decide_True by done.
        by rewrite last_snoc.
      * apply String.eqb_neq in E. rewrite decide_False by done.
        by rewrite app_nil_r.
Qed.

(** ** Module names *)

Lemma replace_char_absent old new s :
  old <> new -> str_contains old (replace_char old new s) = false.
Proof.
  intros Hne. induction s as [|c s IH]; simpl; [done|]. rewrite IH, orb_false_r.
  destruct (Ascii.eqb c old) eqn:E; [|done].
  apply Ascii.eqb_neq. congruence.
Qed.

Lemma replace_char_keeps_absent old new c s :
  c <> new -> str_contains c s = false ->
  str_contains c (replace_char old new s) = false.
Proof.
  intros Hne. induction s as [|c' s IH]; simpl; [done|].
  intros H. apply orb_false_iff in H as [H1 H2]. rewrite (IH H2), orb_false_r.
  destruct (Ascii.eqb c' old); [|done]. apply Ascii.eqb_neq. congruence.
Qed.

Lemma replace_char_noop old new s :
  str_contains old s = false -> replace_char old new s = s.
Proof.
  induction s as [|c s IH]; simpl; [done|].
  intros H. apply orb_false_iff in H as [H1 H2]. by rewrite H1, (IH H2).
Qed.

(** X2.  A module name has no ['.'] and no ['-'] left, and naming is
    idempotent: the module name of a module name is itself.  So a
    namespace whose name has neither character is registered under its own
    name. *)
Theorem module_name_has_no_dot_or_dash s :
  str_contains "." (namespace_to_module_name s) = false
  /\ str_contains "-" (namespace_to_module_name s) = false
  /\ namespace_to_module_name (namespace_to_module_name s) = namespace_to_module_name s
  /\ (str_contains "." s = false -> str_contains "-" s = false ->
      namespace_to_module_name s = s).
Proof.
  unfold namespace_to_module_name.
  assert (str_contains "." (replace_char "-" "_" (replace_char "." "_" s)) = false) as H1.
  { apply replace_char_keeps_absent; [done|]. by apply replace_char_absent. }
  assert (str_contains "-" (replace_char "-" "_" (replace_char "." "_" s)) = false) as H2
    by by apply replace_char_absent.
  split; [exact H1|]. split; [exact H2|]. split.
  - rewrite (replace_char_noop "." "_" _ H1). by apply replace_char_idem.
  - intros Hd Hm. rewrite (replace_char_noop "." "_" s Hd).
    by apply replace_char_noop.
Qed.

(** ** The module table after several exposures *)

Lemma register_modules_lookup pod_id nss sm k :
  register_modules pod_id nss sm !! k =
    match last (filter (fun ns => namespace_to_module_name (ns_name ns) = k) nss) with
    | Some ns => Some (namespace_module pod_id ns)
    | None => sm !! k
    end.
Proof.
  unfold register_modules. induction nss as [|ns nss IH] using rev_ind; [done|].
  rewrite foldl_app. cbn [foldl]. rewrite filter_app, filter_cons, filter_nil.
  destruct (decide (namespace_to_module_name (ns_name ns) = k)) as [<-|Hne].
  - by rewrite lookup_insert_eq, last_snoc.
  - rewrite lookup_insert_ne by done. by rewrite app_nil_r.
Qed.

(** X3.  [expose_non_deferred_namespaces] exposes the namespaces of the pod
    that are not deferred, in order, and returns their modules -- all of
    them when no [setattr] raises; when one does, the exception leaves the
    function and the modules of the namespaces before it stay registered.
    Afterwards a module name is held by the last exposed namespace that maps
    to it -- two namespaces with the same module name do not coexist -- and
    every other entry of [sys.modules] is as it was. *)
Theorem expose_non_deferred_last_namespace_wins pod p nss w :
  heap w !! pod = Some p ->
  namespaces p = Some nss ->
  exists w',
    expose_non_deferred_namespaces pod w
      = match (exposure nss).2 with
        | None => Ok (namespace_module (pod_id p) <$> non_deferred nss) w'
        | Some e => Exn e w'
        end
    /\ ((exposure nss).2 = None -> (exposure nss).1 = non_deferred nss)
    /\ forall k,
         sys_modules w' !! k =
           match last (filter (fun ns => namespace_to_module_name (ns_name ns) = k)
                              (exposure nss).1) with
           | Some ns => Some (namespace_module (pod_id p) ns)
           | None => sys_modules w !! k
           end.
Proof.
  intros Hp Hn. unfold expose_non_deferred_namespaces.
  rewrite bind_unfold, (get_pod_Some _ _ _ Hp), Hn.
  destruct (expose_each_spec pod p nss w Hp) as (w' & E & Hsm & _).
  exists w'. split.
  { rewrite E. destruct (exposure nss).2 eqn:Hex; [done|]. by rewrite exposure_all. }
  split; [apply exposure_all|].
  intros k. rewrite Hsm. apply register_modules_lookup.
Qed.

(** ** Tracking and unregistering modules *)

(** X4.  When no [setattr] raises, [expose_namespace_as_module] records
    the namespace under the pod's id and the namespace's name in
    [loaded_namespaces], keeps every other record, those of other pods
    included, and changes nothing besides the two tables; when a [setattr]
    raises, the exception leaves the function and nothing has changed. *)
Theorem expose_tracks_namespace pod p namespace w :
  heap w !! pod = Some p ->
  match vars_error (ns_vars namespace) with
  | None =>
      exists m w',
        expose_namespace_as_module pod namespace w = Ok m w'
        /\ (forall pid n,
              (loaded_namespaces w' !! pid ≫= fun t => t !! n) =
                if decide (pid = pod_id p /\ n = ns_name namespace) then Some namespace
                else loaded_namespaces w !! pid ≫= fun t => t !! n)
        /\ same_but_modules w w'
  | Some e => expose_namespace_as_module pod namespace w = Exn e w
  end.
Proof.
  intros Hp. destruct (vars_error (ns_vars namespace)) as [e|] eqn:Herr.
  { by apply (expose_namespace_as_module_raises pod p). }
  unfold expose_namespace_as_module.
  rewrite bind_unfold, (get_pod_Some _ _ _ Hp). cbv zeta.
  rewrite bind_unfold, expose_vars_spec, Herr.
  eexists _, _. split; [reflexivity|]. split; [|by repeat split].
  intros pid n. simpl.
  destruct (decide (pid = pod_id p)) as [->|Hpid].
  - rewrite lookup_insert_eq. simpl.
    destruct (decide (n = ns_name namespace)) as [->|Hn].
    + rewrite lookup_insert_eq. by rewrite decide_True.
    + rewrite lookup_insert_ne by done. rewrite decide_False by (by intros [_ ?]).
      by destruct (loaded_namespaces w !! pod_id p).
  - rewrite lookup_insert_ne by done. by rewrite decide_False by (by intros [? _]).
Qed.

Lemma unregister_pod_modules_spec pod_id w :
  unregister_pod_modules pod_id w =
    Ok tt (with_loaded_namespaces (delete pod_id (loaded_namespaces w))
             (with_sys_modules
                (filter (fun kv => module_of_pod pod_id kv.2 = false) (sys_modules w)) w)).
Proof. reflexivity. Qed.

Lemma unregistered_lookup pod_id (sm : gmap string Module) k :
  filter (fun kv => module_of_pod pod_id kv.2 = false) sm !! k =
    match sm !! k with
    | Some m => if module_of_pod pod_id m then None else Some m
    | None => None
    end.
Proof.
  rewrite map_lookup_filter. destruct (sm !! k) as [m|]; [|done]. simpl.
  destruct (module_of_pod pod_id m).
  - by rewrite option_guard_False.
  - by rewrite option_guard_True.
Qed.

(** X5.  [unregister_pod_modules] removes from [sys.modules] exactly the
    modules whose [__pod_id__] attribute is the given id, keeps all the
    others, drops the pod's record in [loaded_namespaces] only, and doing it
    twice is the same as doing it once. *)
Theorem unregister_removes_the_pods_modules_only pod_id w :
  exists w',
    unregister_pod_modules pod_id w = Ok tt w'
    /\ (forall k,
          sys_modules w' !! k =
            match sys_modules w !! k with
            | Some m => if module_of_pod pod_id m then None else Some m
            | None => None
            end)
    /\ loaded_namespaces w' = delete pod_id (loaded_namespaces w)
    /\ heap w' = heap w /\ pods w' = pods w /\ trace w' = trace w
    /\ unregister_pod_modules pod_id w' = Ok tt w'.
Proof.
  rewrite unregister_pod_modules_spec. eexists. split; [reflexivity|].
  split; [intros k; apply unregistered_lookup|].
  split; [reflexivity|]. split; [reflexivity|]. split; [reflexivity|].
  split; [reflexivity|].
  rewrite unregister_pod_modules_spec. f_equal. simpl.
  rewrite delete_delete_eq.
  replace (filter (fun kv => module_of_pod pod_id kv.2 = false)
             (filter (fun kv => module_of_pod pod_id kv.2 = false) (sys_modules w)))
    with (filter (fun kv : string * Module => module_of_pod pod_id kv.2 = false)
            (sys_modules w)); [done|].
  apply map_eq. intros k. rewrite !unregistered_lookup.
  destruct (sys_modules w !! k) as [m|]; [|done].
  destruct (module_of_pod pod_id m) eqn:E; [done|]. by rewrite E.
Qed.

(** X6.  Exposing a namespace and then unregistering the pod's modules
    removes the module again, unless the module's [__pod_id__] is no longer
    the pod's id: that is so when the last var of the namespace named
    [__pod_id__] (or with that snake-case alias) is anything but inline code
    equal to the pod's id, and [unregister_pod_modules] then keeps the
    module. *)
Theorem expose_then_unregister pod p namespace w :
  heap w !! pod = Some p ->
  vars_error (ns_vars namespace) = None ->
  exists m w1 w2,
    expose_namespace_as_module pod namespace w = Ok m w1
    /\ unregister_pod_modules (pod_id p) w1 = Ok tt w2
    /\ loaded_namespaces w2 !! pod_id p = None
    /\ sys_modules w2 !! namespace_to_module_name (ns_name namespace) =
         match last (filter (binds "__pod_id__") (ns_vars namespace)) with
         | Some item =>
             if decide (var_object item.2 = AStr (pod_id p)) then None else Some m
         | None => None
         end.
Proof.
  intros Hp Hok.
  destruct (expose_namespace_as_module_spec pod p namespace w Hp Hok)
    as (w1 & E1 & Hsm1 & _ & _).
  eexists _, w1, _.
  split; [exact E1|]. split; [apply unregister_pod_modules_spec|]. simpl.
  split; [apply lookup_delete_eq|].
  rewrite unregistered_lookup, Hsm1, lookup_insert_eq.
  unfold module_of_pod, namespace_module. rewrite foldl_bind_func_lookup.
  destruct (last (filter (binds "__pod_id__") (ns_vars namespace)))
    as [item|] eqn:Hlast.
  - destruct (decide (var_object item.2 = AStr (pod_id p))) as [Heq|Hne].
    + rewrite bool_decide_eq_true_2; [done|]. by rewrite Heq.
    + rewrite bool_decide_eq_false_2; [done|].
      intros Heq. apply Hne. by inversion Heq.
  - rewrite bool_decide_eq_true_2; [done|].
    unfold new_module. by rewrite lookup_insert_eq.
Qed.

(** ** What [destroy] does besides unregistering the pod *)

(** X7.  [destroy_pod] writes a shutdown request, with a fresh id, only
    when the pod advertises the [shutdown] op and still runs; a running
    child that obeys within the wait has exited, any other running child is
    terminated, and a process that had ended is left as it was.  The
    waiters are not touched. *)
Theorem destroy_pod_asks_or_terminates l p w :
  heap w !! l = Some p ->
  exists w' p',
    destroy_pod l w = Ok tt w'
    /\ heap w' = <[l := p']> (heap w)
    /\ stdin p' =
         stdin p ++
         match status (process p) with
         | Running =>
             if bool_decide ("shutdown" ∈ ops p)
             then [ {| m_op := "shutdown"; m_id := uuid4 w (drawn w); m_var := None;
                       m_args := None; m_ns := None |} ]
             else []
         | _ => []
         end
    /\ status (process p') =
         match status (process p) with
         | Running =>
             if bool_decide ("shutdown" ∈ ops p) && exits_on_shutdown (child (process p))
             then Exited else Terminated
         | s => s
         end
    /\ chans p' = chans p.
Proof.
  intros Hp.
  assert (forall q w0, heap w0 !! l = Some q ->
            terminate l w0 =
              Ok tt (with_heap (<[l := match status (process q) with
                                       | Running =>
                                           with_process
                                             {| pid := pid (process q);
                                                status := Terminated;
                                                child := child (process q) |} q
                                       | _ => q
                                       end]> (heap w0)) w0)) as Hterm.
  { intros q w0 Hq. unfold terminate. by rewrite (update_pod_spec _ _ _ _ Hq). }
  unfold destroy_pod. rewrite bind_unfold, (get_pod_Some _ _ _ Hp).
  destruct (bool_decide ("shutdown" ∈ ops p)).
  - unfold try_except. rewrite bind_unfold. unfold next_id at 1.
    set (w1 := with_drawn (S (drawn w)) w).
    assert (heap w1 !! l = Some p) as Hp1 by exact Hp.
    rewrite bind_unfold. unfold write_message.
    rewrite bind_unfold, (get_pod_Some _ _ _ Hp1).
    destruct (status (process p)) eqn:Hst.
    + rewrite (update_pod_spec _ _ _ _ Hp1).
      set (q := with_stdout _ (with_stdin _ p)).
      set (w2 := with_heap _ w1).
      assert (heap w2 !! l = Some q) as Hq by (unfold w2; simpl; by rewrite lookup_insert_eq).
      unfold process_wait. rewrite bind_unfold, (get_pod_Some _ _ _ Hq).
      assert (status (process q) = Running) as Hsq by exact Hst. rewrite Hsq.
      assert (child (process q) = child (process p)) as Hcq by reflexivity.
      rewrite Hcq.
      destruct (exits_on_shutdown (child (process p))).
      * rewrite (update_pod_spec _ _ _ _ Hq).
        eexists _, _. split; [reflexivity|]. split.
        { unfold w2. simpl. by rewrite insert_insert_eq. }
        simpl. done.
      * unfold raise. rewrite (Hterm q w2 Hq), Hsq.
        eexists _, _. split; [reflexivity|]. split.
        { unfold w2. simpl. by rewrite insert_insert_eq. }
        simpl. done.
    + unfold raise. rewrite (Hterm p w1 Hp1), Hst.
      exists (with_heap (<[l := p]> (heap w1)) w1), p.
      split; [reflexivity|]. rewrite app_nil_r. done.
    + unfold raise. rewrite (Hterm p w1 Hp1), Hst.
      exists (with_heap (<[l := p]> (heap w1)) w1), p.
      split; [reflexivity|]. rewrite app_nil_r. done.
  - rewrite (Hterm p w Hp). eexists _, _. split; [reflexivity|].
    split; [reflexivity|].
    destruct (status (process p)) eqn:Hst; simpl; rewrite ?Hst, app_nil_r; done.
Qed.

(** X8.  [destroy] on the id of a registered pod calls the pod's
    [remove_ns] hook once for each of its namespaces, in order, with the
    namespace name -- and calls nothing when the pod has no hook; it removes
    the modules registered for that id and the id's record in
    [loaded_namespaces], and keeps every other module and every other
    registered pod. *)
Theorem destroy_runs_hook_and_unregisters i l p w :
  pods w !! i = Some l ->
  heap w !! l = Some p ->
  exists w',
    destroy (ById i) w = Ok tt w'
    /\ trace w' =
         trace w ++
         match remove_ns p with
         | Some f => (fun n => ECall f [PStr (ns_name n)]) <$> default [] (namespaces p)
         | None => []
         end
    /\ (forall k,
          sys_modules w' !! k =
            match sys_modules w !! k with
            | Some m => if module_of_pod i m then None else Some m
            | None => None
            end)
    /\ loaded_namespaces w' = delete i (loaded_namespaces w)
    /\ (forall j, j <> i -> pods w' !! j = pods w !! j).
Proof.
  intros Hi Hp. unfold destroy.
  rewrite bind_unfold. simpl. rewrite bind_unfold. unfold lookup_pod at 1.
  rewrite bind_unfold. simpl. rewrite Hi.
  rewrite bind_unfold. rewrite bind_unfold, unregister_pod_modules_spec.
  set (w0 := with_loaded_namespaces _ _).
  assert (heap w0 !! l = Some p) as Hp0 by exact Hp.
  destruct (destroy_pod_spec l p w0 Hp0) as (p' & n & E & Hc & Hn & Hr & Hid & Ht & Hs).
  rewrite bind_unfold, E. set (w1 := with_heap _ _).
  assert (heap w1 !! l = Some p') as Hp1 by (unfold w1; simpl; by rewrite lookup_insert_eq).
  rewrite bind_unfold, (get_pod_Some _ _ _ Hp1). rewrite Hr, Hn.
  destruct (remove_ns p) as [f|].
  - rewrite remove_each_spec. unfold modify. eexists. split; [reflexivity|]. simpl.
    split; [done|]. split; [intros k; apply unregistered_lookup|].
    split; [done|]. intros j Hj. by rewrite lookup_delete_ne.
  - unfold modify. eexists. split; [reflexivity|]. simpl.
    split; [by rewrite app_nil_r|]. split; [intros k; apply unregistered_lookup|].
    split; [done|]. intros j Hj. by rewrite lookup_delete_ne.
Qed.

(** ** Calls from start to end *)

(** [invoke] up to the point where the request has been written. *)
Lemma invoke_sent pod p pod_var args handlers encoded w :
  heap w !! pod = Some p ->
  status (process p) = Running ->
  write_fn to_edn json_dumps py_str (format p) args = Some encoded ->
  let i := uuid4 w (drawn w) in
  let request := invoke_request i pod_var encoded in
  let p2 :=
    with_stdout (stdout p ++ respond (child (process p)) request)
      (with_stdin (stdin p ++ [request])
         (with_chans (<[i := invoke_waiter handlers]> (chans p)) p)) in
  let w2 := with_heap (<[pod := p2]> (heap w)) (with_drawn (S (drawn w)) w) in
  invoke from_edn json_loads to_edn json_dumps py_str pod pod_var args handlers w =
    match invoke_waiter handlers with
    | WHandlers _ => Ok None w2
    | WFuture _ =>
        (result ← chan_result from_edn json_loads pod i; mret (Some result)) w2
    end.
Proof.
  intros Hp Hst He i request p2 w2. subst w2 p2 request i. unfold invoke.
  rewrite bind_unfold, (get_pod_Some _ _ _ Hp). rewrite bind_unfold. unfold next_id at 1.
  set (w1 := with_drawn _ w).
  assert (heap w1 !! pod = Some p) as Hp1 by exact Hp.
  rewrite bind_unfold, (update_pod_spec _ _ _ _ Hp1). rewrite He.
  set (chan := match handlers return Waiter with
               | Some h => _
               | None => WFuture Pending
               end).
  assert (chan = invoke_waiter handlers) as ->.
  { unfold chan, invoke_waiter. destruct handlers as [h|]; [|done].
    by destruct (bool_decide (h = ∅)). }
  set (w1' := with_heap _ w1).
  assert (heap w1' !! pod
          = Some (with_chans (<[uuid4 w (drawn w) := invoke_waiter handlers]> (chans p)) p))
    as Hp1' by (unfold w1'; simpl; by rewrite lookup_insert_eq).
  rewrite bind_unfold. unfold write_message.
  rewrite bind_unfold, (get_pod_Some _ _ _ Hp1'). simpl. rewrite Hst.
  rewrite (update_pod_spec _ _ _ _ Hp1'). simpl. rewrite insert_insert_eq.
  unfold invoke_waiter. destruct handlers as [h|]; [|reflexivity].
  destruct (bool_decide (h = ∅)); reflexivity.
Qed.

Lemma value_done_envelope_settles pod p i s v w :
  heap w !! pod = Some p ->
  chans p !! i = Some (WFuture Pending) ->
  read_fn from_edn json_loads (format p) s = Some v ->
  processor_body from_edn json_loads pod (value_done_envelope i s) w =
    Ok tt (with_heap
             (<[pod := with_chans (<[i := WFuture (Finished (RVal v))]> (chans p)) p]>
                (heap w)) w).
Proof.
  intros Hp Hc Hr.
  rewrite (processor_body_served _ _ _ _ _ _ Hp
             (reply_chan_Some _ (value_done_envelope i s) _ _ eq_refl Hc)).
  simpl. rewrite app_nil_r, world_eta. rewrite bind_unfold.
  unfold handle_response, handle_done, reply_done, reply_error, reply_status,
    decode_value, bytes_to_string. simpl. rewrite Hr. simpl.
  unfold set_result.
  assert (forall w0 q f, heap w0 !! pod = Some q ->
            chans q !! i = Some (WFuture f) -> future_done f = true ->
            (p0 ← get_pod pod;
             match chans p0 !! i with
             | Some (WFuture f0) =>
                 if negb (future_done f0) then settle pod i (Finished (RVal PNone))
                 else mret tt
             | _ => mret tt
             end) w0 = Ok tt w0) as Hskip.
  { intros w0 q f Hq Hf Hd. rewrite bind_unfold, (get_pod_Some _ _ _ Hq), Hf.
    by rewrite Hd. }
  destruct v;
    try (rewrite (settle_pending _ _ _ _ _ Hp Hc);
         erewrite Hskip; [reflexivity|simpl; apply lookup_insert_eq
                         |simpl; apply lookup_insert_eq|reflexivity]).
  simpl. rewrite bind_unfold, (get_pod_Some _ _ _ Hp), Hc. simpl.
  by rewrite (settle_pending _ _ _ _ _ Hp Hc).
Qed.

(** The reader thread on one unread envelope that the loop body handles
    without raising. *)
Lemma processor_one_envelope pod p reply w w' :
  heap w !! pod = Some p ->
  processor_thread p = Some TRunning ->
  stdout p = [reply] ->
  status (process p) = Running ->
  processor_body from_edn json_loads pod reply
    (with_heap (<[pod := with_stdout [] p]> (heap w)) w) = Ok tt w' ->
  (exists p', heap w' !! pod = Some p' /\ status (process p') = Running) ->
  processor from_edn json_loads pod w = Ok tt w'.
Proof.
  intros Hp Ht Hs Hst Hb (p' & Hp' & Hst'). unfold processor.
  rewrite bind_unfold, (get_pod_Some _ _ _ Hp), Ht, Hs.
  unfold try_except. rewrite bind_unfold, processor_loop_cons.
  rewrite bind_unfold, (update_pod_spec _ _ _ _ Hp).
  rewrite bind_unfold, Hb. simpl.
  rewrite bind_unfold, (get_pod_Some _ _ _ Hp'), Hst'. reflexivity.
Qed.

(** X9.  A call without handlers, on a running pod whose reader thread
    runs and has nothing unread, to which the pod answers with one envelope
    carrying a value that decodes and the status [done]: [invoke] writes the
    request with the encoded arguments and returns the decoded value. *)
Theorem invoke_returns_decoded_value pod p pod_var args encoded s v w :
  heap w !! pod = Some p ->
  status (process p) = Running ->
  processor_thread p = Some TRunning ->
  stdout p = [] ->
  write_fn to_edn json_dumps py_str (format p) args = Some encoded ->
  respond (child (process p)) (invoke_request (uuid4 w (drawn w)) pod_var encoded)
    = [value_done_envelope (uuid4 w (drawn w)) s] ->
  read_fn from_edn json_loads (format p) s = Some v ->
  exists w' p',
    invoke from_edn json_loads to_edn json_dumps py_str pod pod_var args None w
      = Ok (Some (RVal v)) w'
    /\ heap w' !! pod = Some p'
    /\ stdin p' = stdin p ++ [invoke_request (uuid4 w (drawn w)) pod_var encoded]
    /\ chans p' !! uuid4 w (drawn w) = Some (WFuture (Finished (RVal v))).
Proof.
  intros Hp Hst Ht Hs He Hresp Hr.
  rewrite (invoke_sent pod p pod_var args None encoded w Hp Hst He). cbv zeta.
  simpl. rewrite Hs, Hresp. simpl.
  set (i := uuid4 w (drawn w)). set (request := invoke_request i pod_var encoded).
  set (p2 := with_stdout _ _). set (w2 := with_heap _ _).
  assert (heap w2 !! pod = Some p2) as Hp2 by (unfold w2; simpl; by rewrite lookup_insert_eq).
  set (p3 := with_stdout [] p2).
  set (w3 := with_heap (<[pod := p3]> (heap w2)) w2).
  assert (heap w3 !! pod = Some p3) as Hp3 by (unfold w3; simpl; by rewrite lookup_insert_eq).
  assert (chans p3 !! i = Some (WFuture Pending)) as Hc3
    by (unfold p3, p2; simpl; by rewrite lookup_insert_eq).
  pose proof (value_done_envelope_settles pod p3 i s v w3 Hp3 Hc3 Hr) as Hbody.
  set (w4 := with_heap _ w3) in Hbody.
  assert (processor from_edn json_loads pod w2 = Ok tt w4) as Hproc.
  { apply (processor_one_envelope pod p2 (value_done_envelope i s) w2 w4 Hp2);
      [exact Ht|reflexivity|exact Hst|exact Hbody|].
    eexists. unfold w4. simpl. rewrite lookup_insert_eq. split; [reflexivity|exact Hst]. }
  rewrite bind_unfold. unfold chan_result. rewrite bind_unfold, Hproc.
  assert (exists p4, heap w4 !! pod = Some p4
                     /\ chans p4 !! i = Some (WFuture (Finished (RVal v)))
                     /\ stdin p4 = stdin p ++ [request]) as (p4 & Hp4 & Hc4 & Hi4).
  { eexists. unfold w4. simpl. rewrite lookup_insert_eq. split; [reflexivity|].
    simpl. rewrite lookup_insert_eq. done. }
  rewrite bind_unfold, (get_pod_Some _ _ _ Hp4), Hc4. simpl.
  exists w4, p4. done.
Qed.

Lemma error_reply_fails_future pod p i reply w :
  heap w !! pod = Some p ->
  r_id reply = Some i ->
  chans p !! i = Some (WFuture Pending) ->
  reply_error from_edn json_loads (format p) reply = true ->
  processor_body from_edn json_loads pod reply w =
    Ok tt (with_heap
             (<[pod := with_chans
                         (<[i := WFuture (Failed (mk_PodError
                                  (reply_ex_message from_edn json_loads (format p) reply)
                                  (reply_ex_data from_edn json_loads (format p) reply)))]>
                            (chans p)) p]> (heap w))
             (with_trace (trace w ++ forwarded (out p) (r_out reply)
                            ++ forwarded (err p) (r_err reply)) w)).
Proof.
  intros Hp Hi Hc He.
  rewrite (processor_body_served _ _ _ _ _ _ Hp (reply_chan_Some _ _ _ _ Hi Hc)).
  set (w1 := with_trace _ w).
  assert (heap w1 !! pod = Some p) as Hp1 by exact Hp.
  rewrite bind_unfold. unfold handle_response, handle_done. cbv zeta.
  rewrite He, orb_true_r. simpl. rewrite andb_false_r.
  unfold set_exception. by rewrite (settle_pending _ _ _ _ _ Hp1 Hc).
Qed.

(** X10.  A call without handlers to which the pod answers with one
    envelope that is an error (status [error], or a value that does not
    decode): [invoke] raises [PodError] with the envelope's [ex-message] and
    its decoded [ex-data]. *)
Theorem invoke_raises_pod_error pod p pod_var args encoded reply w :
  heap w !! pod = Some p ->
  status (process p) = Running ->
  processor_thread p = Some TRunning ->
  stdout p = [] ->
  write_fn to_edn json_dumps py_str (format p) args = Some encoded ->
  respond (child (process p)) (invoke_request (uuid4 w (drawn w)) pod_var encoded)
    = [reply] ->
  r_id reply = Some (uuid4 w (drawn w)) ->
  reply_error from_edn json_loads (format p) reply = true ->
  exists w',
    invoke from_edn json_loads to_edn json_dumps py_str pod pod_var args None w
      = Exn (mk_PodError (reply_ex_message from_edn json_loads (format p) reply)
                         (reply_ex_data from_edn json_loads (format p) reply)) w'.
Proof.
  intros Hp Hst Ht Hs He Hresp Hi Herr.
  rewrite (invoke_sent pod p pod_var args None encoded w Hp Hst He). cbv zeta.
  simpl. rewrite Hs, Hresp. simpl.
  set (i := uuid4 w (drawn w)) in *. set (request := invoke_request i pod_var encoded).
  set (p2 := with_stdout _ _). set (w2 := with_heap _ _).
  assert (heap w2 !! pod = Some p2) as Hp2 by (unfold w2; simpl; by rewrite lookup_insert_eq).
  set (p3 := with_stdout [] p2).
  set (w3 := with_heap (<[pod := p3]> (heap w2)) w2).
  assert (heap w3 !! pod = Some p3) as Hp3 by (unfold w3; simpl; by rewrite lookup_insert_eq).
  assert (chans p3 !! i = Some (WFuture Pending)) as Hc3
    by (unfold p3, p2; simpl; by rewrite lookup_insert_eq).
  pose proof (error_reply_fails_future pod p3 i reply w3 Hp3 Hi Hc3 Herr) as Hbody.
  set (w4 := with_heap _ _) in Hbody.
  assert (processor from_edn json_loads pod w2 = Ok tt w4) as Hproc.
  { apply (processor_one_envelope pod p2 reply w2 w4 Hp2);
      [exact Ht|reflexivity|exact Hst|exact Hbody|].
    eexists. unfold w4. simpl. rewrite lookup_insert_eq. split; [reflexivity|exact Hst]. }
  rewrite bind_unfold. unfold chan_result. rewrite bind_unfold, Hproc.
  assert (exists p4, heap w4 !! pod = Some p4
            /\ chans p4 !! i
               = Some (WFuture (Failed (mk_PodError
                    (reply_ex_message from_edn json_loads (format p) reply)
                    (reply_ex_data from_edn json_loads (format p) reply)))))
    as (p4 & Hp4 & Hc4).
  { eexists. unfold w4. simpl. rewrite lookup_insert_eq. split; [reflexivity|].
    simpl. by rewrite lookup_insert_eq. }
  rewrite bind_unfold, (get_pod_Some _ _ _ Hp4), Hc4. simpl.
  by exists w4.
Qed.

(** X11.  A call with a handlers dictionary that is not empty does not
    wait for the pod: whatever the pod answers, and whether or not the
    reader thread still runs, [invoke] registers the handlers under the
    fresh id, writes the request and returns [None]; and however the reader
    thread goes on from there, the handlers stay registered under that
    id. *)
Theorem invoke_with_handlers_returns_at_once pod p pod_var args encoded h w :
  heap w !! pod = Some p ->
  status (process p) = Running ->
  write_fn to_edn json_dumps py_str (format p) args = Some encoded ->
  h <> ∅ ->
  exists w' p',
    invoke from_edn json_loads to_edn json_dumps py_str pod pod_var args (Some h) w
      = Ok None w'
    /\ heap w' !! pod = Some p'
    /\ chans p' !! uuid4 w (drawn w) = Some (WHandlers h)
    /\ stdin p' = stdin p ++ [invoke_request (uuid4 w (drawn w)) pod_var encoded]
    /\ after (processor from_edn json_loads pod w')
              (fun w'' => exists p'',
                 heap w'' !! pod = Some p''
                 /\ chans p'' !! uuid4 w (drawn w) = Some (WHandlers h)).
Proof.
  intros Hp Hst He Hh.
  rewrite (invoke_sent pod p pod_var args (Some h) encoded w Hp Hst He). cbv zeta.
  unfold invoke_waiter. rewrite bool_decide_eq_false_2 by done.
  eexists _, _. split; [reflexivity|]. simpl. rewrite lookup_insert_eq.
  split; [reflexivity|]. split; [simpl; by rewrite lookup_insert_eq|].
  split; [reflexivity|].
  set (p' := with_stdout _ _). set (w' := with_heap _ _).
  assert (heap w' !! pod = Some p') as Hp'
    by (unfold w'; simpl; by rewrite lookup_insert_eq).
  pose proof (processor_evolve pod w') as Hev. unfold after in *.
  destruct (final_world _) as [w''|]; [|done].
  destruct (Hev pod p' Hp') as (p'' & Hp'' & Hc).
  exists p''. split; [exact Hp''|].
  specialize (Hc (uuid4 w (drawn w))).
  assert (chans p' !! uuid4 w (drawn w) = Some (WHandlers h)) as Hc'
    by (unfold p'; simpl; by rewrite lookup_insert_eq).
  rewrite Hc' in Hc. inversion Hc as [a b Hle|]; subst.
  destruct Hle as [<-|[Hf _]]; [done|discriminate].
Qed.

(** X12.  When the request cannot be sent -- the arguments do not encode,
    or the pod no longer runs -- [invoke] raises ([EncodeError] first,
    [BrokenPipeError] otherwise), nothing is written, and the waiter it had
    already registered under the fresh id stays in [chans]. *)
Theorem invoke_that_cannot_send_leaves_waiter pod p pod_var args handlers w :
  heap w !! pod = Some p ->
  write_fn to_edn json_dumps py_str (format p) args = None
  \/ status (process p) <> Running ->
  exists w' p',
    invoke from_edn json_loads to_edn json_dumps py_str pod pod_var args handlers w
      = Exn (match write_fn to_edn json_dumps py_str (format p) args with
             | None => EncodeError
             | Some _ => BrokenPipeError
             end) w'
    /\ heap w' !! pod = Some p'
    /\ chans p' = <[uuid4 w (drawn w) := invoke_waiter handlers]> (chans p)
    /\ stdin p' = stdin p.
Proof.
  intros Hp Hcant. unfold invoke.
  rewrite bind_unfold, (get_pod_Some _ _ _ Hp). rewrite bind_unfold. unfold next_id at 1.
  set (w1 := with_drawn _ w).
  assert (heap w1 !! pod = Some p) as Hp1 by exact Hp.
  rewrite bind_unfold, (update_pod_spec _ _ _ _ Hp1).
  set (chan := match handlers return Waiter with
               | Some h => _
               | None => WFuture Pending
               end).
  assert (chan = invoke_waiter handlers) as ->.
  { unfold chan, invoke_waiter. destruct handlers as [h|]; [|done].
    by destruct (bool_decide (h = ∅)). }
  set (w2 := with_heap _ w1).
  assert (heap w2 !! pod
          = Some (with_chans (<[uuid4 w (drawn w) := invoke_waiter handlers]> (chans p)) p))
    as Hp2 by (unfold w2; simpl; by rewrite lookup_insert_eq).
  destruct (write_fn to_edn json_dumps py_str (format p) args) as [encoded|].
  - destruct Hcant as [?|Hst]; [done|].
    rewrite bind_unfold. unfold write_message.
    rewrite bind_unfold, (get_pod_Some _ _ _ Hp2). simpl.
    destruct (status (process p)); [done|..];
      (eexists _, _; split; [reflexivity|]; split; [exact Hp2|done]).
  - eexists _, _. split; [reflexivity|]. split; [exact Hp2|done].
Qed.

(** X13.  Once the reader thread of a pod has ended, a call without
    handlers still registers its future and writes its request, and then
    waits for ever: whatever the pod answers stays unread. *)
Theorem invoke_after_reader_ended_waits_for_ever pod p pod_var args encoded w :
  heap w !! pod = Some p ->
  status (process p) = Running ->
  processor_thread p = Some TFinished ->
  write_fn to_edn json_dumps py_str (format p) args = Some encoded ->
  exists w' p',
    invoke from_edn json_loads to_edn json_dumps py_str pod pod_var args None w
      = Blocked w'
    /\ heap w' !! pod = Some p'
    /\ chans p' !! uuid4 w (drawn w) = Some (WFuture Pending)
    /\ stdin p' = stdin p ++ [invoke_request (uuid4 w (drawn w)) pod_var encoded]
    /\ stdout p' = stdout p ++ respond (child (process p))
                                 (invoke_request (uuid4 w (drawn w)) pod_var encoded).
Proof.
  intros Hp Hst Ht He.
  rewrite (invoke_sent pod p pod_var args None encoded w Hp Hst He). cbv zeta.
  simpl. set (p2 := with_stdout _ _). set (w2 := with_heap _ _).
  assert (heap w2 !! pod = Some p2) as Hp2 by (unfold w2; simpl; by rewrite lookup_insert_eq).
  rewrite bind_unfold. unfold chan_result, processor.
  rewrite bind_unfold, bind_unfold, (get_pod_Some _ _ _ Hp2).
  assert (processor_thread p2 = Some TFinished) as -> by exact Ht. simpl.
  rewrite bind_unfold, (get_pod_Some _ _ _ Hp2).
  assert (chans p2 !! uuid4 w (drawn w) = Some (WFuture Pending)) as Hc2
    by (unfold p2; simpl; by rewrite lookup_insert_eq).
  rewrite Hc2. exists w2, p2. done.
Qed.

(** X14.  [invoke_public] finds the pod by id only: given the pod
    dictionary [load_pod] returned, or an id that is not registered, it
    raises [ValueError] and touches nothing -- the message names the id
    that was looked up, [None] for a pod dictionary; given a registered id
    it is [invoke] on that pod. *)
Theorem invoke_public_wants_the_pod_id fn_sym args handlers w :
  (forall l p, heap w !! l = Some p ->
     invoke_public from_edn json_loads to_edn json_dumps py_str (ByPod l) fn_sym args
       handlers w = Exn (ValueError "Pod None not found") w)
  /\ (forall i, pods w !! i = None ->
        invoke_public from_edn json_loads to_edn json_dumps py_str (ById i) fn_sym args
          handlers w
        = Exn (ValueError (String.append "Pod " (String.append i " not found"))) w)
  /\ (forall i l, pods w !! i = Some l ->
        invoke_public from_edn json_loads to_edn json_dumps py_str (ById i) fn_sym args
          handlers w
        = invoke from_edn json_loads to_edn json_dumps py_str l fn_sym args handlers w).
Proof.
  split; [|split].
  - intros l p Hp. unfold invoke_public, get_pod_id_from_spec.
    rewrite bind_unfold, bind_unfold, (get_pod_Some _ _ _ Hp).
    rewrite pod_has_no_pod_slash_id. reflexivity.
  - intros i Hi. unfold invoke_public. rewrite bind_unfold. simpl.
    rewrite bind_unfold. unfold lookup_pod at 1. rewrite bind_unfold. simpl.
    by rewrite Hi.
  - intros i l Hi. unfold invoke_public. rewrite bind_unfold. simpl.
    rewrite bind_unfold. unfold lookup_pod at 1. rewrite bind_unfold. simpl.
    by rewrite Hi.
Qed.

(** ** What the reader thread leaves alone *)

(** Whatever relation between worlds is kept by a change of the trace and
    by the settling of a future is kept by the loop body. *)
Lemma processor_body_preserves (R : relation World) `{!PreOrder R} pod reply :
  (forall e, preserves R (emit e)) ->
  (forall i o, r_id reply = Some i ->
     preserves R (update_pod pod (fun p => with_chans (<[i := WFuture o]> (chans p)) p))) ->
  preserves R (processor_body from_edn json_loads pod reply).
Proof.
  intros Hemit Hset.
  assert (forall i o, r_id reply = Some i -> preserves R (settle pod i o)) as Hsettle.
  { intros i o Hi. unfold settle.
    apply preserves_bind; [apply _|apply preserves_get_pod; apply _|intros p].
    destruct (chans p !! i) as [[[]|]|]; try (apply preserves_raise; apply _).
    by apply Hset. }
  assert (forall h key args, preserves R (call_handler h key args)) as Hcall.
  { intros h key args. unfold call_handler.
    destruct (h !! key); [apply Hemit|apply preserves_ret; apply _]. }
  assert (forall sink msg, preserves R (forward sink msg)) as Hfwd.
  { intros sink msg. unfold forward. destruct msg as [s|]; [|apply preserves_ret; apply _].
    destruct (str_truthy s); [|apply preserves_ret; apply _].
    apply preserves_bind; [apply _|apply Hemit|intros _; apply Hemit]. }
  unfold processor_body.
  apply preserves_bind; [apply _|apply preserves_get_pod; apply _|intros p].
  destruct (reply_chan p reply) as [[i chan]|] eqn:Hc; [|apply preserves_ret; apply _].
  assert (r_id reply = Some i) as Hi.
  { unfold reply_chan, get_string, bytes_to_string in Hc.
    destruct (r_id reply) as [i0|]; [|done]. simpl in Hc.
    destruct (chans p !! i0); [|done]. simpl in Hc. by inversion Hc. }
  apply preserves_bind; [apply _|apply Hfwd|intros _].
  apply preserves_bind; [apply _|apply Hfwd|intros _].
  apply preserves_bind; [apply _| |intros _].
  - unfold handle_response. cbv zeta.
    destruct (_ || _ || _); [|apply preserves_ret; apply _].
    destruct chan as [f|h].
    + unfold set_exception, set_result.
      destruct (reply_error _ _ _ _); [by apply Hsettle|].
      destruct (decode_value _ _ _ _).1; try (by apply Hsettle).
      destruct (reply_namespace _ _); [by apply Hsettle|apply preserves_ret; apply _].
    + destruct (negb _); apply Hcall.
  - unfold handle_done.
    destruct (_ && _); [|apply preserves_ret; apply _].
    destruct chan as [f|h]; [|apply Hcall].
    apply preserves_bind; [apply _|apply preserves_get_pod; apply _|intros p'].
    destruct (chans p' !! i) as [[f'|]|]; try (apply preserves_ret; apply _).
    unfold set_result.
    destruct (negb _); [by apply Hsettle|apply preserves_ret; apply _].
Qed.

Lemma processor_loop_preserves (R : relation World) `{!PreOrder R} pod input :
  (forall e, preserves R (emit e)) ->
  (forall rest, preserves R (update_pod pod (with_stdout rest))) ->
  (forall reply i o, reply ∈ input -> r_id reply = Some i ->
     preserves R (update_pod pod (fun p => with_chans (<[i := WFuture o]> (chans p)) p))) ->
  preserves R (processor_loop from_edn json_loads pod input).
Proof.
  intros Hemit Hout. induction input as [|reply rest IH]; intros Hset.
  - apply preserves_ret; apply _.
  - rewrite processor_loop_cons.
    apply preserves_bind; [apply _|apply Hout|intros _].
    apply preserves_bind; [apply _| |intros _].
    + apply processor_body_preserves; [apply _|exact Hemit|].
      intros i o Hi. apply (Hset reply i o); [apply list_elem_of_here|exact Hi].
    + apply IH. intros r i o Hr Hi. apply (Hset r i o); [|exact Hi].
      by apply list_elem_of_further.
Qed.

Lemma processor_preserves (R : relation World) `{!PreOrder R} pod :
  (forall e, preserves R (emit e)) ->
  (forall rest, preserves R (update_pod pod (with_stdout rest))) ->
  (forall t, preserves R (update_pod pod (with_processor_thread t))) ->
  (forall i o,
     preserves R (update_pod pod (fun p => with_chans (<[i := WFuture o]> (chans p)) p))) ->
  preserves R (processor from_edn json_loads pod).
Proof.
  intros Hemit Hout Hthread Hset. unfold processor, finish_thread.
  apply preserves_bind; [apply _|apply preserves_get_pod; apply _|intros p].
  destruct (processor_thread p) as [[]|]; try (apply preserves_ret; apply _).
  apply preserves_try_except; [apply _| |intros _; apply Hthread].
  apply preserves_bind; [apply _| |intros _].
  - apply processor_loop_preserves; [apply _|exact Hemit|exact Hout|].
    intros reply i o _ _. apply Hset.
  - apply preserves_bind; [apply _|apply preserves_get_pod; apply _|intros p'].
    destruct (status (process p')); try apply Hthread. apply preserves_ret; apply _.
Qed.

#[local] Instance waiters_kept_preorder pod touch : PreOrder (waiters_kept pod touch).
Proof.
  split.
  - intros w p Hp. by exists p.
  - intros w1 w2 w3 H1 H2 p Hp.
    destruct (H1 p Hp) as (p2 & Hp2 & E2). destruct (H2 p2 Hp2) as (p3 & Hp3 & E3).
    exists p3. split; [done|]. intros j Hj. by rewrite E3, E2.
Qed.

Lemma update_pod_waiters_kept pod touch f :
  (forall p j, ~ touch j -> chans (f p) !! j = chans p !! j) ->
  preserves (waiters_kept pod touch) (update_pod pod f).
Proof.
  intros Hf w. unfold after, update_pod, modify. simpl. intros p Hp. simpl.
  exists (f p). rewrite lookup_alter_eq, Hp. split; [done|]. intros j Hj. by apply Hf.
Qed.

(** X15.  Replies are demultiplexed by id: after the loop has handled any
    sequence of envelopes, however it ended, every waiter registered under
    an id that none of the envelopes carries is exactly as it was. *)
Theorem other_waiters_are_not_touched pod p input w :
  heap w !! pod = Some p ->
  after (processor_loop from_edn json_loads pod input w)
        (fun w' => exists p',
           heap w' !! pod = Some p'
           /\ forall j, (forall reply, reply ∈ input -> r_id reply <> Some j) ->
                        chans p' !! j = chans p !! j).
Proof.
  intros Hp.
  pose proof (processor_loop_preserves
                (waiters_kept pod (fun j => exists reply, reply ∈ input /\ r_id reply = Some j))
                pod input) as H.
  assert (preserves
            (waiters_kept pod (fun j => exists reply, reply ∈ input /\ r_id reply = Some j))
            (processor_loop from_edn json_loads pod input)) as Hkept.
  { apply H.
    - intros e w0 p0 Hp0. by exists p0.
    - intros rest. by apply update_pod_waiters_kept.
    - intros reply i o Hin Hi. apply update_pod_waiters_kept. intros p0 j Hj. simpl.
      rewrite lookup_insert_ne; [done|]. intros ->. apply Hj. by exists reply. }
  specialize (Hkept w). unfold after in *.
  destruct (final_world _) as [w'|]; [|done].
  destruct (Hkept p Hp) as (p' & Hp' & E). exists p'. split; [done|].
  intros j Hj. apply E. intros (reply & Hin & Hi). by apply (Hj reply).
Qed.

#[local] Instance reader_frame_preorder pod : PreOrder (reader_frame pod).
Proof.
  split.
  - intros w. repeat split; try done. intros p Hp. by exists p.
  - intros w1 w2 w3 (Ho1 & Ga & Gb & Gc & Gd & K1) (Ho2 & Ia & Ib & Ic & Id & K2).
    split; [intros l Hl; by rewrite Ho2, Ho1|].
    repeat (split; [congruence|]). intros p Hp.
    destruct (K1 p Hp) as (p2 & Hp2 & Ea & Eb & Ec & Ed & Ee & Ef).
    destruct (K2 p2 Hp2) as (p3 & Hp3 & Fa & Fb & Fc & Fd & Fe & Ff).
    exists p3. split; [done|]. repeat split; congruence.
Qed.

Lemma update_pod_reader_frame pod f :
  (forall p, stdin (f p) = stdin p /\ process (f p) = process p
             /\ namespaces (f p) = namespaces p /\ format (f p) = format p
             /\ ops (f p) = ops p /\ pod_id (f p) = pod_id p) ->
  preserves (reader_frame pod) (update_pod pod f).
Proof.
  intros Hf w. unfold after, update_pod, modify. simpl.
  split; [intros l Hl; simpl; by rewrite lookup_alter_ne|].
  repeat (split; [done|]). intros p Hp. simpl.
  exists (f p). rewrite lookup_alter_eq, Hp. split; [done|]. apply Hf.
Qed.

(** X16.  The reader thread only reads: however a run of [processor] ends,
    it has written nothing to the pod, drawn no id, and left the registry,
    [sys.modules], [loaded_namespaces], every other pod, and the pod's own
    process, namespaces, format, ops and id as they were. *)
Theorem processor_only_reads pod w :
  after (processor from_edn json_loads pod w) (reader_frame pod w).
Proof.
  apply (processor_preserves (reader_frame pod) pod).
  - intros e w0. unfold after. simpl. repeat split; try done.
    intros p Hp. by exists p.
  - intros rest. by apply update_pod_reader_frame.
  - intros t. by apply update_pod_reader_frame.
  - intros i o. by apply update_pod_reader_frame.
Qed.

(** X17.  A value that decodes to [None], in an envelope that is not final
    (no [done] in its status), is lost on a future: the future stays pending
    and nothing but the forwarding of [out] and [err] happens. *)
Theorem none_value_without_done_is_lost pod p i reply s w :
  heap w !! pod = Some p ->
  r_id reply = Some i ->
  chans p !! i = Some (WFuture Pending) ->
  r_value reply = Some s ->
  read_fn from_edn json_loads (format p) s = Some PNone ->
  r_vars reply = None ->
  reply_done from_edn json_loads (format p) reply = false ->
  processor_body from_edn json_loads pod reply w =
    Ok tt (with_trace (trace w ++ forwarded (out p) (r_out reply)
                         ++ forwarded (err p) (r_err reply)) w).
Proof.
  intros Hp Hi Hc Hv Hr Hn Hd.
  rewrite (processor_body_served _ _ _ _ _ _ Hp (reply_chan_Some _ _ _ _ Hi Hc)).
  rewrite bind_unfold. unfold handle_response, handle_done. cbv zeta.
  rewrite Hd. unfold reply_done in Hd.
  apply orb_false_iff in Hd as [Hd _]. apply orb_false_iff in Hd as [He _].
  rewrite He. unfold reply_namespace. rewrite Hn, Hv. simpl.
  unfold decode_value, bytes_to_string. rewrite Hr. reflexivity.
Qed.

(** X18.  On an error envelope a callback waiter has its error handler
    called, once, with the envelope's [ex-message] and decoded [ex-data]
    -- after [out] and [err] have been forwarded -- and neither its success
    handler nor its done handler is called. *)
Theorem error_envelope_calls_error_handler_only pod p i h reply w :
  heap w !! pod = Some p ->
  r_id reply = Some i ->
  chans p !! i = Some (WHandlers h) ->
  reply_error from_edn json_loads (format p) reply = true ->
  processor_body from_edn json_loads pod reply w =
    Ok tt (with_trace
             (trace w ++ forwarded (out p) (r_out reply) ++ forwarded (err p) (r_err reply)
              ++ handler_call h "error"
                   [PDict [("ex-message",
                            PStr (reply_ex_message from_edn json_loads (format p) reply));
                           ("ex-data", reply_ex_data from_edn json_loads (format p) reply)]])
             w).
Proof.
  intros Hp Hi Hc He.
  rewrite (processor_body_served _ _ _ _ _ _ Hp (reply_chan_Some _ _ _ _ Hi Hc)).
  rewrite bind_unfold. unfold handle_response, handle_done. cbv zeta.
  rewrite He, orb_true_r. simpl. rewrite andb_false_r.
  rewrite call_handler_spec. simpl. by rewrite <- !app_assoc.
Qed.

(** ** Loading a pod: failures *)

Lemma resolve_pod_exn_world pod_spec opts w e w1 :
  resolve_pod resolve pod_spec opts w = Exn e w1 -> w1 = w.
Proof.
  unfold resolve_pod. rewrite bind_unfold.
  repeat match goal with
         | |- context [(if ?c then _ else _) w] => destruct c
         end; simpl; by inversion 1.
Qed.

Lemma read_port_no_exn fuel file_at k w e w1 :
  read_port py_strip py_int fuel file_at k w <> Exn e w1.
Proof.
  revert k. induction fuel as [|fuel IH]; intros k; simpl; [done|].
  destruct (poll_port _ _ _); [done|apply IH].
Qed.

Lemma connect_no_exn fuel accepts k w e w1 :
  connect fuel accepts k w <> Exn e w1.
Proof.
  revert k. induction fuel as [|fuel IH]; intros k; simpl; [done|].
  destruct (accepts k); [done|apply IH].
Qed.

Lemma run_pod_exn_world fuel pod_spec opts w e w1 :
  run_pod popen py_strip py_int fuel pod_spec opts w = Exn e w1 -> w1 = w.
Proof.
  unfold run_pod. destruct (popen _ _) as [[pid c]|]; [|by inversion 1].
  destruct (bool_decide _); [|done].
  rewrite bind_unfold.
  destruct (read_port _ _ _ _ _ _) as [[port k] w2|e2 w2|w2|] eqn:Hr; try done.
  - apply read_port_world in Hr as ->. rewrite bind_unfold.
    destruct (connect _ _ _ _) as [k' w3|e3 w3|w3|] eqn:Hc; try done.
    by apply connect_no_exn in Hc.
  - by apply read_port_no_exn in Hr.
Qed.

(** X19.  A pod named by a qualified symbol (a string with a ['/']) needs
    a version or a path, and not both: [load_pod] raises [ValueError]
    otherwise, whatever the other options are, before anything else is
    done. *)
Theorem qualified_symbol_needs_version_or_path fuel s opts w :
  str_contains "/" s = true ->
  opt_truthy (o_version opts) = opt_truthy (o_path opts) ->
  load_pod resolve popen py_strip py_int fuel (SpecStr s) opts w
  = Exn (ValueError (if opt_truthy (o_version opts)
                     then "You must provide either version or path, not both"
                     else "Version or path must be provided")) w.
Proof.
  intros Hq Heq. unfold load_pod, resolve_pod. rewrite !bind_unfold, Hq, <- Heq.
  by destruct (opt_truthy (o_version opts)).
Qed.

(** X20.  When [load_pod] raises, one of two things has happened.  Either
    the exception came before the pod object was made -- from the resolver
    checks, the launch or the describe handshake -- and then the registry,
    the pod objects, [sys.modules], [loaded_namespaces] and the output are
    as they were; or it is the exception of a [setattr] that failed while
    the namespaces were exposed, and then the pod is registered under its
    id with its reader thread started, and the modules of the namespaces
    exposed before the failing one are registered. *)
Theorem load_pod_that_raises_before_or_after_registering fuel spec opts e w w' :
  load_pod resolve popen py_strip py_int fuel spec opts w = Exn e w' ->
  (heap w' = heap w /\ pods w' = pods w /\ sys_modules w' = sys_modules w
   /\ loaded_namespaces w' = loaded_namespaces w /\ trace w' = trace w)
  \/ (exists l p nss,
        heap w !! l = None
        /\ heap w' !! l = Some p
        /\ pods w' = <[pod_id p := l]> (pods w)
        /\ processor_thread p = Some TRunning
        /\ namespaces p = Some nss
        /\ (exposure nss).2 = Some e
        /\ sys_modules w' = register_modules (pod_id p) (exposure nss).1 (sys_modules w)
        /\ trace w' = trace w).
Proof.
  intros H0. pose proof H0 as H. unfold load_pod in H. rewrite bind_unfold in H.
  destruct (resolve_pod _ _ _ _) as [[final_pod_spec final_opts] w1|e1 w1|w1|] eqn:Hres;
    try discriminate.
  2: { left. apply resolve_pod_exn_world in Hres as ->. by inversion H. }
  pose proof (resolve_pod_world _ _ _ _ _ Hres) as ->. cbn [fst snd] in H.
  rewrite bind_unfold in H.
  destruct (run_pod _ _ _ _ _ _ _) as [running_pod w1|e1 w1|w1|] eqn:Hrun;
    try discriminate.
  2: { left. apply run_pod_exn_world in Hrun as ->. by inversion H. }
  pose proof (run_pod_world _ _ _ _ _ _ Hrun) as [-> _].
  assert (forall reply,
            (o_metadata final_opts = Some reply /\ describe_truthy reply = true)
            \/ ((forall r, o_metadata final_opts = Some r -> describe_truthy r = false)
                /\ status (rp_process running_pod) = Running
                /\ describe_reply (child (rp_process running_pod)) = Some reply) ->
            exists l p nss,
              heap w !! l = None
              /\ heap w' !! l = Some p
              /\ pods w' = <[pod_id p := l]> (pods w)
              /\ processor_thread p = Some TRunning
              /\ namespaces p = Some nss
              /\ (exposure nss).2 = Some e
              /\ sys_modules w' =
                   register_modules (pod_id p) (exposure nss).1 (sys_modules w)
              /\ trace w' = trace w) as Hyes.
  { intros reply Hrep.
    destruct (load_pod_after_handshake fuel spec opts final_pod_spec final_opts
                running_pod reply w Hres Hrun Hrep)
      as (l & w7 & p & E & Hnew & Hp & _ & Hreg & Hth & Hns & Hsm & Htr & _).
    rewrite H0 in E.
    destruct (exposure _).2 as [e0|] eqn:Hex; [|discriminate].
    inversion E; subst e0 w7.
    exists l, p, (bencode_to_namespace l <$> default [] (d_namespaces reply)). done. }
  clear H0.
  destruct (o_metadata final_opts) as [reply0|] eqn:Hm;
    [destruct (describe_truthy reply0) eqn:Ht|].
  - right. apply (Hyes reply0). by left.
  - rewrite !bind_unfold in H. unfold describe_pod in H.
    rewrite bind_unfold in H. unfold next_id at 1 in H.
    destruct (status (rp_process running_pod)) eqn:Hst;
      try (left; simpl in H; inversion H; subst; by simpl).
    destruct (describe_reply (child (rp_process running_pod))) as [reply|] eqn:Hd.
    + right. apply (Hyes reply). right. split; [|done].
      intros r Hr. by inversion Hr; subst.
    + left. simpl in H. inversion H; subst. by simpl.
  - rewrite !bind_unfold in H. unfold describe_pod in H.
    rewrite bind_unfold in H. unfold next_id at 1 in H.
    destruct (status (rp_process running_pod)) eqn:Hst;
      try (left; simpl in H; inversion H; subst; by simpl).
    destruct (describe_reply (child (rp_process running_pod))) as [reply|] eqn:Hd.
    + right. apply (Hyes reply). right. split; [|done]. intros r Hr. discriminate.
    + left. simpl in H. inversion H; subst. by simpl.
Qed.

(** ** Loading a pod: the pod object *)

(** The describe request [describe_pod] writes in world [w]. *)
Lemma describe_pod_world running_pod x w w1 :
  describe_pod running_pod w = Ok x w1 ->
  x = ({| m_op := "describe"; m_id := uuid4 w (drawn w); m_var := None;
          m_args := None; m_ns := None |},
       describe_reply (child (rp_process running_pod)))
  /\ heap w1 = heap w /\ pods w1 = pods w /\ trace w1 = trace w.
Proof.
  unfold describe_pod. rewrite bind_unfold. unfold next_id at 1.
  destruct (status (rp_process running_pod)); inversion 1; subst; by simpl.
Qed.

(** What [load_pod] has put on the heap and in the registry when it
    returns. *)
Lemma load_pod_object fuel spec opts w l w' :
  load_pod resolve popen py_strip py_int fuel spec opts w = Ok l w' ->
  exists p reply final_pod_spec final_opts pid c,
    resolve_pod resolve spec opts w = Ok (final_pod_spec, final_opts) w
    /\ popen final_pod_spec (bool_decide (o_transport final_opts = Some "socket"))
       = Some (pid, c)
    /\ ((o_metadata final_opts = Some reply /\ describe_truthy reply = true
         /\ stdin p = [])
        \/ ((forall r, o_metadata final_opts = Some r -> describe_truthy r = false)
            /\ describe_reply c = Some reply
            /\ stdin p = [ {| m_op := "describe"; m_id := uuid4 w (drawn w);
                              m_var := None; m_args := None; m_ns := None |} ]))
    /\ heap w !! l = None
    /\ (forall l', l' <> l -> heap w' !! l' = heap w !! l')
    /\ heap w' !! l = Some p
    /\ pods w' = <[pod_id p := l]> (pods w)
    /\ trace w' = trace w
    /\ format p = md_format (describe_to_metadata reply (o_resolve final_opts))
    /\ ops p = describe_to_ops reply
    /\ pod_spec p = final_pod_spec
    /\ remove_ns p = o_remove_ns final_opts
    /\ child (process p) = c
    /\ stdout p = []
    /\ namespaces p = Some (bencode_to_namespace l <$> default [] (d_namespaces reply)).
Proof.
  unfold load_pod. intros H.
  apply bind_Ok_inv in H as ([final_pod_spec final_opts] & w1 & H1 & H).
  pose proof (resolve_pod_world _ _ _ _ _ H1) as ->. rename H1 into Hres. simpl in H.
  apply bind_Ok_inv in H as (running_pod & w1 & H1 & H).
  apply run_pod_world in H1 as (-> & pid0 & c & Hpopen & Hchild).
  apply bind_Ok_inv in H as ([msgs oreply] & w1 & H1 & H).
  assert (heap w1 = heap w /\ pods w1 = pods w /\ trace w1 = trace w
          /\ ((exists r, oreply = Some r /\ o_metadata final_opts = Some r
                         /\ describe_truthy r = true /\ msgs = [])
              \/ ((forall r, o_metadata final_opts = Some r -> describe_truthy r = false)
                  /\ oreply = describe_reply c
                  /\ msgs = [ {| m_op := "describe"; m_id := uuid4 w (drawn w);
                                 m_var := None; m_args := None; m_ns := None |} ])))
    as (Hh1 & Hr1 & Ht1 & Hprov).
  { assert (forall x, (r ← describe_pod running_pod; mret ([r.1], r.2)) w = Ok x w1 ->
              heap w1 = heap w /\ pods w1 = pods w /\ trace w1 = trace w
              /\ x.2 = describe_reply c
              /\ x.1 = [ {| m_op := "describe"; m_id := uuid4 w (drawn w);
                            m_var := None; m_args := None; m_ns := None |} ]) as Hdesc.
    { intros x Hx. apply bind_Ok_inv in Hx as (r & w2 & Hx1 & Hx2).
      inversion Hx2; subst. apply describe_pod_world in Hx1 as (-> & ? & ? & ?).
      by simpl. }
    destruct (o_metadata final_opts) as [reply0|] eqn:Hmeta.
    - destruct (describe_truthy reply0) eqn:Htr.
      + inversion H1; subst. repeat split; try done. left. by exists reply0.
      + destruct (Hdesc _ H1) as (?&?&?&?&?). repeat split; try done.
        right. split; [|done]. intros r Hr. inversion Hr; subst. done.
    - destruct (Hdesc _ H1) as (?&?&?&?&?). repeat split; try done.
      right. split; [|done]. intros r Hr. discriminate. }
  simpl in H. destruct oreply as [reply|]; [|done].
  apply bind_Ok_inv in H as (pid & w2 & H2 & H).
  assert (heap w2 = heap w /\ pods w2 = pods w /\ trace w2 = trace w)
    as (Hh2 & Hr2 & Ht2).
  { assert (next_id w1 = Ok pid w2 ->
            heap w2 = heap w /\ pods w2 = pods w /\ trace w2 = trace w) as Hnext.
    { intros Hn. unfold next_id in Hn. inversion Hn; subst. by simpl. }
    destruct (default [] (d_namespaces reply)) as [|first_ns rest].
    - simpl in H2. by apply Hnext.
    - simpl in H2. unfold bytes_to_string in H2.
      destruct (str_truthy (nd_name first_ns)).
      + inversion H2; subst. done.
      + by apply Hnext. }
  apply bind_Ok_inv in H as (pod & w3 & H3 & H).
  unfold alloc_pod in H3. inversion H3; subst pod w3; clear H3.
  set (l0 := fresh (dom (heap w2))) in *.
  set (p0 := {| process := rp_process running_pod; pod_id := pid |}) in *.
  apply bind_Ok_inv in H as ([] & w4 & H4 & H).
  unfold update_pod, modify in H4. inversion H4; subst w4; clear H4.
  apply bind_Ok_inv in H as ([] & w5 & H5 & H).
  unfold update_pod, modify in H5. inversion H5; subst w5; clear H5.
  apply bind_Ok_inv in H as ([] & w6 & H6 & H).
  unfold modify in H6. inversion H6; subst w6; clear H6.
  apply bind_Ok_inv in H as (ms & w7 & H7 & H).
  inversion H; subst l w'; clear H.
  set (nss := bencode_to_namespace l0 <$> default [] (d_namespaces reply)) in *.
  set (p1 := with_processor_thread (Some TRunning) (with_namespaces (Some nss) p0)).
  set (w6 := with_pods _ _) in H7.
  assert (heap w6 !! l0 = Some p1) as Hp6.
  { unfold w6. simpl. rewrite lookup_alter_eq, lookup_alter_eq, lookup_insert_eq.
    reflexivity. }
  unfold expose_non_deferred_namespaces in H7.
  rewrite bind_unfold, (get_pod_Some _ _ _ Hp6) in H7. simpl in H7.
  destruct (expose_each_spec l0 p1 nss w6 Hp6) as (w8 & E8 & Hsm8 & Hh8 & Hr8 & Ht8 & Hu8 & Hd8).
  destruct (exposure nss).2 as [e8|] eqn:Hex; [by rewrite E8 in H7|].
  rewrite (exposure_all _ Hex) in E8, Hsm8.
  rewrite E8 in H7. inversion H7; subst ms w7; clear H7.
  exists p1, reply, final_pod_spec, final_opts, pid0, c.
  split; [exact Hres|]. split; [exact Hpopen|].
  split.
  { destruct Hprov as [(r & Er & Hm & Ht & Hs)|(Hm & Hd & Hs)].
    - left. inversion Er; subst. done.
    - right. rewrite Hd. done. }
  split. { rewrite <- Hh2. apply not_elem_of_dom. apply is_fresh. }
  split.
  { intros l' Hl'. rewrite Hh8. unfold w6. simpl.
    rewrite !lookup_alter_ne, lookup_insert_ne by done. by rewrite Hh2. }
  split; [by rewrite Hh8|].
  split. { rewrite Hr8. unfold w6. simpl. by rewrite Hr2. }
  split. { rewrite Ht8. unfold w6. simpl. exact Ht2. }
  repeat split; try reflexivity. exact Hchild.
Qed.

(** X21.  A describe reply passed as [metadata] stands in for the
    handshake: [load_pod] then writes nothing to the pod, and the pod's
    format, ops and namespaces are those of the [metadata], whatever the
    child itself would have answered to a describe request. *)
Theorem metadata_replaces_the_handshake fuel pod_spec opts final_pod_spec final_opts
    reply w l w' :
  resolve_pod resolve pod_spec opts w = Ok (final_pod_spec, final_opts) w ->
  o_metadata final_opts = Some reply ->
  describe_truthy reply = true ->
  load_pod resolve popen py_strip py_int fuel pod_spec opts w = Ok l w' ->
  exists p,
    heap w' !! l = Some p
    /\ stdin p = []
    /\ format p = md_format (describe_to_metadata reply (o_resolve final_opts))
    /\ ops p = describe_to_ops reply
    /\ namespaces p = Some (bencode_to_namespace l <$> default [] (d_namespaces reply)).
Proof.
  intros Hres Hmeta Htruthy H.
  destruct (load_pod_object _ _ _ _ _ _ H)
    as (p & reply0 & fs & fo & pid & c & Hres0 & _ & Hprov & _ & _ & Hp & _ & _
        & Hfmt & Hops & _ & _ & _ & _ & Hns).
  rewrite Hres in Hres0. inversion Hres0; subst fs fo; clear Hres0.
  exists p. split; [exact Hp|].
  destruct Hprov as [(Hm & _ & Hs)|(Hm & _)].
  - rewrite Hmeta in Hm. inversion Hm; subst reply0. done.
  - rewrite (Hm reply Hmeta) in Htruthy. discriminate.
Qed.

(** X22.  [load_pod] returns a new pod object and registers it under its
    id; every pod object loaded before is left exactly as it was -- also a
    pod that had the same id, which loses its place in the registry without
    being shut down. *)
Theorem load_pod_adds_one_pod_object fuel spec opts w l w' :
  load_pod resolve popen py_strip py_int fuel spec opts w = Ok l w' ->
  heap w !! l = None
  /\ (forall l', l' <> l -> heap w' !! l' = heap w !! l')
  /\ exists p, heap w' !! l = Some p
               /\ pods w' = <[pod_id p := l]> (pods w)
               /\ stdout p = []
               /\ trace w' = trace w.
Proof.
  intros H.
  destruct (load_pod_object _ _ _ _ _ _ H)
    as (p & reply & fs & fo & pid & c & _ & _ & _ & Hnew & Hold & Hp & Hreg & Htr
        & _ & _ & _ & _ & _ & Hout & _).
  split; [exact Hnew|]. split; [exact Hold|]. by exists p.
Qed.

(** ** Loading a namespace again *)

Lemma load_ns_loop_none pod pid namespace_name result nss :
  forall i w,
    (forall ns, ns ∈ nss -> ns_to_load w pid namespace_name ns = false) ->
    load_ns_loop pod pid namespace_name result i nss w = Ok tt w.
Proof.
  induction nss as [|ns nss IH]; intros i w Hnone; [reflexivity|].
  simpl. rewrite bind_unfold. simpl.
  rewrite (Hnone ns) by apply list_elem_of_here.
  apply IH. intros n Hn. apply Hnone. by apply list_elem_of_further.
Qed.

(** X23.  [load_ns] exposes a namespace once: when every namespace of the
    pod with the name asked for is either not deferred or already tracked
    in [loaded_namespaces], the request is still sent, but however the call
    ends no module is registered or replaced and nothing is tracked. *)
Theorem load_ns_exposes_a_namespace_once pod p nss namespace_name w :
  heap w !! pod = Some p ->
  namespaces p = Some nss ->
  (forall ns, ns ∈ nss -> ns_name ns = namespace_name -> ns_get_defer ns = true ->
     is_Some (loaded_namespaces w !! pod_id p ≫= fun t => t !! namespace_name)) ->
  after (load_ns from_edn json_loads pod namespace_name w)
        (fun w' => sys_modules w' = sys_modules w
                   /\ loaded_namespaces w' = loaded_namespaces w).
Proof.
  intros Hp Hnss Hloaded.
  pose proof (load_ns_impl_untouched pod namespace_name w) as Hun.
  unfold load_ns. rewrite bind_unfold. unfold after in *.
  destruct (load_ns_impl _ _ _ _ _) as [result w1|e w1|w1|]; simpl in Hun;
    try (destruct Hun as (El & Es & _); simpl; done); [|done].
  destruct Hun as (El & Es & Hpods).
  destruct (Hpods pod p Hp) as (p1 & Hp1 & En1 & Ei1).
  rewrite bind_unfold, (get_pod_Some _ _ _ Hp1), En1, Hnss, Ei1.
  rewrite bind_unfold, load_ns_loop_none; [simpl; done|].
  intros ns Hns. unfold ns_to_load. rewrite El.
  destruct (String.eqb (ns_name ns) namespace_name) eqn:Hname; [|done].
  destruct (ns_get_defer ns) eqn:Hdefer; [|done].
  apply String.eqb_eq in Hname. simpl.
  rewrite bool_decide_eq_true_2; [done|]. by apply (Hloaded ns).
Qed.



(** ** Loading a namespace on demand *)

(** X25.  A namespace that has been exposed is served from
    [loaded_namespaces]: once [expose_namespace_as_module] has returned for
    a namespace of a registered pod, [load_and_expose_namespace] on the
    pod's id and the namespace's name returns that namespace without sending
    a request or changing anything. *)
Theorem exposed_namespace_is_not_loaded_again pod p namespace m w w1 :
  heap w !! pod = Some p ->
  pods w !! pod_id p = Some pod ->
  expose_namespace_as_module pod namespace w = Ok m w1 ->
  load_and_expose_namespace from_edn json_loads (pod_id p) (ns_name namespace) w1
  = Ok namespace w1.
Proof.
  intros Hp Hreg E.
  apply (expose_namespace_as_module_inv _ _ _ _ _ _ Hp) in E
    as (_ & _ & _ & (t & Ht & Htn) & Hsame).
  destruct Hsame as (_ & Hr & _).
  unfold load_and_expose_namespace, lookup_pod.
  rewrite !bind_unfold. simpl. rewrite Hr, Hreg.
  rewrite bind_unfold. simpl. rewrite Ht. simpl. by rewrite Htn.
Qed.

Lemma find_deferred_none namespace_name nss :
  forall i,
    (forall ns, ns ∈ nss -> ns_name ns = namespace_name -> ns_get_defer ns = false) ->
    find_deferred namespace_name i nss = None.
Proof.
  induction nss as [|ns nss IH]; intros i Hnone; [reflexivity|]. simpl.
  destruct (String.eqb (ns_name ns) namespace_name) eqn:E.
  - apply String.eqb_eq in E.
    rewrite (Hnone ns (list_elem_of_here _ _) E). simpl.
    apply IH. intros n Hn. apply Hnone. by apply list_elem_of_further.
  - simpl. apply IH. intros n Hn. apply Hnone. by apply list_elem_of_further.
Qed.

(** X26.  Once the modules of a pod have been unregistered,
    [load_and_expose_namespace] cannot bring back a namespace of the pod
    that is not deferred: it raises [ValueError], with a message that names
    the namespace and the pod, without sending a request. *)
Theorem unregistered_plain_namespace_cannot_be_reloaded pod p nss namespace_name w :
  pods w !! pod_id p = Some pod ->
  heap w !! pod = Some p ->
  namespaces p = Some nss ->
  (forall ns, ns ∈ nss -> ns_name ns = namespace_name -> ns_get_defer ns = false) ->
  exists w1,
    unregister_pod_modules (pod_id p) w = Ok tt w1
    /\ load_and_expose_namespace from_edn json_loads (pod_id p) namespace_name w1
       = Exn (ValueError
                (String.append "Deferred namespace "
                   (String.append namespace_name
                      (String.append " not found in pod " (pod_id p))))) w1.
Proof.
  intros Hreg Hp Hnss Hnone.
  eexists. split; [apply unregister_pod_modules_spec|].
  unfold load_and_expose_namespace, lookup_pod.
  rewrite !bind_unfold. simpl. rewrite Hreg.
  rewrite bind_unfold. simpl. rewrite lookup_delete_eq. simpl.
  rewrite bind_unfold. unfold get_pod. simpl. rewrite Hp, Hnss.
  by rewrite find_deferred_none.
Qed.

(** ** [transform_dict] *)

(** X27.  [transform_dict] is idempotent: its result holds no immutable
    dictionary, immutable list, symbol or keyword where it would look, so
    that a second pass returns it unchanged. *)
Theorem transform_dict_idempotent d :
  Edn.transform_dict (Edn.transform_dict d) = Edn.transform_dict d.
Proof.
  revert d. fix IH 1. intros [items|items|items|name|name|items|s|class items|repr];
    try reflexivity.
  - simpl. f_equal. induction items as [|item l IHl]; [reflexivity|].
    cbn [Edn.transform_dict]. simpl. f_equal; [apply IH|exact IHl].
  - simpl. f_equal. induction items as [|item l IHl]; [reflexivity|].
    simpl. f_equal; [apply IH|exact IHl].
Qed.

(** ** The port file *)

Lemma read_port_from fuel file_at :
  forall k port n w w',
    read_port py_strip py_int fuel file_at k w = Ok (port, n) w' ->
    w' = w
    /\ exists k0, n = S k0 /\ k <= k0 < k + fuel
                  /\ poll_port py_strip py_int (file_at k0) = Some port
                  /\ forall j, k <= j < k0 -> poll_port py_strip py_int (file_at j) = None.
Proof.
  induction fuel as [|fuel IH]; intros k port n w w' H; [done|]. simpl in H.
  destruct (poll_port py_strip py_int (file_at k)) as [port0|] eqn:Hk.
  - inversion H; subst. split; [done|]. exists k. repeat split; try lia. done.
  - apply IH in H as (-> & k0 & -> & Hk0 & Hport & Hnone). split; [done|].
    exists k0. repeat split; try lia; [done|].
    intros j Hj. destruct (decide (j = k)) as [->|Hne]; [done|]. apply Hnone. lia.
Qed.

(** X28.  What [read_port] returns is the integer found at the first poll
    of the port file whose content parses: every poll before it found no
    file or no integer, and nothing but the port file is consulted or
    changed. *)
Theorem read_port_gives_the_first_port fuel file_at port n w w' :
  read_port py_strip py_int fuel file_at 0 w = Ok (port, n) w' ->
  w' = w
  /\ exists k0, n = S k0 /\ k0 < fuel
                /\ poll_port py_strip py_int (file_at k0) = Some port
                /\ forall j, j < k0 -> poll_port py_strip py_int (file_at j) = None.
Proof.
  intros H. apply read_port_from in H as (-> & k0 & -> & Hk0 & Hport & Hnone).
  split; [done|]. exists k0. repeat split; try lia; [done|].
  intros j Hj. apply Hnone. lia.
Qed.

End Properties.

(** * Instances on the test pod *)

(** The C4 theorem at a concrete envelope: the id ["nobody"] is not
    registered, so the envelope leaves the world as it was. *)
Lemma unregistered_envelope_dropped_whole_witness :
  processor_body Fixture.loads Fixture.loads 0 Fixture.stray_reply
    (Fixture.world_with ∅ []) = Ok tt (Fixture.world_with ∅ []).
Proof.
  refine (proj1 (unregistered_envelope_dropped_whole Fixture.loads Fixture.loads 0
                   (Fixture.pod_with ∅ []) Fixture.stray_reply
                   (Fixture.world_with ∅ []) _) _).
  - reflexivity.
  - right. exists "nobody". split; reflexivity.
Defined.

(** C4 as stated fails: the stray envelope carries [out = "hello"] and
    [err = "oops"], and after the processor has handled it nothing has been
    written to either sink. *)
Lemma stray_envelope_output_not_forwarded :
  ~ (exists w', final_world (processor_body Fixture.loads Fixture.loads 0
                               Fixture.stray_reply (Fixture.world_with ∅ [])) = Some w'
                /\ (EWrite SysStdout "hello" ∈ trace w'
                    \/ EWrite SysStderr "oops" ∈ trace w')).
Proof.
  intros (w' & E & H). vm_compute in E. injection E as <-.
  simpl in H. destruct H as [H|H]; by apply elem_of_nil in H.
Qed.

(** The C1 theorem at a concrete reply: value and done in one envelope. *)
Lemma terminal_reply_settles_and_id_stays_witness :
  exists w' p' f,
    processor_body Fixture.loads Fixture.loads 0 (Fixture.value_done_reply "x" "6")
      (Fixture.world_with {["x" := WFuture Pending]} []) = Ok tt w'
    /\ heap w' !! 0 = Some p'
    /\ chans p' !! "x" = Some (WFuture f)
    /\ future_done f = true
    /\ forall input,
         after (processor_loop Fixture.loads Fixture.loads 0 input w')
               (fun w'' => exists p'', heap w'' !! 0 = Some p''
                                       /\ chans p'' !! "x" = Some (WFuture f)).
Proof.
  apply (terminal_reply_settles_and_id_stays Fixture.loads Fixture.loads 0
           (Fixture.pod_with {["x" := WFuture Pending]} [])).
  - reflexivity.
  - reflexivity.
  - reflexivity.
  - vm_compute. reflexivity.
Defined.

(** C1 as stated fails: after the terminal reply has been processed the
    correlation id is still a key of [chans]. *)
Lemma terminal_reply_leaves_id_registered :
  exists w' p',
    processor_body Fixture.loads Fixture.loads 0 (Fixture.value_done_reply "x" "6")
      (Fixture.world_with {["x" := WFuture Pending]} []) = Ok tt w'
    /\ heap w' !! 0 = Some p'
    /\ chans p' !! "x" = Some (WFuture (Finished (RVal (PInt 6))))
    /\ chans p' !! "x" <> None.
Proof.
  eexists _, _. split; [vm_compute; reflexivity|].
  split; [vm_compute; reflexivity|]. split; [vm_compute; reflexivity|].
  vm_compute. discriminate.
Qed.

(** C2 at the failing input: a future waits under ["x"], another under
    ["y"]; the pod emits two values and a done for ["x"], then a value for
    ["y"].  The future of ["x"] holds the first value, but the second value
    makes [set_result] raise; the reader thread ends there, the done
    envelope and the envelope for ["y"] stay unread, and the future of ["y"]
    is still pending. *)
Theorem second_value_for_future_ends_reader :
  exists w' p',
    processor Fixture.loads Fixture.loads 0
      (Fixture.world_with
         {["x" := WFuture Pending; "y" := WFuture Pending]}
         [value_envelope "x" "1"; value_envelope "x" "2"; done_envelope "x";
          value_envelope "y" "3"]) = Ok tt w'
    /\ heap w' !! 0 = Some p'
    /\ chans p' !! "x" = Some (WFuture (Finished (RVal (PInt 1))))
    /\ chans p' !! "y" = Some (WFuture Pending)
    /\ stdout p' = [done_envelope "x"; value_envelope "y" "3"]
    /\ processor_thread p' = Some TFinished.
Proof.
  eexists _, _. split; [vm_compute; reflexivity|].
  split; [vm_compute; reflexivity|].
  repeat split; vm_compute; reflexivity.
Qed.

(** The same stream for a callback waiter is delivered in full: two calls
    of the success handler in arrival order, then the done handler. *)
Example callback_stream_of_two :
  exists w',
    processor_loop Fixture.loads Fixture.loads 0
      [value_envelope "x" "1"; value_envelope "x" "2"; done_envelope "x"]
      (Fixture.world_with {["x" := WHandlers Fixture.handlers3]} []) = Ok tt w'
    /\ trace w' = [ECall 1 [PInt 1]; ECall 1 [PInt 2]; ECall 3 []].
Proof.
  destruct (callback_waiter_stream Fixture.loads Fixture.loads 0 "x"
              Fixture.handlers3 1 3 ["1"; "2"] eq_refl eq_refl
              (Fixture.world_with {["x" := WHandlers Fixture.handlers3]} [])
              (Fixture.pod_with {["x" := WHandlers Fixture.handlers3]} []))
    as (w' & E & Ht).
  - reflexivity.
  - reflexivity.
  - repeat constructor; vm_compute; eauto.
  - exists w'. split; [exact E|]. rewrite Ht. reflexivity.
Defined.

(** C7 at the failing input: the future under ["x"] already holds a
    value.  A further value and a further error each make the loop body
    raise [InvalidStateError] instead of doing nothing, and the reader
    thread ends on it; only the done envelope is skipped quietly. *)
Theorem resolve_or_fail_after_settle_raises :
  let w := Fixture.world_with {["x" := WFuture (Finished (RVal (PInt 1)))]} [] in
  processor_body Fixture.loads Fixture.loads 0 (value_envelope "x" "2") w
    = Exn InvalidStateError w
  /\ processor_body Fixture.loads Fixture.loads 0 (Fixture.error_reply "x") w
     = Exn InvalidStateError w
  /\ processor_body Fixture.loads Fixture.loads 0 (done_envelope "x") w = Ok tt w
  /\ exists w' p',
       processor Fixture.loads Fixture.loads 0
         (Fixture.world_with {["x" := WFuture (Finished (RVal (PInt 1)))]}
            [value_envelope "x" "2"]) = Ok tt w'
       /\ heap w' !! 0 = Some p'
       /\ processor_thread p' = Some TFinished.
Proof.
  repeat split; try (vm_compute; reflexivity).
  eexists _, _. split; [vm_compute; reflexivity|].
  split; vm_compute; reflexivity.
Qed.

(** The parts of C7 the code keeps: a done envelope with no value before
    it settles the future with [None]. *)
Example done_alone_settles_with_none :
  exists w' p',
    processor_body Fixture.loads Fixture.loads 0 (done_envelope "x")
      (Fixture.world_with {["x" := WFuture Pending]} []) = Ok tt w'
    /\ heap w' !! 0 = Some p'
    /\ chans p' !! "x" = Some (WFuture (Finished (RVal PNone))).
Proof.
  eexists _, _. split; [vm_compute; reflexivity|].
  split; vm_compute; reflexivity.
Qed.

(** The C6 theorem at a concrete envelope: ["{bad"] does not decode. *)
Lemma decode_failure_fails_waiter_and_loop_goes_on_witness :
  exists w' p',
    processor_loop Fixture.loads Fixture.loads 0
      [value_envelope "x" "{bad"; value_envelope "y" "3"]
      (Fixture.world_with {["x" := WFuture Pending; "y" := WFuture Pending]} []) =
    processor_loop Fixture.loads Fixture.loads 0 [value_envelope "y" "3"] w'
    /\ heap w' !! 0 = Some p'
    /\ chans p' !! "x" = Some (WFuture (Failed (PodError "" (PDict []))))
    /\ trace w' = [].
Proof.
  destruct (decode_failure_fails_waiter_and_loop_goes_on Fixture.loads Fixture.loads 0
              (Fixture.pod_with {["x" := WFuture Pending; "y" := WFuture Pending]} [])
              "x" (WFuture Pending) (value_envelope "x" "{bad") "{bad"
              [value_envelope "y" "3"]
              (Fixture.world_with {["x" := WFuture Pending; "y" := WFuture Pending]} []))
    as (w' & p' & E & Hp & Hc & Ht).
  - reflexivity.
  - reflexivity.
  - reflexivity.
  - reflexivity.
  - vm_compute. reflexivity.
  - simpl. discriminate.
  - exists w', p'. repeat split; [exact E|exact Hp|exact Hc|exact Ht].
Defined.

(** C6 as stated fails: the waiter of an envelope whose value does not
    decode receives [PodError("", {})] and not the codec's exception; the
    processor ends in the very same world when the pod itself reports an
    error without a message, so the waiter cannot tell a codec error from a
    pod error. *)
Lemma decode_failure_is_delivered_as_plain_pod_error :
  exists w' p',
    processor_body Fixture.loads Fixture.loads 0 (value_envelope "x" "{bad")
      (Fixture.world_with {["x" := WFuture Pending]} []) = Ok tt w'
    /\ heap w' !! 0 = Some p'
    /\ chans p' !! "x" = Some (WFuture (Failed (PodError "" (PDict []))))
    /\ chans p' !! "x" <> Some (WFuture (Failed (DecodeError "{bad")))
    /\ processor_body Fixture.loads Fixture.loads 0 (Fixture.error_reply "x")
         (Fixture.world_with {["x" := WFuture Pending]} []) = Ok tt w'.
Proof.
  eexists _, _. split; [vm_compute; reflexivity|].
  split; [vm_compute; reflexivity|]. split; [vm_compute; reflexivity|].
  split; [vm_compute; discriminate|]. vm_compute. reflexivity.
Qed.

(** The C3 theorem on the test pod with one future still pending. *)
Lemma destroy_unregisters_pod_and_leaves_waiters_witness :
  exists w' p',
    destroy (ById "pod.test-pod") (Fixture.world_with {["x" := WFuture Pending]} [])
      = Ok tt w'
    /\ lookup_pod (Some "pod.test-pod") w' = Ok None w'
    /\ heap w' !! 0 = Some p'
    /\ chans p' = chans (Fixture.pod_with {["x" := WFuture Pending]} [])
    /\ status (process p') <> Running
    /\ destroy (ById "pod.test-pod") w' = Ok tt w'
    /\ (stdout p' = [] ->
        exists w'' p'',
          processor Fixture.loads Fixture.loads 0 w' = Ok tt w''
          /\ heap w'' !! 0 = Some p''
          /\ chans p'' = chans (Fixture.pod_with {["x" := WFuture Pending]} [])).
Proof.
  apply (destroy_unregisters_pod_and_leaves_waiters Fixture.loads Fixture.loads
           "pod.test-pod" 0 (Fixture.pod_with {["x" := WFuture Pending]} [])
           (Fixture.world_with {["x" := WFuture Pending]} [])).
  - reflexivity.
  - reflexivity.
Defined.

(** C3 as stated fails: a future is pending under ["x"] when the pod is
    destroyed; after [destroy], and after the reader thread has met the end
    of the stream, it is still pending: no error was delivered to it. *)
Lemma destroy_leaves_pending_future_pending :
  exists w' w'' p'',
    destroy (ById "pod.test-pod") (Fixture.world_with {["x" := WFuture Pending]} [])
      = Ok tt w'
    /\ processor Fixture.loads Fixture.loads 0 w' = Ok tt w''
    /\ heap w'' !! 0 = Some p''
    /\ processor_thread p'' = Some TFinished
    /\ chans p'' !! "x" = Some (WFuture Pending)
    /\ ~ (exists e, chans p'' !! "x" = Some (WFuture (Failed e))).
Proof.
  eexists _, _, _. split; [vm_compute; reflexivity|].
  split; [vm_compute; reflexivity|]. split; [vm_compute; reflexivity|].
  split; [vm_compute; reflexivity|]. split; [vm_compute; reflexivity|].
  intros [e H]. vm_compute in H. discriminate.
Qed.

(** The C8 theorem on the test pod, over its standard streams: its id is
    the name of its first namespace. *)
Lemma load_pod_pod_id_witness :
  exists l w' p,
    load_pod Fixture.no_resolver Fixture.test_popen Fixture.strip Fixture.int_of 10
      Fixture.test_spec Fixture.no_opts Fixture.world0 = Ok l w'
    /\ heap w' !! l = Some p
    /\ pods w' !! pod_id p = Some l
    /\ match default [] (d_namespaces Fixture.test_describe) with
       | first_ns :: _ =>
           if str_truthy (nd_name first_ns) then pod_id p = nd_name first_ns
           else exists n, drawn Fixture.world0 <= n /\ drawn w' = S n
                          /\ pod_id p = uuid4 Fixture.world0 n
       | [] => exists n, drawn Fixture.world0 <= n /\ drawn w' = S n
                         /\ pod_id p = uuid4 Fixture.world0 n
       end.
Proof.
  destruct (load_pod_pod_id Fixture.no_resolver Fixture.test_popen Fixture.strip
              Fixture.int_of 10 Fixture.test_spec Fixture.no_opts
              ["clojure"; "-M:test-pod"] Fixture.no_opts
              {| rp_process := {| pid := 100; status := Running;
                                  child := Fixture.test_child |};
                 rp_socket := None |}
              Fixture.test_describe Fixture.world0)
    as (l & w' & p & H & Hp & Hreg & Hid).
  - reflexivity.
  - reflexivity.
  - right. split; [intros r Hr; discriminate|]. split; reflexivity.
  - exists l, w', p. split; [exact H|]. split; [exact Hp|]. split; [exact Hreg|exact Hid].
Defined.

Example test_pod_id :
  pod_id <$> heap (Fixture.loaded_world Fixture.test_popen) !! 0 = Some "pod.test-pod".
Proof. vm_compute. reflexivity. Qed.

(** C8 as stated fails: the nameless pod advertises one namespace, whose
    name is the empty string; [load_pod] returns, and the pod id is not that
    name but the id drawn by [next_id]. *)
Lemma nameless_first_namespace_gets_uuid :
  exists w' p,
    load_pod Fixture.no_resolver Fixture.nameless_popen Fixture.strip Fixture.int_of 10
      Fixture.test_spec Fixture.no_opts Fixture.world0 = Ok 0 w'
    /\ heap w' !! 0 = Some p
    /\ (ns_name <$> default [] (namespaces p)) = [""]
    /\ pod_id p = "uuid-1"
    /\ pod_id p <> "".
Proof.
  eexists _, _. split; [vm_compute; reflexivity|].
  split; [vm_compute; reflexivity|]. split; [vm_compute; reflexivity|].
  split; [vm_compute; reflexivity|]. vm_compute. discriminate.
Qed.


(** The C5 theorem on the child that exits at once, after five polls. *)
Lemma socket_load_waits_for_port_for_ever_witness :
  load_pod Fixture.no_resolver Fixture.dead_popen Fixture.strip Fixture.int_of 5
    Fixture.test_spec Fixture.socket_opts Fixture.world0 = OutOfFuel
  /\ final_world
       (load_pod Fixture.no_resolver Fixture.dead_popen Fixture.strip Fixture.int_of 5
          Fixture.test_spec Fixture.socket_opts Fixture.world0) = None.
Proof.
  apply (socket_load_waits_for_port_for_ever Fixture.no_resolver Fixture.dead_popen
           Fixture.strip Fixture.int_of 5 Fixture.test_spec Fixture.socket_opts
           ["clojure"; "-M:test-pod"] Fixture.socket_opts 102 Fixture.dead_child
           Fixture.world0).
  - reflexivity.
  - reflexivity.
  - reflexivity.
  - intros k. reflexivity.
Defined.

(** C5 as stated fails: the child has exited ([exits_after = Some 0]) and
    has written no port file; in socket mode there is no number of polls
    after which [load_pod] has returned or raised anything. *)
Lemma socket_load_of_dead_child_never_ends :
  status_after Fixture.dead_child 0 = Exited
  /\ ~ (exists fuel w',
          final_world
            (load_pod Fixture.no_resolver Fixture.dead_popen Fixture.strip
               Fixture.int_of fuel Fixture.test_spec Fixture.socket_opts
               Fixture.world0) = Some w').
Proof.
  split; [reflexivity|]. intros (fuel & w' & H).
  assert (load_pod Fixture.no_resolver Fixture.dead_popen Fixture.strip Fixture.int_of
            fuel Fixture.test_spec Fixture.socket_opts Fixture.world0 = OutOfFuel) as E.
  { apply (load_pod_polls_for_ever Fixture.no_resolver Fixture.dead_popen
             Fixture.strip Fixture.int_of fuel Fixture.test_spec Fixture.socket_opts
             ["clojure"; "-M:test-pod"] Fixture.socket_opts 102 Fixture.dead_child
             Fixture.world0); reflexivity. }
  rewrite E in H. discriminate.
Qed.

(** With the test pod, whose port file holds a number from the third poll
    on, [load_pod] in socket mode returns. *)
Example socket_load_of_test_pod :
  exists w',
    load_pod Fixture.no_resolver Fixture.test_popen Fixture.strip Fixture.int_of 10
      Fixture.test_spec Fixture.socket_opts Fixture.world0 = Ok 0 w'.
Proof. eexists. vm_compute. reflexivity. Qed.


Example test_pod_modules :
  dom (sys_modules (Fixture.loaded_world Fixture.test_popen)) = {["pod_test_pod"]}
  /\ (sys_modules (Fixture.loaded_world Fixture.test_popen) !! "pod_test_pod"
        ≫= fun m => m !! "deep_merge")
     = Some (AFun 0 "pod.test-pod" "deep-merge" false None).
Proof. split; vm_compute; reflexivity. Qed.

Example load_ns_exposes_deferred :
  exists r w',
    load_ns Fixture.loads Fixture.loads 0 "ns.k"
      (Fixture.loaded_world Fixture.test_popen) = Ok r w'
    /\ (sys_modules w' !! "ns_k" ≫= fun m => m !! "do_it")
       = Some (AFun 0 "ns.k" "do-it" false None).
Proof. eexists _, _. split; vm_compute; reflexivity. Qed.


(** Scenario 1 of the specification on the test pod: [add-one] on [5]
    returns [6]; the id of the call is still registered afterwards. *)
Example invoke_add_one :
  exists w' p',
    invoke Fixture.loads Fixture.loads Fixture.dumps Fixture.dumps Fixture.str 0
      "pod.test-pod/add-one" (PList [PInt 5]) None
      (Fixture.loaded_world Fixture.test_popen) = Ok (Some (RVal (PInt 6))) w'
    /\ heap w' !! 0 = Some p'
    /\ chans p' = {["uuid-1" := WFuture (Finished (RVal (PInt 6)))]}.
Proof.
  eexists _, _. split; [vm_compute; reflexivity|].
  split; vm_compute; reflexivity.
Qed.

(** ** Instances of the further properties *)

Lemma module_name_has_no_dot_or_dash_witness :
  namespace_to_module_name "pod" = "pod".
Proof.
  destruct (module_name_has_no_dot_or_dash "pod") as (_ & _ & _ & H).
  apply H; reflexivity.
Defined.

Lemma expose_non_deferred_last_namespace_wins_witness :
  exists w',
    expose_non_deferred_namespaces 0 (Fixture.loaded_world Fixture.test_popen)
      = Ok (namespace_module (pod_id Fixture.loaded_pod)
              <$> non_deferred Fixture.loaded_nss) w'
    /\ forall k,
         sys_modules w' !! k =
           match last (filter (fun ns => namespace_to_module_name (ns_name ns) = k)
                              (non_deferred Fixture.loaded_nss)) with
           | Some ns => Some (namespace_module (pod_id Fixture.loaded_pod) ns)
           | None => sys_modules (Fixture.loaded_world Fixture.test_popen) !! k
           end.
Proof.
  destruct (expose_non_deferred_last_namespace_wins 0 Fixture.loaded_pod
              Fixture.loaded_nss (Fixture.loaded_world Fixture.test_popen))
    as (w' & E & Hall & Hk); [vm_compute; reflexivity|vm_compute; reflexivity|].
  assert ((exposure Fixture.loaded_nss).2 = None) as Hex by (vm_compute; reflexivity).
  rewrite Hex in E. rewrite (Hall Hex) in Hk. by exists w'.
Defined.

Lemma expose_tracks_namespace_witness :
  exists m w',
    expose_namespace_as_module 0 (Fixture.plain_ns "ns.a") (Fixture.world_with ∅ [])
      = Ok m w'
    /\ (forall pid n,
          (loaded_namespaces w' !! pid ≫= fun t => t !! n) =
            if decide (pid = "pod.test-pod" /\ n = "ns.a")
            then Some (Fixture.plain_ns "ns.a")
            else loaded_namespaces (Fixture.world_with ∅ []) !! pid ≫= fun t => t !! n)
    /\ same_but_modules (Fixture.world_with ∅ []) w'.
Proof.
  exact (expose_tracks_namespace 0 (Fixture.pod_with ∅ []) (Fixture.plain_ns "ns.a")
           (Fixture.world_with ∅ []) ltac:(vm_compute; reflexivity)).
Defined.

Lemma expose_then_unregister_witness :
  exists m w1 w2,
    expose_namespace_as_module 0 (Fixture.plain_ns "ns.a") (Fixture.world_with ∅ [])
      = Ok m w1
    /\ unregister_pod_modules "pod.test-pod" w1 = Ok tt w2
    /\ loaded_namespaces w2 !! "pod.test-pod" = None
    /\ sys_modules w2 !! "ns_a" = None.
Proof.
  apply (expose_then_unregister 0 (Fixture.pod_with ∅ []) (Fixture.plain_ns "ns.a")
           (Fixture.world_with ∅ [])); vm_compute; reflexivity.
Defined.

(** A var named [__pod_id__] that is inline code equal to the pod's id
    leaves the module to [unregister_pod_modules]; any other var of that
    name takes the module away from it. *)
Example pod_id_var_and_unregister :
  (forall code,
     match (expose_namespace_as_module 0
              {| ns_name := "ns.a"; ns_vars := [("__pod_id__", VCode code)];
                 ns_defer := None |};;
            unregister_pod_modules "pod.test-pod") (Fixture.world_with ∅ []) with
     | Ok _ w2 => bool_decide (is_Some (sys_modules w2 !! "ns_a"))
     | _ => false
     end = negb (String.eqb code "pod.test-pod"))
  /\ match (expose_namespace_as_module 0
              {| ns_name := "ns.a"; ns_vars := [("__pod_id__", VCode "pod.test-pod")];
                 ns_defer := None |};;
            unregister_pod_modules "pod.test-pod") (Fixture.world_with ∅ []) with
     | Ok _ w2 => bool_decide (is_Some (sys_modules w2 !! "ns_a"))
     | _ => true
     end = false.
Proof.
  split; [|vm_compute; reflexivity].
  intros code.
  destruct (expose_then_unregister 0 (Fixture.pod_with ∅ [])
              {| ns_name := "ns.a"; ns_vars := [("__pod_id__", VCode code)];
                 ns_defer := None |} (Fixture.world_with ∅ []))
    as (m & w1 & w2 & E1 & E2 & _ & Hm); [reflexivity|reflexivity|].
  change (pod_id (Fixture.pod_with ∅ [])) with "pod.test-pod" in *.
  rewrite bind_unfold, E1, E2. cbn in Hm. rewrite Hm.
  rewrite decide_True by (by left). cbn.
  destruct (decide (AStr code = AStr "pod.test-pod")) as [Heq|Hne].
  - inversion Heq. by rewrite bool_decide_eq_false_2 by (by intros [? ?]).
  - rewrite bool_decide_eq_true_2 by done.
    destruct (String.eqb code "pod.test-pod") eqn:E; [|done].
    apply String.eqb_eq in E. by subst.
Qed.

Lemma destroy_pod_asks_or_terminates_witness :
  exists w' p',
    destroy_pod 0 (Fixture.world_with ∅ []) = Ok tt w'
    /\ heap w' = <[0 := p']> (heap (Fixture.world_with ∅ []))
    /\ stdin p' = [ {| m_op := "shutdown"; m_id := "uuid-0"; m_var := None;
                       m_args := None; m_ns := None |} ]
    /\ status (process p') = Exited
    /\ chans p' = ∅.
Proof.
  apply (destroy_pod_asks_or_terminates 0 (Fixture.pod_with ∅ [])
           (Fixture.world_with ∅ [])).
  vm_compute; reflexivity.
Defined.

Lemma destroy_runs_hook_and_unregisters_witness :
  exists w',
    destroy (ById "pod.test-pod") (Fixture.world_of Fixture.hooked_pod) = Ok tt w'
    /\ trace w' = [ECall 7 [PStr "pod.test-pod"]; ECall 7 [PStr "pod.extra"]]
    /\ (forall k,
          sys_modules w' !! k =
            match sys_modules (Fixture.world_of Fixture.hooked_pod) !! k with
            | Some m => if module_of_pod "pod.test-pod" m then None else Some m
            | None => None
            end)
    /\ loaded_namespaces w' = delete "pod.test-pod" ∅
    /\ (forall j, j <> "pod.test-pod" ->
          pods w' !! j = pods (Fixture.world_of Fixture.hooked_pod) !! j).
Proof.
  apply (destroy_runs_hook_and_unregisters "pod.test-pod" 0 Fixture.hooked_pod
           (Fixture.world_of Fixture.hooked_pod)); vm_compute; reflexivity.
Defined.

Lemma invoke_returns_decoded_value_witness :
  exists w' p',
    invoke Fixture.loads Fixture.loads Fixture.dumps Fixture.dumps Fixture.str 0
      "pod.test-pod/add-one" (PList [PInt 5]) None (Fixture.world_with ∅ [])
      = Ok (Some (RVal (PInt 6))) w'
    /\ heap w' !! 0 = Some p'
    /\ stdin p' = [invoke_request "uuid-0" "pod.test-pod/add-one" "[5]"]
    /\ chans p' !! "uuid-0" = Some (WFuture (Finished (RVal (PInt 6)))).
Proof.
  apply (invoke_returns_decoded_value Fixture.loads Fixture.loads Fixture.dumps
           Fixture.dumps Fixture.str 0 (Fixture.pod_with ∅ []) "pod.test-pod/add-one"
           (PList [PInt 5]) "[5]" "6" (PInt 6) (Fixture.world_with ∅ []));
    vm_compute; reflexivity.
Defined.

Lemma invoke_raises_pod_error_witness :
  exists w',
    invoke Fixture.loads Fixture.loads Fixture.dumps Fixture.dumps Fixture.str 0
      "pod.test-pod/add-one" (PList [PInt 5]) None
      (Fixture.world_of Fixture.failing_pod)
      = Exn (PodError "" (PDict [])) w'.
Proof.
  apply (invoke_raises_pod_error Fixture.loads Fixture.loads Fixture.dumps
           Fixture.dumps Fixture.str 0 Fixture.failing_pod "pod.test-pod/add-one"
           (PList [PInt 5]) "[5]" (Fixture.error_reply "uuid-0")
           (Fixture.world_of Fixture.failing_pod));
    vm_compute; reflexivity.
Defined.

Lemma invoke_with_handlers_returns_at_once_witness :
  exists w' p',
    invoke Fixture.loads Fixture.loads Fixture.dumps Fixture.dumps Fixture.str 0
      "pod.test-pod/add-one" (PList [PInt 5]) (Some Fixture.handlers3)
      (Fixture.world_with ∅ [])
      = Ok None w'
    /\ heap w' !! 0 = Some p'
    /\ chans p' !! "uuid-0" = Some (WHandlers Fixture.handlers3)
    /\ stdin p' = [invoke_request "uuid-0" "pod.test-pod/add-one" "[5]"]
    /\ after (processor Fixture.loads Fixture.loads 0 w')
             (fun w'' => exists p'',
                heap w'' !! 0 = Some p''
                /\ chans p'' !! "uuid-0" = Some (WHandlers Fixture.handlers3)).
Proof.
  apply (invoke_with_handlers_returns_at_once Fixture.loads Fixture.loads Fixture.dumps
           Fixture.dumps Fixture.str 0 (Fixture.pod_with ∅ []) "pod.test-pod/add-one"
           (PList [PInt 5]) "[5]" Fixture.handlers3 (Fixture.world_with ∅ []));
    try (vm_compute; reflexivity).
  intros H. apply (f_equal (fun m : gmap string Callback => m !! "done")) in H.
  vm_compute in H. discriminate H.
Defined.

Lemma invoke_that_cannot_send_leaves_waiter_witness :
  exists w' p',
    invoke Fixture.loads Fixture.loads Fixture.dumps Fixture.dumps Fixture.str 0
      "pod.test-pod/add-one" (PInt 1) None (Fixture.world_with ∅ [])
      = Exn EncodeError w'
    /\ heap w' !! 0 = Some p'
    /\ chans p' = <["uuid-0" := WFuture Pending]> ∅
    /\ stdin p' = [].
Proof.
  apply (invoke_that_cannot_send_leaves_waiter Fixture.loads Fixture.loads Fixture.dumps
           Fixture.dumps Fixture.str 0 (Fixture.pod_with ∅ []) "pod.test-pod/add-one"
           (PInt 1) None (Fixture.world_with ∅ [])).
  - vm_compute; reflexivity.
  - left. vm_compute; reflexivity.
Defined.

Lemma invoke_after_reader_ended_waits_for_ever_witness :
  exists w' p',
    invoke Fixture.loads Fixture.loads Fixture.dumps Fixture.dumps Fixture.str 0
      "pod.test-pod/add-one" (PList [PInt 5]) None
      (Fixture.world_of Fixture.ended_pod)
      = Blocked w'
    /\ heap w' !! 0 = Some p'
    /\ chans p' !! "uuid-0" = Some (WFuture Pending)
    /\ stdin p' = [invoke_request "uuid-0" "pod.test-pod/add-one" "[5]"]
    /\ stdout p' = [value_done_envelope "uuid-0" "6"].
Proof.
  apply (invoke_after_reader_ended_waits_for_ever Fixture.loads Fixture.loads
           Fixture.dumps Fixture.dumps Fixture.str 0 Fixture.ended_pod
           "pod.test-pod/add-one" (PList [PInt 5]) "[5]"
           (Fixture.world_of Fixture.ended_pod));
    vm_compute; reflexivity.
Defined.

Lemma invoke_public_wants_the_pod_id_witness :
  invoke_public Fixture.loads Fixture.loads Fixture.dumps Fixture.dumps Fixture.str
    (ByPod 0) "pod.test-pod/add-one" (PList [PInt 5]) None (Fixture.world_with ∅ [])
  = Exn (ValueError "Pod None not found") (Fixture.world_with ∅ []).
Proof.
  destruct (invoke_public_wants_the_pod_id Fixture.loads Fixture.loads Fixture.dumps
              Fixture.dumps Fixture.str "pod.test-pod/add-one" (PList [PInt 5]) None
              (Fixture.world_with ∅ [])) as (H & _ & _).
  apply (H 0 (Fixture.pod_with ∅ [])). vm_compute; reflexivity.
Defined.

Lemma other_waiters_are_not_touched_witness :
  after (processor_loop Fixture.loads Fixture.loads 0
           [value_done_envelope "a" "6"; Fixture.error_reply "a"]
           (Fixture.world_with {["a" := WFuture Pending; "b" := WFuture Pending]} []))
        (fun w' => exists p',
           heap w' !! 0 = Some p'
           /\ forall j, (forall reply,
                           reply ∈ [value_done_envelope "a" "6"; Fixture.error_reply "a"] ->
                           r_id reply <> Some j) ->
                        chans p' !! j
                        = chans (Fixture.pod_with
                                   {["a" := WFuture Pending; "b" := WFuture Pending]} [])
                            !! j).
Proof.
  apply (other_waiters_are_not_touched Fixture.loads Fixture.loads 0
           (Fixture.pod_with {["a" := WFuture Pending; "b" := WFuture Pending]} [])).
  vm_compute; reflexivity.
Defined.

Lemma none_value_without_done_is_lost_witness :
  processor_body Fixture.loads Fixture.loads 0 (value_envelope "a" "null")
    (Fixture.world_with {["a" := WFuture Pending]} [])
  = Ok tt (with_trace [] (Fixture.world_with {["a" := WFuture Pending]} [])).
Proof.
  apply (none_value_without_done_is_lost Fixture.loads Fixture.loads 0
           (Fixture.pod_with {["a" := WFuture Pending]} []) "a"
           (value_envelope "a" "null") "null"
           (Fixture.world_with {["a" := WFuture Pending]} []));
    vm_compute; reflexivity.
Defined.

Lemma error_envelope_calls_error_handler_only_witness :
  processor_body Fixture.loads Fixture.loads 0 (Fixture.error_reply "a")
    (Fixture.world_with {["a" := WHandlers Fixture.handlers3]} [])
  = Ok tt (with_trace [ECall 2 [PDict [("ex-message", PStr ""); ("ex-data", PDict [])]]]
             (Fixture.world_with {["a" := WHandlers Fixture.handlers3]} [])).
Proof.
  apply (error_envelope_calls_error_handler_only Fixture.loads Fixture.loads 0
           (Fixture.pod_with {["a" := WHandlers Fixture.handlers3]} []) "a"
           Fixture.handlers3 (Fixture.error_reply "a")
           (Fixture.world_with {["a" := WHandlers Fixture.handlers3]} []));
    vm_compute; reflexivity.
Defined.

Lemma qualified_symbol_needs_version_or_path_witness :
  load_pod Fixture.no_resolver Fixture.test_popen Fixture.strip Fixture.int_of 10
    (SpecStr "org.babashka/instaparse") Fixture.no_opts Fixture.world0
  = Exn (ValueError "Version or path must be provided") Fixture.world0.
Proof.
  apply (qualified_symbol_needs_version_or_path Fixture.no_resolver Fixture.test_popen
           Fixture.strip Fixture.int_of 10 "org.babashka/instaparse" Fixture.no_opts
           Fixture.world0); reflexivity.
Defined.

Lemma load_pod_that_raises_before_or_after_registering_witness :
  (heap (Fixture.failed_world Fixture.dunder_popen) = heap Fixture.world0
   /\ pods (Fixture.failed_world Fixture.dunder_popen) = pods Fixture.world0
   /\ sys_modules (Fixture.failed_world Fixture.dunder_popen) = sys_modules Fixture.world0
   /\ loaded_namespaces (Fixture.failed_world Fixture.dunder_popen)
      = loaded_namespaces Fixture.world0
   /\ trace (Fixture.failed_world Fixture.dunder_popen) = trace Fixture.world0)
  \/ (exists l p nss,
        heap Fixture.world0 !! l = None
        /\ heap (Fixture.failed_world Fixture.dunder_popen) !! l = Some p
        /\ pods (Fixture.failed_world Fixture.dunder_popen)
           = <[pod_id p := l]> (pods Fixture.world0)
        /\ processor_thread p = Some TRunning
        /\ namespaces p = Some nss
        /\ (exposure nss).2 = Some AttributeError
        /\ sys_modules (Fixture.failed_world Fixture.dunder_popen)
           = register_modules (pod_id p) (exposure nss).1 (sys_modules Fixture.world0)
        /\ trace (Fixture.failed_world Fixture.dunder_popen) = trace Fixture.world0).
Proof.
  apply (load_pod_that_raises_before_or_after_registering Fixture.no_resolver
           Fixture.dunder_popen Fixture.strip Fixture.int_of 10 Fixture.test_spec
           Fixture.no_opts AttributeError Fixture.world0
           (Fixture.failed_world Fixture.dunder_popen)).
  vm_compute; reflexivity.
Defined.

(** [load_pod] on a pod whose second namespace has a var named
    [__dict__]: the [setattr] raises [AttributeError] and [load_pod] with
    it, after the pod has been registered and the module of the first
    namespace has been registered as well; [load_pod] on a child that has
    exited raises before anything is registered. *)
Example load_pod_raises_after_registering :
  load_pod Fixture.no_resolver Fixture.dunder_popen Fixture.strip Fixture.int_of 10
    Fixture.test_spec Fixture.no_opts Fixture.world0
  = Exn AttributeError (Fixture.failed_world Fixture.dunder_popen)
  /\ pods (Fixture.failed_world Fixture.dunder_popen) !! "first" = Some 0
  /\ dom (sys_modules (Fixture.failed_world Fixture.dunder_popen)) = {["first"]}
  /\ load_pod Fixture.no_resolver Fixture.dead_popen Fixture.strip Fixture.int_of 10
       Fixture.test_spec Fixture.no_opts Fixture.world0
     = Exn BrokenPipeError (with_drawn 1 Fixture.world0).
Proof. repeat split; vm_compute; reflexivity. Qed.

Lemma metadata_replaces_the_handshake_witness :
  exists p,
    heap Fixture.metadata_world !! 0 = Some p
    /\ stdin p = []
    /\ format p = "json"
    /\ ops p = {["shutdown"]}
    /\ namespaces p
       = Some (bencode_to_namespace 0 <$> default [] (d_namespaces Fixture.clash_describe)).
Proof.
  apply (metadata_replaces_the_handshake Fixture.no_resolver Fixture.test_popen
           Fixture.strip Fixture.int_of 10 Fixture.test_spec Fixture.metadata_opts
           ["clojure"; "-M:test-pod"] Fixture.metadata_opts Fixture.clash_describe
           Fixture.world0 0 Fixture.metadata_world);
    vm_compute; reflexivity.
Defined.

Lemma load_pod_adds_one_pod_object_witness :
  heap Fixture.world0 !! 0 = None
  /\ (forall l', l' <> 0 ->
        heap (Fixture.loaded_world Fixture.test_popen) !! l' = heap Fixture.world0 !! l')
  /\ exists p, heap (Fixture.loaded_world Fixture.test_popen) !! 0 = Some p
               /\ pods (Fixture.loaded_world Fixture.test_popen)
                  = <[pod_id p := 0]> (pods Fixture.world0)
               /\ stdout p = []
               /\ trace (Fixture.loaded_world Fixture.test_popen) = trace Fixture.world0.
Proof.
  apply (load_pod_adds_one_pod_object Fixture.no_resolver Fixture.test_popen
           Fixture.strip Fixture.int_of 10 Fixture.test_spec Fixture.no_opts
           Fixture.world0 0 (Fixture.loaded_world Fixture.test_popen)).
  vm_compute; reflexivity.
Defined.

Lemma load_ns_exposes_a_namespace_once_witness :
  after (load_ns Fixture.loads Fixture.loads 0 "pod.test-pod"
           (Fixture.loaded_world Fixture.test_popen))
        (fun w' => sys_modules w' = sys_modules (Fixture.loaded_world Fixture.test_popen)
                   /\ loaded_namespaces w'
                      = loaded_namespaces (Fixture.loaded_world Fixture.test_popen)).
Proof.
  apply (load_ns_exposes_a_namespace_once Fixture.loads Fixture.loads 0
           Fixture.loaded_pod Fixture.loaded_nss "pod.test-pod"
           (Fixture.loaded_world Fixture.test_popen)).
  - vm_compute; reflexivity.
  - vm_compute; reflexivity.
  - intros ns Hin Hname Hdefer. exfalso.
    assert (Fixture.loaded_nss
            = bencode_to_namespace 0 <$> default [] (d_namespaces Fixture.test_describe))
      as E by (vm_compute; reflexivity).
    rewrite E in Hin. simpl in Hin.
    apply elem_of_cons in Hin as [->|Hin]; [discriminate Hdefer|].
    apply list_elem_of_singleton in Hin as ->. discriminate Hname.
Defined.


Lemma exposed_namespace_is_not_loaded_again_witness :
  load_and_expose_namespace Fixture.loads Fixture.loads "pod.test-pod" "ns.a"
    Fixture.exposed_world
  = Ok (Fixture.plain_ns "ns.a") Fixture.exposed_world.
Proof.
  apply (exposed_namespace_is_not_loaded_again Fixture.loads Fixture.loads 0
           (Fixture.pod_with ∅ []) (Fixture.plain_ns "ns.a")
           (namespace_module "pod.test-pod" (Fixture.plain_ns "ns.a"))
           (Fixture.world_with ∅ []) Fixture.exposed_world);
    vm_compute; reflexivity.
Defined.

Lemma unregistered_plain_namespace_cannot_be_reloaded_witness :
  exists w1,
    unregister_pod_modules "pod.test-pod" (Fixture.world_of Fixture.hooked_pod)
      = Ok tt w1
    /\ load_and_expose_namespace Fixture.loads Fixture.loads "pod.test-pod" "pod.extra" w1
       = Exn (ValueError "Deferred namespace pod.extra not found in pod pod.test-pod") w1.
Proof.
  apply (unregistered_plain_namespace_cannot_be_reloaded Fixture.loads Fixture.loads 0
           Fixture.hooked_pod [Fixture.plain_ns "pod.test-pod"; Fixture.plain_ns "pod.extra"]
           "pod.extra" (Fixture.world_of Fixture.hooked_pod)).
  - vm_compute; reflexivity.
  - vm_compute; reflexivity.
  - reflexivity.
  - intros ns Hin _.
    apply elem_of_cons in Hin as [->|Hin]; [reflexivity|].
    apply list_elem_of_singleton in Hin as ->. reflexivity.
Defined.


Lemma read_port_gives_the_first_port_witness :
  Fixture.world0 = Fixture.world0
  /\ exists k0, 3 = S k0 /\ k0 < 10
                /\ poll_port Fixture.strip Fixture.int_of
                     (port_file_at Fixture.test_child k0) = Some 4711%Z
                /\ forall j, j < k0 ->
                     poll_port Fixture.strip Fixture.int_of
                       (port_file_at Fixture.test_child j) = None.
Proof.
  apply (read_port_gives_the_first_port Fixture.strip Fixture.int_of 10
           (port_file_at Fixture.test_child) 4711%Z 3 Fixture.world0 Fixture.world0).
  vm_compute; reflexivity.
Defined.
